(** * Data plane of the HE / HHE decision framework

    A shallow embedding of [Data_Manager/data_manager.cpp]: the
    length-prefixed framing of spool files, the spool readers, the message
    queue receiver with its SOF / EOF control frames, and the selection of the
    most recent spool file.

    Conventions of the model.
    - One thread.  A [std::lock_guard] scope is transparent; of the per-path
      mutex registry only the set of registered paths is kept.
    - [uint32_t] and [size_t] values are integers in [Z]; every conversion and
      increment writes its wrap-around out.  [size_t] is 64 bits wide (LP64).
    - A C++ exception is a value of [exn]; a call returns [Returned v] or
      [Threw e].
    - The operating system is part of the state ([world]): file contents, the
      paths that cannot be opened for writing, the free space of the device,
      the directories that cannot be created, the endpoints that cannot be
      bound or written to.
    - An output stream ([std::ofstream], [FILE*]) has a buffer of [BUFSIZ]
      bytes.  A write that fits into what is free of the buffer stays
      there and cannot fail; the bytes reach the device when a write does
      not fit, on [flush] / [fflush], on [rewind] and when the stream is
      closed, and only then can the device refuse them.
    - A reader works on the bytes the file held when it was opened. *)

From Stdlib Require Import ZArith Lia Bool List.
From Stdlib Require Import Strings.Byte Strings.Ascii Strings.String.
From stdpp Require Import base gmap strings list.

Local Open Scope Z_scope.

(** ** Machine integers *)

Module Mach.

Definition UINT32_MAX : Z := 2 ^ 32 - 1.
Definition SIZE_MAX : Z := 2 ^ 64 - 1.

(** [static_cast<uint32_t>(z)]. *)
Definition to_uint32 (z : Z) : Z := z mod 2 ^ 32.

(** [static_cast<size_t>(z)], also the result of [++] on a [size_t]. *)
Definition to_size_t (z : Z) : Z := z mod 2 ^ 64.

(** [constexpr uint32_t MAX_REASONABLE_SIZE = 1u << 30;] *)
Definition MAX_REASONABLE_SIZE : Z := to_uint32 (Z.shiftl 1 30).

Definition byte_of_Z (z : Z) : byte :=
  match Byte.of_N (Z.to_N (z mod 256)) with
  | Some b => b
  | None => x00
  end.

Definition Z_of_byte (b : byte) : Z := Z.of_N (Byte.to_N b).

(** [(x >> 8*k) & 0xff] *)
Definition byte_at (k : Z) (x : Z) : Z := Z.land (Z.shiftr x (8 * k)) 255.

(** [(b3 << 24) | (b2 << 16) | (b1 << 8) | b0] *)
Definition compose32 (b3 b2 b1 b0 : Z) : Z :=
  Z.lor (Z.shiftl b3 24) (Z.lor (Z.shiftl b2 16) (Z.lor (Z.shiftl b1 8) b0)).

(** The four bytes of a [uint32_t], least significant first. *)
Definition le_bytes (x : Z) : list byte :=
  [ byte_of_Z (byte_at 0 x); byte_of_Z (byte_at 1 x);
    byte_of_Z (byte_at 2 x); byte_of_Z (byte_at 3 x) ].

Definition of_le_bytes (bs : list byte) : Z :=
  match bs with
  | [b0; b1; b2; b3] =>
      compose32 (Z_of_byte b3) (Z_of_byte b2) (Z_of_byte b1) (Z_of_byte b0)
  | _ => 0
  end.

(** Byte order of the machine the program runs on. *)
Inductive byte_order := LittleEndian | BigEndian.

Definition bswap32 (x : Z) : Z :=
  compose32 (byte_at 0 x) (byte_at 1 x) (byte_at 2 x) (byte_at 3 x).

(** [htonl] and [ntohl] of <arpa/inet.h>: the identity on a big-endian
    host, a byte swap on a little-endian one. *)
Definition htonl (host : byte_order) (x : Z) : Z :=
  match host with BigEndian => x | LittleEndian => bswap32 x end.

Definition ntohl (host : byte_order) (x : Z) : Z := htonl host x.

(** Object representation of a [uint32_t]: what
    [reinterpret_cast<const char*>(&x)] points to, and what
    [fread(&x, 1, 4, f)] fills. *)
Definition store_uint32 (host : byte_order) (x : Z) : list byte :=
  match host with
  | LittleEndian => le_bytes x
  | BigEndian => rev (le_bytes x)
  end.

Definition load_uint32 (host : byte_order) (bs : list byte) : Z :=
  match host with
  | LittleEndian => of_le_bytes bs
  | BigEndian => of_le_bytes (rev bs)
  end.

(** The length prefix as it appears in a file, most significant byte
    first. *)
Definition be_bytes (x : Z) : list byte := rev (le_bytes x).

Definition of_be_bytes (bs : list byte) : Z := of_le_bytes (rev bs).

End Mach.

Export Mach.

(** ** Exceptions and results *)

(** The exception classes the program throws or receives from its libraries.
    A [runtime_error] carries the text the source gives it.  For the other
    three the text comes from the operating system or from ZeroMQ; the model
    keeps the argument of the constructor, or the name of the failing call,
    and leaves the system's part of the text out. *)
Inductive exn :=
| runtime_error (what : string)
| system_error (what : string)
| filesystem_error (what : string)
| zmq_error (what : string).

Inductive outcome (A : Type) :=
| Returned (a : A)
| Threw (e : exn).

Arguments Returned {A} a.
Arguments Threw {A} e.

Definition what (e : exn) : string :=
  match e with
  | runtime_error s | system_error s | filesystem_error s | zmq_error s => s
  end.

(** Modelled from the spec: the error kind [CorruptedFrame], "a length prefix
    exceeded the cap or a frame body was truncated".  The source has no such
    type; it throws [std::runtime_error] with the messages below. *)
Definition CorruptedFrame (e : exn) : bool :=
  match e with
  | runtime_error s =>
      bool_decide (s ∈ [ "read_length_prefixed_bytes: suspicious length";
                         "read_length_prefixed_bytes: failed to read payload";
                         "corrupted file (incomplete length header)";
                         "suspicious length";
                         "corrupted file (payload truncated)" ]%string)
  | _ => false
  end.

(** ** Streams *)

Module Stream.

(** [std::ifstream] over the bytes of a file. *)
Record ifstream := {
  i_is_open : bool;
  i_data : list byte;
  i_pos : nat;
  i_eofbit : bool;
  i_failbit : bool;
  i_badbit : bool
}.

(** [!ifs] is [ifs.fail()]: failbit or badbit. *)
Definition i_fail (s : ifstream) : bool := i_failbit s || i_badbit s.
Definition i_eof (s : ifstream) : bool := i_eofbit s.
Definition i_good (s : ifstream) : bool :=
  negb (i_eofbit s || i_failbit s || i_badbit s).

(** [ifs.read(buf, n)]: on a stream that is not good only failbit is set;
    otherwise up to [n] bytes are extracted, and a short count sets eofbit
    and failbit.  Returns the bytes stored into the buffer. *)
Definition i_read (s : ifstream) (n : nat) : list byte * ifstream :=
  if i_good s then
    let avail := drop (i_pos s) (i_data s) in
    if (n <=? length avail)%nat then
      (take n avail,
       {| i_is_open := i_is_open s; i_data := i_data s;
          i_pos := (i_pos s + n)%nat;
          i_eofbit := false; i_failbit := false; i_badbit := false |})
    else
      (avail,
       {| i_is_open := i_is_open s; i_data := i_data s;
          i_pos := (i_pos s + length avail)%nat;
          i_eofbit := true; i_failbit := true; i_badbit := false |})
  else
    ([],
     {| i_is_open := i_is_open s; i_data := i_data s; i_pos := i_pos s;
        i_eofbit := i_eofbit s; i_failbit := true; i_badbit := i_badbit s |}).

(** An [ifstream] just opened on a file holding [bs]. *)
Definition i_open (bs : list byte) : ifstream :=
  {| i_is_open := true; i_data := bs; i_pos := 0%nat;
     i_eofbit := false; i_failbit := false; i_badbit := false |}.

(** An [ifstream] whose file could not be opened. *)
Definition i_closed : ifstream :=
  {| i_is_open := false; i_data := []; i_pos := 0%nat;
     i_eofbit := false; i_failbit := true; i_badbit := false |}.

(** [ifs.clear(); ifs.seekg(0);] *)
Definition i_rewind (s : ifstream) : ifstream :=
  {| i_is_open := i_is_open s; i_data := i_data s; i_pos := 0%nat;
     i_eofbit := false; i_failbit := negb (i_is_open s); i_badbit := false |}.

(** Capacity of the buffer of an output stream: [BUFSIZ] of <cstdio>, which
    is also the size of the buffer of a [std::filebuf] (8192 with glibc and
    libstdc++).  At which size exactly a library passes a write on to the
    device differs from one library to the next; the properties proved
    below hold for every capacity of four bytes or more, and only the
    examples on a full device use that a frame of five bytes stays in the
    buffer. *)
Definition BUFSIZ : Z := 8192.

(** [std::ofstream]: [o_written] are the bytes the stream has taken, the
    last [o_pending] of them still in its buffer, the others on the
    device; [o_room] is how many more bytes the device will take. *)
Record ofstream := {
  o_is_open : bool;
  o_written : list byte;
  o_pending : nat;
  o_room : Z;
  o_failbit : bool;
  o_badbit : bool
}.

Definition o_fail (s : ofstream) : bool := o_failbit s || o_badbit s.

(** The buffer goes to the device.  A device that takes fewer bytes keeps
    what it takes; the rest is lost and badbit is set. *)
Definition o_sync (s : ofstream) : ofstream :=
  if Z.of_nat (o_pending s) <=? o_room s then
    {| o_is_open := o_is_open s; o_written := o_written s; o_pending := 0%nat;
       o_room := o_room s - Z.of_nat (o_pending s);
       o_failbit := o_failbit s; o_badbit := o_badbit s |}
  else
    {| o_is_open := o_is_open s;
       o_written :=
         take (length (o_written s) - o_pending s + Z.to_nat (o_room s))%nat
           (o_written s);
       o_pending := 0%nat; o_room := 0;
       o_failbit := o_failbit s; o_badbit := true |}.

(** [ofs.write(buf, n)] with [bs] the [n] bytes of the buffer: on a failed
    stream failbit is set and nothing is taken.  Otherwise the bytes are
    put behind those in the buffer; when the buffer cannot hold them, it
    goes to the device with them. *)
Definition o_write (s : ofstream) (bs : list byte) : ofstream :=
  if o_fail s then
    {| o_is_open := o_is_open s; o_written := o_written s;
       o_pending := o_pending s;
       o_room := o_room s; o_failbit := true; o_badbit := o_badbit s |}
  else
    let s' :=
      {| o_is_open := o_is_open s; o_written := o_written s ++ bs;
         o_pending := (o_pending s + length bs)%nat;
         o_room := o_room s; o_failbit := false; o_badbit := false |} in
    if Z.of_nat (o_pending s') <=? BUFSIZ then s' else o_sync s'.

(** [ofs.flush()]: nothing on a failed stream; else the buffer goes to the
    device. *)
Definition o_flush (s : ofstream) : ofstream :=
  if o_fail s then s else o_sync s.

(** A [FILE*] opened for reading. *)
Record FILE_in := {
  fi_data : list byte;
  fi_pos : nat;
  fi_eof : bool
}.

(** [fread(buf, 1, n, f)]: the bytes read; the return value of the call is
    their number. *)
Definition fread (f : FILE_in) (n : nat) : list byte * FILE_in :=
  let avail := drop (fi_pos f) (fi_data f) in
  if (n <=? length avail)%nat then
    (take n avail,
     {| fi_data := fi_data f; fi_pos := (fi_pos f + n)%nat;
        fi_eof := fi_eof f |})
  else
    (avail,
     {| fi_data := fi_data f; fi_pos := (fi_pos f + length avail)%nat;
        fi_eof := true |}).

Definition f_open (bs : list byte) : FILE_in :=
  {| fi_data := bs; fi_pos := 0%nat; fi_eof := false |}.

(** [fseek(f, 0, SEEK_SET)] *)
Definition f_rewind (f : FILE_in) : FILE_in :=
  {| fi_data := fi_data f; fi_pos := 0%nat; fi_eof := false |}.

(** A [FILE*] that is written to: [fo_written] are the bytes the stream
    has taken, the last [fo_pending] of them still in its buffer. *)
Record FILE_out := {
  fo_written : list byte;
  fo_pending : nat;
  fo_room : Z;
  fo_error : bool
}.

(** [fflush(f)]: the buffer goes to the device.  A device that takes fewer
    bytes keeps what it takes; the rest is lost and the error indicator is
    set. *)
Definition fflush (f : FILE_out) : FILE_out :=
  if Z.of_nat (fo_pending f) <=? fo_room f then
    {| fo_written := fo_written f; fo_pending := 0%nat;
       fo_room := fo_room f - Z.of_nat (fo_pending f);
       fo_error := fo_error f |}
  else
    {| fo_written :=
         take (length (fo_written f) - fo_pending f + Z.to_nat (fo_room f))%nat
           (fo_written f);
       fo_pending := 0%nat; fo_room := 0; fo_error := true |}.

(** [fwrite(buf, 1, n, f)] with [bs] the [n] bytes of the buffer: the
    number of bytes written and the stream afterwards.  The bytes are put
    behind those in the buffer; when the buffer cannot hold them, it goes
    to the device with them, and the result counts the bytes of [bs] the
    device has taken. *)
Definition fwrite (f : FILE_out) (bs : list byte) : Z * FILE_out :=
  let f' :=
    {| fo_written := fo_written f ++ bs;
       fo_pending := (fo_pending f + length bs)%nat;
       fo_room := fo_room f; fo_error := fo_error f |} in
  if Z.of_nat (fo_pending f') <=? BUFSIZ then (Z.of_nat (length bs), f')
  else if Z.of_nat (fo_pending f') <=? fo_room f then
    (Z.of_nat (length bs), fflush f')
  else (Z.max 0 (fo_room f - Z.of_nat (fo_pending f)), fflush f').

(** [fwrite(buf, size, 1, f)]: 1 when the whole item was written, else 0. *)
Definition fwrite_item (f : FILE_out) (bs : list byte) : Z * FILE_out :=
  let '(n, f') := fwrite f bs in
  (if n =? Z.of_nat (length bs) then 1 else 0, f').

(** [ftell(f)] on a stream that has been written from its start. *)
Definition ftell (f : FILE_out) : Z := Z.of_nat (length (fo_written f)).

(** [rewind(f)] on a stream opened for update that has been written: the
    buffer goes to the device, then the position is set to the start.
    When the device refuses the bytes the position is not moved: it stays
    behind the last byte of the file. *)
Definition rewind (f : FILE_out) : FILE_in :=
  let f' := fflush f in
  if Z.of_nat (fo_pending f) <=? fo_room f then f_open (fo_written f')
  else {| fi_data := fo_written f'; fi_pos := length (fo_written f');
          fi_eof := false |}.

End Stream.

Export Stream.

(** ** Framer *)

Module Framer.

Section Host.

Variable host : byte_order.

(** [write_length_prefixed_bytes_to_ofstream(ofs, data, size)], called with
    [data.data()] and [data.size()] of a byte vector. *)
Definition write_length_prefixed_bytes_to_ofstream
    (ofs : ofstream) (data : list byte) : outcome unit * ofstream :=
  let size := Z.of_nat (length data) in
  let len := to_uint32 size in
  if negb (len =? size) then
    (Threw (runtime_error "payload too large for uint32_t length prefix"), ofs)
  else
    let be := htonl host len in
    let ofs := o_write ofs (store_uint32 host be) in
    if o_fail ofs then
      (Threw (runtime_error "write_length_prefixed_bytes: failed to write length"), ofs)
    else if negb (len =? 0) then
      let ofs := o_write ofs (take (Z.to_nat len) data) in
      if o_fail ofs then
        (Threw (runtime_error "write_length_prefixed_bytes: failed to write payload"), ofs)
      else (Returned tt, ofs)
    else (Returned tt, ofs).

(** State of the output vector of a reader, with the sizes its [resize]
    calls asked for. *)
Record out_vector := {
  v_bytes : list byte;
  v_resized : list Z
}.

Definition v_clear (v : out_vector) : out_vector :=
  {| v_bytes := []; v_resized := v_resized v |}.

(** [out.resize(len)] on a cleared vector: [len] zero bytes. *)
Definition v_resize (v : out_vector) (len : Z) : out_vector :=
  {| v_bytes := take (Z.to_nat len) (v_bytes v)
                ++ repeat x00 (Z.to_nat len - length (v_bytes v));
     v_resized := v_resized v ++ [len] |}.

(** A read into [out.data()] overwrites the front of the vector. *)
Definition v_fill (v : out_vector) (bs : list byte) : out_vector :=
  {| v_bytes := bs ++ drop (length bs) (v_bytes v);
     v_resized := v_resized v |}.

(** [read_length_prefixed_bytes_from_ifstream(ifs, out)] *)
Definition read_length_prefixed_bytes_from_ifstream
    (ifs : ifstream) (out : out_vector)
    : outcome bool * ifstream * out_vector :=
  let out := v_clear out in
  let '(len_be, ifs) := i_read ifs 4 in
  if i_fail ifs then
    if i_eof ifs then (Returned false, ifs, out)
    else (Threw (runtime_error "read_length_prefixed_bytes: failed to read length"), ifs, out)
  else
    let len := ntohl host (load_uint32 host len_be) in
    if len >? MAX_REASONABLE_SIZE then
      (Threw (runtime_error "read_length_prefixed_bytes: suspicious length"), ifs, out)
    else
      let out := v_resize out len in
      if negb (len =? 0) then
        let '(bs, ifs) := i_read ifs (Z.to_nat len) in
        let out := v_fill out bs in
        if i_fail ifs then
          (Threw (runtime_error "read_length_prefixed_bytes: failed to read payload"), ifs, out)
        else (Returned true, ifs, out)
      else (Returned true, ifs, out).

(** [write_length_prefixed_bytes_to_FILE(f, data, size)] *)
Definition write_length_prefixed_bytes_to_FILE
    (f : FILE_out) (data : list byte) : outcome unit * FILE_out :=
  let size := Z.of_nat (length data) in
  let len := to_uint32 size in
  if negb (len =? size) then
    (Threw (runtime_error "payload too large for uint32_t length prefix"), f)
  else
    let be := htonl host len in
    let '(n, f) := fwrite_item f (store_uint32 host be) in
    if negb (n =? 1) then
      (Threw (runtime_error "write_length_prefixed_bytes_to_FILE: write length failed"), f)
    else if negb (len =? 0) then
      let '(n, f) := fwrite f (take (Z.to_nat len) data) in
      if negb (n =? len) then
        (Threw (runtime_error "write_length_prefixed_bytes_to_FILE: write payload failed"), f)
      else (Returned tt, f)
    else (Returned tt, f).

(** [read_length_prefixed_bytes_from_FILE(f, out)] *)
Definition read_length_prefixed_bytes_from_FILE
    (f : FILE_in) (out : out_vector)
    : outcome bool * FILE_in * out_vector :=
  let out := v_clear out in
  let '(len_be, f) := fread f 4 in
  let r := Z.of_nat (length len_be) in
  if r =? 0 then (Returned false, f, out)
  else if negb (r =? 4) then
    (Threw (runtime_error "corrupted file (incomplete length header)"), f, out)
  else
    let len := ntohl host (load_uint32 host len_be) in
    if len >? MAX_REASONABLE_SIZE then
      (Threw (runtime_error "suspicious length"), f, out)
    else
      let out := v_resize out len in
      if negb (len =? 0) then
        let '(bs, f) := fread f (Z.to_nat len) in
        let out := v_fill out bs in
        if negb (Z.of_nat (length bs) =? len) then
          (Threw (runtime_error "corrupted file (payload truncated)"), f, out)
        else (Returned true, f, out)
      else (Returned true, f, out).

End Host.

End Framer.

Export Framer.

(** ** The process and its environment *)

Module Env.

(** How a send on a bound push socket can fail. *)
Inductive send_fault :=
| SendThrows      (* [socket_t::send] throws [zmq::error_t] *)
| SendNoValue.    (* [socket_t::send] returns an empty optional *)

Record world := {
  (** regular files, by path *)
  w_files : gmap string (list byte);
  (** paths that cannot be opened for writing *)
  w_unwritable : gset string;
  (** bytes the device still takes *)
  w_free : Z;
  (** directories that do not exist and cannot be created *)
  w_mkdir_denied : gset string;
  (** whether [tmpfile()] returns a stream *)
  w_tmpfile_ok : bool;
  (** [g_path_mutexes]: the paths that own a mutex *)
  g_path_mutexes : gset string;
  (** [ZmqPushManager::sockets_]: the bound push sockets, each with the
      messages sent on it, oldest first *)
  w_sockets : gmap string (list (list byte));
  (** endpoints on which [bind] throws *)
  w_unbindable : gset string;
  (** endpoints on which [send] fails, and how *)
  w_send_fault : gmap string send_fault;
  (** lines printed on [std::cerr] *)
  w_stderr : list string
}.

Definition set_files (fs : gmap string (list byte)) (free : Z) (w : world) : world :=
  {| w_files := fs; w_unwritable := w_unwritable w; w_free := free;
     w_mkdir_denied := w_mkdir_denied w; w_tmpfile_ok := w_tmpfile_ok w;
     g_path_mutexes := g_path_mutexes w; w_sockets := w_sockets w;
     w_unbindable := w_unbindable w; w_send_fault := w_send_fault w;
     w_stderr := w_stderr w |}.

Definition set_mutexes (ms : gset string) (w : world) : world :=
  {| w_files := w_files w; w_unwritable := w_unwritable w; w_free := w_free w;
     w_mkdir_denied := w_mkdir_denied w; w_tmpfile_ok := w_tmpfile_ok w;
     g_path_mutexes := ms; w_sockets := w_sockets w;
     w_unbindable := w_unbindable w; w_send_fault := w_send_fault w;
     w_stderr := w_stderr w |}.

Definition set_sockets (ss : gmap string (list (list byte))) (w : world) : world :=
  {| w_files := w_files w; w_unwritable := w_unwritable w; w_free := w_free w;
     w_mkdir_denied := w_mkdir_denied w; w_tmpfile_ok := w_tmpfile_ok w;
     g_path_mutexes := g_path_mutexes w; w_sockets := ss;
     w_unbindable := w_unbindable w; w_send_fault := w_send_fault w;
     w_stderr := w_stderr w |}.

(** [std::cerr << line << std::endl] *)
Definition cerr (line : string) (w : world) : world :=
  {| w_files := w_files w; w_unwritable := w_unwritable w; w_free := w_free w;
     w_mkdir_denied := w_mkdir_denied w; w_tmpfile_ok := w_tmpfile_ok w;
     g_path_mutexes := g_path_mutexes w; w_sockets := w_sockets w;
     w_unbindable := w_unbindable w; w_send_fault := w_send_fault w;
     w_stderr := w_stderr w ++ [line] |}.

(** [get_mutex_for_path(path)]: the entry is created on first request and
    never removed. *)
Definition get_mutex_for_path (path : string) (w : world) : world :=
  if decide (path ∈ g_path_mutexes w) then w
  else set_mutexes ({[path]} ∪ g_path_mutexes w) w.

(** What stands before the last ['/'] of a path; [None] when the path
    has none. *)
Fixpoint before_last_separator (s : string) : option string :=
  match s with
  | EmptyString => None
  | String c s =>
      match before_last_separator s with
      | Some d => Some (String c d)
      | None => if bool_decide (c = "/"%char) then Some EmptyString else None
      end
  end.

(** A path without the separators it ends in. *)
Fixpoint without_trailing_separators (s : string) : string :=
  match s with
  | EmptyString => EmptyString
  | String c s =>
      match without_trailing_separators s with
      | EmptyString =>
          if bool_decide (c = "/"%char) then EmptyString else String c EmptyString
      | d => String c d
      end
  end.

(** [file_path.parent_path()] of a path in the generic format: the path
    without its last element.  It is empty for a path that has no directory
    part, and the root for a file of the root directory. *)
Definition parent_path (path : string) : string :=
  match before_last_separator path with
  | None => ""
  | Some d =>
      match without_trailing_separators d with
      | EmptyString => "/"
      | d => d
      end
  end.

(** [std::filesystem::create_directories(p)]: it throws for the empty
    path, and for a directory that cannot be created; a directory that
    exists is no error. *)
Definition create_directories (p : string) (w : world) : outcome unit :=
  if decide (p = ""%string) then
    Threw (filesystem_error "filesystem error: cannot create directories")
  else if decide (p ∈ w_mkdir_denied w) then
    Threw (filesystem_error "filesystem error: cannot create directories")
  else Returned tt.

(** [std::filesystem::create_directories(file_path.parent_path())] *)
Definition create_parent_directories (path : string) (w : world) : outcome unit :=
  create_directories (parent_path path) w.

(** [std::ofstream ofs(path, std::ios::binary | std::ios::app)]: the file
    is created when it is missing. *)
Definition ofstream_open_app (path : string) (w : world) : ofstream * world :=
  if decide (path ∈ w_unwritable w) then
    ({| o_is_open := false; o_written := []; o_pending := 0%nat; o_room := 0;
        o_failbit := true; o_badbit := false |}, w)
  else
    ({| o_is_open := true; o_written := []; o_pending := 0%nat;
        o_room := w_free w; o_failbit := false; o_badbit := false |},
     set_files (<[path := default [] (w_files w !! path)]> (w_files w)) (w_free w) w).

(** The destructor of the [ofstream]: the buffer goes to the device, and
    what the device has taken is in the file.  It runs when the scope is
    left, by return or by exception. *)
Definition ofstream_close (path : string) (ofs : ofstream) (w : world) : world :=
  if o_is_open ofs then
    let ofs := o_sync ofs in
    set_files
      (<[path := default [] (w_files w !! path) ++ o_written ofs]> (w_files w))
      (w_free w - Z.of_nat (length (o_written ofs))) w
  else w.

(** [fopen(path, "ab")] *)
Definition fopen_ab (path : string) (w : world) : option FILE_out * world :=
  if decide (path ∈ w_unwritable w) then (None, w)
  else
    (Some {| fo_written := []; fo_pending := 0%nat; fo_room := w_free w;
             fo_error := false |},
     set_files (<[path := default [] (w_files w !! path)]> (w_files w)) (w_free w) w).

(** [fclose(f)] on a stream opened by [fopen_ab]: the buffer goes to the
    device, and what the device has taken is in the file. *)
Definition fclose_out (path : string) (f : FILE_out) (w : world) : world :=
  let f := fflush f in
  set_files
    (<[path := default [] (w_files w !! path) ++ fo_written f]> (w_files w))
    (w_free w - Z.of_nat (length (fo_written f))) w.

(** [tmpfile()]: a stream on a new, empty file, or a null pointer. *)
Definition tmpfile (w : world) : option FILE_out :=
  if w_tmpfile_ok w then
    Some {| fo_written := []; fo_pending := 0%nat; fo_room := w_free w;
            fo_error := false |}
  else None.

(** [std::ifstream ifs(path, std::ios::binary)] *)
Definition ifstream_open (path : string) (w : world) : ifstream :=
  match w_files w !! path with
  | Some bs => i_open bs
  | None => i_closed
  end.

(** [fopen(path, "rb")]: a null pointer when the file does not exist. *)
Definition fopen_rb (path : string) (w : world) : option FILE_in :=
  f_open <$> (w_files w !! path).

End Env.

Export Env.

(** ** Spool files, queue transport, latest file *)

Module DataManager.

Section Program.

Variable host : byte_order.

(** The TFHE library is outside this repository.  [ciphertext] stands for
    [LweSample], [params] for [TFheGateBootstrappingParameterSet]; a null
    parameter pointer is [None].  [export_ct] gives the bytes
    [export_gate_bootstrapping_ciphertext_toFile] writes for one sample,
    [import_ct] is [import_gate_bootstrapping_ciphertext_fromFile] on the
    unread bytes of the stream. *)
Variable ciphertext : Type.
Variable params : Type.
Variable export_ct : params → ciphertext → list byte.
Variable import_ct : params → list byte → ciphertext * list byte.

(** *** Byte spool *)

Definition append_vector_to_file (path : string) (data : list byte) (w : world)
    : outcome unit * world :=
  let w := get_mutex_for_path path w in
  let '(r, w) :=
    match create_parent_directories path w with
    | Threw e => (Threw e, w)
    | Returned _ =>
        let '(ofs, w) := ofstream_open_app path w in
        if negb (o_is_open ofs) then
          (Threw (system_error "append_vector_to_file: cannot open file"), w)
        else
          let '(r, ofs) := write_length_prefixed_bytes_to_ofstream host ofs data in
          let ofs := match r with Returned _ => o_flush ofs | Threw _ => ofs end in
          (r, ofstream_close path ofs w)
    end in
  match r with
  | Returned _ => (Returned tt, w)
  | Threw e =>
      (Returned tt, cerr ("Error in Funktion append_vector_to_file: " +:+ what e) w)
  end.

Record FileVectorReader := {
  fvr_ifs : ifstream;
  fvr_path : string
}.

(** [FileVectorReader::FileVectorReader(path)]: [Impl]'s constructor throws
    before the mutex of the path is asked for. *)
Definition FileVectorReader_new (path : string) (w : world)
    : outcome FileVectorReader * world :=
  let ifs := ifstream_open path w in
  if negb (i_is_open ifs) then
    (Threw (runtime_error ("FileVectorReader: cannot open file: " +:+ path)), w)
  else
    (Returned {| fvr_ifs := ifs; fvr_path := path |}, get_mutex_for_path path w).

Definition FileVectorReader_reset (r : FileVectorReader) : FileVectorReader :=
  {| fvr_ifs := i_rewind (fvr_ifs r); fvr_path := fvr_path r |}.

Definition FileVectorReader_next (r : FileVectorReader) (out : out_vector)
    : outcome bool * FileVectorReader * out_vector :=
  let '(res, ifs, out) := read_length_prefixed_bytes_from_ifstream host (fvr_ifs r) out in
  (res, {| fvr_ifs := ifs; fvr_path := fvr_path r |}, out).

(** *** Push sockets *)

Definition send_to_endpoint (endpoint : string) (data : list byte) (w : world)
    : outcome unit * world :=
  let '(r, w) :=
    let '(r, w) :=
      match w_sockets w !! endpoint with
      | Some _ => (Returned tt, w)
      | None =>
          if decide (endpoint ∈ w_unbindable w) then
            (Threw (zmq_error "bind"), w)
          else (Returned tt, set_sockets (<[endpoint := []]> (w_sockets w)) w)
      end in
    match r with
    | Threw e => (Threw e, w)
    | Returned _ =>
        match w_send_fault w !! endpoint with
        | Some SendThrows => (Threw (zmq_error "send"), w)
        | Some SendNoValue =>
            (Threw (runtime_error "ZmqPushManager::send_to_endpoint: send failed"), w)
        | None =>
            (Returned tt,
             set_sockets
               (<[endpoint := default [] (w_sockets w !! endpoint) ++ [data]]>
                  (w_sockets w)) w)
        end
    end in
  match r with
  | Returned _ => (Returned tt, w)
  | Threw e =>
      (Returned tt,
       cerr ("Error in Funktion ZmqPushManager::send_to_endpoint: " +:+ what e) w)
  end.

(** [send_vector_via_zmq(zmq_endpoint, data)], byte overload. *)
Definition send_vector_via_zmq (zmq_endpoint : string) (data : list byte) (w : world)
    : outcome unit * world :=
  send_to_endpoint zmq_endpoint data w.

Definition send_sof_marker (zmq_endpoint : string) (w : world)
    : outcome unit * world :=
  let sof_marker := [xfe] in
  send_vector_via_zmq zmq_endpoint sof_marker w.

(** *** TFHE codec and spool *)

(** The export loop: one [export_gate_bootstrapping_ciphertext_toFile] per
    sample; its result is not looked at. *)
Fixpoint export_all (p : params) (v : list ciphertext) (tmp : FILE_out) : FILE_out :=
  match v with
  | [] => tmp
  | bit :: v => export_all p v (snd (fwrite tmp (export_ct p bit)))
  end.

(** [serialize_TFHECiphertextVec_to_buffer(v, params, out)], called with
    an empty [out]: the result and [out] afterwards. *)
Definition serialize_TFHECiphertextVec_to_buffer
    (v : list ciphertext) (p : option params) (w : world) : bool * list byte :=
  match p with
  | None => (false, [])
  | Some p =>
      match tmpfile w with
      | None => (false, [])
      | Some tmp =>
          let n := to_uint32 (Z.of_nat (length v)) in
          let be := htonl host n in
          let '(k, tmp) := fwrite_item tmp (store_uint32 host be) in
          if negb (k =? 1) then (false, [])
          else
            let tmp := export_all p (take (Z.to_nat n) v) tmp in
            let tmp := fflush tmp in
            let pos := ftell tmp in
            if pos <? 0 then (false, [])
            else
              let tmp := rewind tmp in
              let out := repeat x00 (Z.to_nat pos) in
              let '(bs, _) := fread tmp (length out) in
              (Z.of_nat (length bs) =? Z.of_nat (length out),
               bs ++ drop (length bs) out)
      end
  end.

(** The import loop, [n] calls of
    [import_gate_bootstrapping_ciphertext_fromFile]. *)
Fixpoint import_all (p : params) (n : nat) (rest : list byte) : list ciphertext :=
  match n with
  | O => []
  | S n => let '(c, rest) := import_ct p rest in c :: import_all p n rest
  end.

Definition deserialize_buffer_to_TFHECiphertextVec
    (input : list byte) (p : option params) (w : world) (out : list ciphertext)
    : bool * list ciphertext :=
  match p with
  | None => (false, out)
  | Some p =>
      if Z.of_nat (length input) <? 4 then (false, out)
      else
        match tmpfile w with
        | None => (false, out)
        | Some tmp =>
            let '(k, tmp) := fwrite tmp input in
            if negb (k =? Z.of_nat (length input)) then (false, out)
            else
              let tmp := rewind tmp in
              let '(be_n, tmp) := fread tmp 4 in
              if negb (Z.of_nat (length be_n) =? 4) then (false, out)
              else
                let n := ntohl host (load_uint32 host be_n) in
                (true, import_all p (Z.to_nat n) (drop (fi_pos tmp) (fi_data tmp)))
        end
  end.

(** [append_vector_to_file(path, data, params)], TFHE overload.  When the
    frame write throws, the source leaves the stream open; it is closed
    when the process ends, so what the stream holds reaches the file all
    the same. *)
Definition append_TFHE_vector_to_file
    (path : string) (data : list ciphertext) (p : option params) (w : world)
    : outcome unit * world :=
  let w := get_mutex_for_path path w in
  let '(r, w) :=
    match create_parent_directories path w with
    | Threw e => (Threw e, w)
    | Returned _ =>
        match fopen_ab path w with
        | (None, w) =>
            (Threw (runtime_error ("failed to open file for append: " +:+ path)), w)
        | (Some f, w) =>
            let '(ok, buf) := serialize_TFHECiphertextVec_to_buffer data p w in
            if negb ok then
              (Threw (runtime_error "TFHE serialization failed for an element"),
               fclose_out path f w)
            else
              let '(r, f) := write_length_prefixed_bytes_to_FILE host f buf in
              let f := match r with Returned _ => fflush f | Threw _ => f end in
              (r, fclose_out path f w)
        end
    end in
  match r with
  | Returned _ => (Returned tt, w)
  | Threw e =>
      (Returned tt, cerr ("Error in Funktion append_vector_to_file: " +:+ what e) w)
  end.

Record FileTFHEVectorReader := {
  ftr_f : option FILE_in;
  ftr_params : option params;
  ftr_path : string
}.

(** [FileTFHEVectorReader::FileTFHEVectorReader(path, params)] *)
Definition FileTFHEVectorReader_new (path : string) (p : option params) (w : world)
    : outcome FileTFHEVectorReader * world :=
  let w := get_mutex_for_path path w in
  (Returned {| ftr_f := fopen_rb path w; ftr_params := p; ftr_path := path |}, w).

(** [FileTFHEVectorReader::next(out)] *)
Definition FileTFHEVectorReader_next
    (r : FileTFHEVectorReader) (out : list ciphertext) (w : world)
    : outcome bool * FileTFHEVectorReader * list ciphertext :=
  match ftr_f r with
  | None => (Returned false, r, out)
  | Some f =>
      let '(res, f, buf) :=
        read_length_prefixed_bytes_from_FILE host f {| v_bytes := []; v_resized := [] |} in
      let r := {| ftr_f := Some f; ftr_params := ftr_params r; ftr_path := ftr_path r |} in
      match res with
      | Threw e => (Threw e, r, out)
      | Returned false => (Returned false, r, out)
      | Returned true =>
          let '(ok, out) :=
            deserialize_buffer_to_TFHECiphertextVec (v_bytes buf) (ftr_params r) w out in
          if negb ok then (Threw (runtime_error "TFHE deserialization failed"), r, out)
          else (Returned true, r, out)
      end
  end.

Definition FileTFHEVectorReader_reset (r : FileTFHEVectorReader) : FileTFHEVectorReader :=
  match ftr_f r with
  | None => r
  | Some f => {| ftr_f := Some (f_rewind f); ftr_params := ftr_params r;
                 ftr_path := ftr_path r |}
  end.

(** [send_vector_via_zmq(zmq_endpoint, data, params)], TFHE overload. *)
Definition send_TFHE_vector_via_zmq
    (zmq_endpoint : string) (data : list ciphertext) (p : option params) (w : world)
    : outcome unit * world :=
  match p with
  | None => (Threw (runtime_error "TFHE params required for serialization"), w)
  | Some _ =>
      let '(ok, buf) := serialize_TFHECiphertextVec_to_buffer data p w in
      if negb ok then
        (Threw (runtime_error "TFHE serialization failed in send_vector_via_zmq"), w)
      else send_vector_via_zmq zmq_endpoint buf w
  end.

End Program.

End DataManager.

Export DataManager.

Arguments export_all {ciphertext params} export_ct p v tmp.
Arguments serialize_TFHECiphertextVec_to_buffer host {ciphertext params} export_ct v p w.
Arguments import_all {ciphertext params} import_ct p n rest.
Arguments deserialize_buffer_to_TFHECiphertextVec host {ciphertext params} import_ct input p w out.
Arguments append_TFHE_vector_to_file host {ciphertext params} export_ct path data p w.
Arguments FileTFHEVectorReader_new {params} path p w.
Arguments FileTFHEVectorReader_next host {ciphertext params} import_ct r out w.
Arguments FileTFHEVectorReader_reset {params} r.
Arguments send_TFHE_vector_via_zmq host {ciphertext params} export_ct zmq_endpoint data p w.

(** ** Pull receiver *)

Module Receiver.

(** How a call of [zmq_receive_and_store] ends.  [RecvBlocked]: the call
    sits in [sock.recv] after the last message of the session; nothing
    more arrives. *)
Inductive receive_result :=
| RecvReturned (received : Z)
| RecvThrew (e : exn)
| RecvBlocked.

(** [sz >= 1 && data[0] == b] *)
Definition leading_byte_is (b : byte) (msg : list byte) : bool :=
  match msg with
  | d0 :: _ => Byte.eqb d0 b
  | [] => false
  end.

Section Program.

Variable host : byte_order.

(** The block that persists one message. *)
Definition store_message (path : string) (v : list byte) (w : world)
    : outcome unit * world :=
  let '(ofs, w) := ofstream_open_app path w in
  if negb (o_is_open ofs) then
    (Threw (runtime_error "zmq_receive_and_store: cannot open file for append"), w)
  else
    let '(r, ofs) := write_length_prefixed_bytes_to_ofstream host ofs v in
    let ofs := match r with Returned _ => o_flush ofs | Threw _ => ofs end in
    (r, ofstream_close path ofs w).

(** The [while] loop over what [sock.recv] delivers: [None] is a call that
    came back without a message. *)
Fixpoint receive_loop (path : string) (max_messages : Z) (expect_eof_frame : bool)
    (incoming : list (option (list byte))) (received : Z) (w : world)
    : receive_result * world :=
  if (max_messages =? 0) || (received <? max_messages) then
    match incoming with
    | [] => (RecvBlocked, w)
    | None :: incoming =>
        receive_loop path max_messages expect_eof_frame incoming received w
    | Some msg :: incoming =>
        if leading_byte_is xfe msg then
          receive_loop path max_messages expect_eof_frame incoming received w
        else if expect_eof_frame && leading_byte_is xff msg then
          (RecvReturned received, w)
        else
          match store_message path msg w with
          | (Threw e, w) => (RecvThrew e, w)
          | (Returned _, w) =>
              receive_loop path max_messages expect_eof_frame incoming
                (to_size_t (received + 1)) w
          end
    end
  else (RecvReturned received, w).

(** [zmq_receive_and_store(path, zmq_endpoint, max_messages,
    expect_eof_frame)] in a session in which the socket, once connected,
    delivers [incoming]. *)
Definition zmq_receive_and_store (path zmq_endpoint : string)
    (max_messages : Z) (expect_eof_frame : bool)
    (incoming : list (option (list byte))) (w : world)
    : receive_result * world :=
  let received := 0 in
  let w := get_mutex_for_path path w in
  receive_loop path max_messages expect_eof_frame incoming received w.

(** The TFHE overload does not use its parameter set. *)
Definition zmq_receive_and_store_TFHE {params : Type} (path zmq_endpoint : string)
    (p : option params) (max_messages : Z) (expect_eof_frame : bool)
    (incoming : list (option (list byte))) (w : world)
    : receive_result * world :=
  zmq_receive_and_store path zmq_endpoint max_messages expect_eof_frame incoming w.

End Program.

End Receiver.

Export Receiver.

(** ** Latest file of a directory *)

Module Latest.

Record directory_entry := {
  de_filename : string;
  de_is_regular_file : bool
}.

(** [\d] *)
Definition is_digit (c : ascii) : bool :=
  (48 <=? nat_of_ascii c)%nat && (nat_of_ascii c <=? 57)%nat.

Fixpoint all_digits (s : string) : bool :=
  match s with
  | EmptyString => true
  | String c s => is_digit c && all_digits s
  end.

(** [std::regex_search(filename, match, std::regex("^(\\d{8}_\\d{6}).*"))]:
    the first capture group when the name matches. *)
Definition timestamp_regex (filename : string) : option string :=
  let stamp := String.substring 0 15 filename in
  if (String.length stamp =? 15)%nat
     && all_digits (String.substring 0 8 stamp)
     && bool_decide (String.get 8 stamp = Some "_"%char)
     && all_digits (String.substring 9 6 stamp)
  then Some stamp else None.

Fixpoint ends_with_separator (s : string) : bool :=
  match s with
  | EmptyString => false
  | String c EmptyString => bool_decide (c = "/"%char)
  | String _ s => ends_with_separator s
  end.

(** [entry.path().string()]: the directory path, a separator unless it
    ends in one, the file name. *)
Definition entry_path (directory_path filename : string) : string :=
  if ends_with_separator directory_path then directory_path +:+ filename
  else directory_path +:+ "/" +:+ filename.

(** The [for] loop over the directory. *)
Fixpoint latest_loop (directory_path : string) (entries : list directory_entry)
    (latest_file latest_timestamp : string) : string :=
  match entries with
  | [] => latest_file
  | entry :: entries =>
      if de_is_regular_file entry then
        let filename := de_filename entry in
        match timestamp_regex filename with
        | Some timestamp =>
            if String.ltb latest_timestamp timestamp then
              latest_loop directory_path entries
                (entry_path directory_path filename) timestamp
            else latest_loop directory_path entries latest_file latest_timestamp
        | None => latest_loop directory_path entries latest_file latest_timestamp
        end
      else latest_loop directory_path entries latest_file latest_timestamp
  end.

(** [get_latest_file_in_directory(directory_path)].  [listing] is what the
    file system answers: [None] when the path does not exist or is not a
    directory (or the iteration throws, which the source turns into the
    empty result as well), else the entries in the order
    [directory_iterator] yields them. *)
Definition get_latest_file_in_directory (directory_path : string)
    (listing : option (list directory_entry)) : string :=
  match listing with
  | None => ""
  | Some entries => latest_loop directory_path entries "" ""
  end.

End Latest.

Export Latest.


(** ** Vocabulary of the statements *)

Module Vocabulary.

(** The bytes of one frame on disk: the length, most significant byte
    first, then the payload. *)
Definition frame_bytes (b : list byte) : list byte :=
  be_bytes (Z.of_nat (length b)) ++ b.

(** An empty sink that takes [room] bytes. *)
Definition fresh_ofstream (room : Z) : ofstream :=
  {| o_is_open := true; o_written := []; o_pending := 0%nat; o_room := room;
     o_failbit := false; o_badbit := false |}.

Definition fresh_FILE_out (room : Z) : FILE_out :=
  {| fo_written := []; fo_pending := 0%nat; fo_room := room; fo_error := false |}.

Definition empty_vector : out_vector := {| v_bytes := []; v_resized := [] |}.

(** The messages of a session that end up in the spool: those that are
    not taken for SOF. *)
Fixpoint persisted (incoming : list (option (list byte))) : list (list byte) :=
  match incoming with
  | [] => []
  | None :: incoming => persisted incoming
  | Some msg :: incoming =>
      if leading_byte_is xfe msg then persisted incoming
      else msg :: persisted incoming
  end.

(** The messages of a session, without the calls that delivered none. *)
Fixpoint delivered (incoming : list (option (list byte))) : list (list byte) :=
  match incoming with
  | [] => []
  | None :: incoming => delivered incoming
  | Some msg :: incoming => msg :: delivered incoming
  end.

(** Bytes a list of frames takes on disk. *)
Fixpoint frames_size (frames : list (list byte)) : Z :=
  match frames with
  | [] => 0
  | v :: frames => 4 + Z.of_nat (length v) + frames_size frames
  end.

(** A regular file whose name carries the time stamp [t]. *)
Definition stamped (e : directory_entry) (t : string) : Prop :=
  de_is_regular_file e = true /\ timestamp_regex (de_filename e) = Some t.

(** A machine with nothing on it and no fault. *)
Definition quiet_world : world :=
  {| w_files := ∅; w_unwritable := ∅; w_free := 2 ^ 40; w_mkdir_denied := ∅;
     w_tmpfile_ok := true; g_path_mutexes := ∅; w_sockets := ∅;
     w_unbindable := ∅; w_send_fault := ∅; w_stderr := [] |}.

(** A machine on which one spool path is read-only and one endpoint is
    taken. *)
Definition readonly_world : world :=
  {| w_files := ∅; w_unwritable := {["/ro/spool.bin"%string]}; w_free := 2 ^ 40;
     w_mkdir_denied := ∅; w_tmpfile_ok := true; g_path_mutexes := ∅;
     w_sockets := ∅; w_unbindable := {["tcp://*:5556"%string]};
     w_send_fault := ∅; w_stderr := [] |}.

(** A machine whose device is full. *)
Definition full_world : world :=
  {| w_files := ∅; w_unwritable := ∅; w_free := 0; w_mkdir_denied := ∅;
     w_tmpfile_ok := true; g_path_mutexes := ∅; w_sockets := ∅;
     w_unbindable := ∅; w_send_fault := ∅; w_stderr := [] |}.

End Vocabulary.

Export Vocabulary.

(** ** Reading a whole spool, sending a spool *)

Module Transfer.

Section Program.

Variable host : byte_order.
Variable ciphertext : Type.
Variable params : Type.
Variable export_ct : params → ciphertext → list byte.
Variable import_ct : params → list byte → ciphertext * list byte.

(** The [while (reader.next(tmp))] loop of [read_all_vectors_from_file].
    [tmp] is moved from and cleared after each frame.  [None]: the fuel ran
    out before the loop ended. *)
Fixpoint read_all_loop (fuel : nat) (reader : FileVectorReader) (tmp : out_vector)
    (result : list (list byte)) : option (outcome (list (list byte))) :=
  match fuel with
  | O => None
  | S fuel =>
      match FileVectorReader_next host reader tmp with
      | (Threw e, _, _) => Some (Threw e)
      | (Returned false, _, _) => Some (Returned result)
      | (Returned true, reader, tmp) =>
          read_all_loop fuel reader (v_clear tmp) (result ++ [v_bytes tmp])
      end
  end.

(** [read_all_vectors_from_file(path)].  The loop gets one unit of fuel per
    byte of the file, and one more. *)
Definition read_all_vectors_from_file (path : string) (w : world)
    : option (outcome (list (list byte))) * world :=
  match FileVectorReader_new path w with
  | (Threw e, w) => (Some (Threw e), w)
  | (Returned reader, w) =>
      (read_all_loop (S (length (i_data (fvr_ifs reader)))) reader
         {| v_bytes := []; v_resized := [] |} [], w)
  end.

(** [for (auto &vec : items) send_vector_via_zmq(zmq_endpoint, vec);] *)
Fixpoint send_items (zmq_endpoint : string) (items : list (list byte)) (w : world)
    : outcome unit * world :=
  match items with
  | [] => (Returned tt, w)
  | vec :: items =>
      match send_vector_via_zmq zmq_endpoint vec w with
      | (Threw e, w) => (Threw e, w)
      | (Returned _, w) => send_items zmq_endpoint items w
      end
  end.

(** [FILE* f = fopen(path, "wb"); if (f) fclose(f);] under the mutex of the
    path: the file is emptied, or created empty, unless it cannot be opened
    for writing. *)
Definition truncate_file (path : string) (w : world) : world :=
  let w := get_mutex_for_path path w in
  if decide (path ∈ w_unwritable w) then w
  else
    set_files (<[path := []]> (w_files w))
      (w_free w + Z.of_nat (length (default [] (w_files w !! path)))) w.

(** [send_all_vectors_via_zmq(path, zmq_endpoint, remove_after_send)], byte
    overload. *)
Definition send_all_vectors_via_zmq (path zmq_endpoint : string)
    (remove_after_send : bool) (w : world) : option (outcome unit) * world :=
  match read_all_vectors_from_file path w with
  | (None, w) => (None, w)
  | (Some (Threw e), w) => (Some (Threw e), w)
  | (Some (Returned items), w) =>
      match items with
      | [] => (Some (Returned tt), w)
      | _ :: _ =>
          match send_items zmq_endpoint items w with
          | (Threw e, w) => (Some (Threw e), w)
          | (Returned _, w) =>
              if remove_after_send then (Some (Returned tt), truncate_file path w)
              else (Some (Returned tt), w)
          end
      end
  end.

(** The [while (reader.next(item))] loop of the TFHE overload. *)
Fixpoint send_all_TFHE_loop (fuel : nat) (reader : FileTFHEVectorReader params)
    (item : list ciphertext) (zmq_endpoint : string) (p : option params) (w : world)
    : option (outcome unit) * world :=
  match fuel with
  | O => (None, w)
  | S fuel =>
      match FileTFHEVectorReader_next host import_ct reader item w with
      | (Threw e, _, _) => (Some (Threw e), w)
      | (Returned false, _, _) => (Some (Returned tt), w)
      | (Returned true, reader, item) =>
          let '(ok, buf) := serialize_TFHECiphertextVec_to_buffer host export_ct item p w in
          if negb ok then
            (Some (Threw (runtime_error "TFHE serialization failed during send_all")), w)
          else
            match send_vector_via_zmq zmq_endpoint buf w with
            | (Threw e, w) => (Some (Threw e), w)
            | (Returned _, w) =>
                send_all_TFHE_loop fuel reader item zmq_endpoint p w
            end
      end
  end.

(** [send_all_vectors_via_zmq(path, zmq_endpoint, params,
    remove_after_send)], TFHE overload. *)
Definition send_all_TFHE_vectors_via_zmq (path zmq_endpoint : string)
    (p : option params) (remove_after_send : bool) (w : world)
    : option (outcome unit) * world :=
  match FileTFHEVectorReader_new path p w with
  | (Threw e, w) => (Some (Threw e), w)
  | (Returned reader, w) =>
      let fuel := S (length (default [] (fi_data <$> ftr_f _ reader))) in
      match send_all_TFHE_loop fuel reader [] zmq_endpoint p w with
      | (Some (Returned _), w) =>
          if remove_after_send then (Some (Returned tt), truncate_file path w)
          else (Some (Returned tt), w)
      | r => r
      end
  end.

End Program.

End Transfer.

Export Transfer.

Arguments send_all_TFHE_loop host {ciphertext params} export_ct import_ct
  fuel reader item zmq_endpoint p w.
Arguments send_all_TFHE_vectors_via_zmq host {ciphertext params} export_ct import_ct
  path zmq_endpoint p remove_after_send w.

(** ** The client's transmissions *)

Module Client.

(** [enum class EncryptionVariant] *)
Inductive EncryptionVariant := HHE | HE.

(** [ParameterClass::get_encryption_variant()] for a configured variant. *)
Definition get_encryption_variant (encryption_variant : EncryptionVariant) : string :=
  match encryption_variant with
  | HHE => "HHE"
  | HE => "HE"
  end.

Definition zmq_endpoint_sender_HHE : string := "tcp://*:5556".
Definition zmq_endpoint_sender_HE : string := "tcp://*:5557".

Section Program.

Variable host : byte_order.
Variable ciphertext : Type.
Variable params : Type.
Variable export_ct : params → ciphertext → list byte.
Variable import_ct : params → list byte → ciphertext * list byte.

(** The compiled-in configuration. *)
Variable encryption_variant : EncryptionVariant.

(** [ClientClass::initialize_zmq_connection()]; the pause after the send
    is left out. *)
Definition initialize_zmq_connection (w : world) : outcome unit * world :=
  let variant := get_encryption_variant encryption_variant in
  let '(r, w) :=
    if String.eqb variant "HHE" then send_sof_marker zmq_endpoint_sender_HHE w
    else if String.eqb variant "HE" then send_sof_marker zmq_endpoint_sender_HE w
    else (Returned tt, w) in
  match r with
  | Returned _ => (Returned tt, w)
  | Threw e => (Returned tt, cerr ("Error in initialize_zmq_connection: " +:+ what e) w)
  end.

(** [ClientClass::transmit_latest_data()].  [listing] is what the file
    system answers for a directory, [tfhe_params] the parameter set of the
    client, null in the HHE variant. *)
Definition transmit_latest_data (listing : string → option (list directory_entry))
    (tfhe_params : option params) (w : world) : option (outcome unit) * world :=
  let variant := get_encryption_variant encryption_variant in
  let '(r, w) :=
    if String.eqb variant "HHE" then
      let latest_file :=
        get_latest_file_in_directory "../data_kreyvium/" (listing "../data_kreyvium/") in
      match send_all_vectors_via_zmq host latest_file zmq_endpoint_sender_HHE true w with
      | (Some (Returned _), w) =>
          let eof_marker := [xff] in
          let '(r, w) := send_vector_via_zmq zmq_endpoint_sender_HHE eof_marker w in
          (Some r, w)
      | r => r
      end
    else if String.eqb variant "HE" then
      let latest_file :=
        get_latest_file_in_directory "../data_tfhe/" (listing "../data_tfhe/") in
      match send_all_TFHE_vectors_via_zmq host export_ct import_ct latest_file
              zmq_endpoint_sender_HE tfhe_params true w with
      | (Some (Returned _), w) =>
          let eof_marker := [xff] in
          let '(r, w) := send_vector_via_zmq zmq_endpoint_sender_HE eof_marker w in
          (Some r, w)
      | r => r
      end
    else (Some (Returned tt), w) in
  match r with
  | Some (Threw e) =>
      (Some (Returned tt), cerr ("Error in Funktion transmit_latest_data: " +:+ what e) w)
  | r => (r, w)
  end.

End Program.

End Client.

Export Client.

Arguments transmit_latest_data host {ciphertext params} export_ct import_ct
  encryption_variant listing tfhe_params w.

(** ** Vocabulary of the further statements *)

Module Vocabulary2.

(** The world after [bytes] have been appended to the file at [path]. *)
Definition spool_gains (path : string) (bytes : list byte) (w : world) : world :=
  set_files (<[path := default [] (w_files w !! path) ++ bytes]> (w_files w))
    (w_free w - Z.of_nat (length bytes)) w.

(** The bytes of a spool that holds [frames]. *)
Definition spool_bytes (frames : list (list byte)) : list byte :=
  concat (map frame_bytes frames).

(** [append_vector_to_file] for each payload in turn, as the callers'
    [for] loops do. *)
Fixpoint append_each (host : byte_order) (path : string) (frames : list (list byte))
    (w : world) : world :=
  match frames with
  | [] => w
  | v :: frames => append_each host path frames (snd (append_vector_to_file host path v w))
  end.

(** The world after [frames] have been appended to the spool at [path], one
    append per frame; with no frame the file is not touched. *)
Definition stored (path : string) (frames : list (list byte)) (w : world) : world :=
  match frames with
  | [] => w
  | _ :: _ => spool_gains path (spool_bytes frames) w
  end.

(** A message the receiver stores: it does not start with 0xFE and, when
    EOF frames are expected, not with 0xFF. *)
Definition data_message (expect_eof_frame : bool) (msg : list byte) : bool :=
  negb (leading_byte_is xfe msg) && negb (expect_eof_frame && leading_byte_is xff msg).

(** The world after [msgs] have been sent on the push socket of
    [endpoint]. *)
Definition queued (endpoint : string) (msgs : list (list byte)) (w : world) : world :=
  set_sockets (<[endpoint := default [] (w_sockets w !! endpoint) ++ msgs]> (w_sockets w)) w.

(** An endpoint on which a send goes through: the socket is bound or can
    be, and the send does not fail. *)
Definition endpoint_works (endpoint : string) (w : world) : Prop :=
  (is_Some (w_sockets w !! endpoint) \/ endpoint ∉ w_unbindable w) /\
  w_send_fault w !! endpoint = None.

End Vocabulary2.

Export Vocabulary2.

(** ** Vocabulary of the TFHE codec *)

Module CodecVocabulary.

Section Library.

Variable ciphertext : Type.
Variable params : Type.
Variable export_ct : params → ciphertext → list byte.
Variable import_ct : params → list byte → ciphertext * list byte.

(** The bytes the exporter writes for a vector. *)
Definition exported (p : params) (v : list ciphertext) : list byte :=
  concat (map (export_ct p) v).

(** The library reads back what it wrote. *)
Definition import_inverts_export (p : params) : Prop :=
  forall c rest, import_ct p (export_ct p c ++ rest) = (c, rest).

End Library.

(** A toy library for the witnesses: a ciphertext is one byte. *)
Definition toy_export (_ : unit) (c : byte) : list byte := [c].
Definition toy_import (_ : unit) (bs : list byte) : byte * list byte :=
  match bs with
  | b :: rest => (b, rest)
  | [] => (x00, [])
  end.

End CodecVocabulary.

Export CodecVocabulary.

Arguments exported {ciphertext params} export_ct p v.
Arguments import_inverts_export {ciphertext params} export_ct import_ct p.

(** * Sanity checks of the model on small inputs *)

Example frame_of_5A :
  write_length_prefixed_bytes_to_ofstream LittleEndian
    (fresh_ofstream 100) [x5a]
  = (Returned tt,
     {| o_is_open := true; o_written := [x00; x00; x00; x01; x5a];
        o_pending := 5%nat; o_room := 100;
        o_failbit := false; o_badbit := false |}).
Proof. vm_compute. reflexivity. Qed.

(** A frame of five bytes stays in the buffer of the stream: on a full
    device the writer returns all the same, and [flush] then sets badbit,
    which nobody looks at. *)
Example frame_of_5A_on_a_full_device :
  let '(r, ofs) :=
    write_length_prefixed_bytes_to_ofstream LittleEndian (fresh_ofstream 0) [x5a] in
  r = Returned tt /\ o_fail ofs = false /\
  o_written (o_flush ofs) = [] /\ o_badbit (o_flush ofs) = true.
Proof. vm_compute. repeat split. Qed.

Example parent_path_of_some_paths :
  parent_path "../data_kreyvium/20250101_120000_HHE_data_kreyvium.bin" = "../data_kreyvium"%string /\
  parent_path "spool.bin" = ""%string /\
  parent_path "/spool.bin" = "/"%string /\
  parent_path "a//b" = "a"%string /\
  parent_path "a/b/" = "a/b"%string.
Proof. vm_compute. repeat split. Qed.

(** A bare file name has no directory part: [create_directories] throws
    on the empty path, before the file is opened. *)
Example append_to_a_bare_file_name :
  let '(r, w) := append_vector_to_file LittleEndian "spool.bin" [x5a] quiet_world in
  r = Returned tt /\ w_files w = ∅ /\
  w_stderr w = ["Error in Funktion append_vector_to_file: filesystem error: cannot create directories"%string].
Proof. vm_compute. repeat split. Qed.

Example read_of_5A :
  read_length_prefixed_bytes_from_ifstream LittleEndian
    (i_open [x00; x00; x00; x01; x5a]) empty_vector
  = (Returned true,
     {| i_is_open := true; i_data := [x00; x00; x00; x01; x5a]; i_pos := 5;
        i_eofbit := false; i_failbit := false; i_badbit := false |},
     {| v_bytes := [x5a]; v_resized := [1] |}).
Proof. vm_compute. reflexivity. Qed.

Example latest_of_three :
  get_latest_file_in_directory "../data_tfhe/"
    (Some [ {| de_filename := "20240101_120000_HE_data_tfhe.bin"; de_is_regular_file := true |};
            {| de_filename := "20240301_090000_HE_data_tfhe.bin"; de_is_regular_file := true |};
            {| de_filename := "zzz.bin"; de_is_regular_file := true |} ])
  = "../data_tfhe/20240301_090000_HE_data_tfhe.bin"%string.
Proof. vm_compute. reflexivity. Qed.

(** Scenario S4 of the specification: three payloads, then EOF, with up to
    ten messages asked for. *)
Example three_payloads_then_eof :
  fst (zmq_receive_and_store LittleEndian "spool.bin" "tcp://localhost:5557" 10 true
         [Some [x01]; Some [x02]; Some [x03]; Some [xff]] quiet_world)
  = RecvReturned 3.
Proof. vm_compute. reflexivity. Qed.

(** The SOF frame is the one byte 0xFE. *)
Lemma send_sof_marker_sends_FE zmq_endpoint w :
  send_sof_marker zmq_endpoint w = send_vector_via_zmq zmq_endpoint [xfe] w.
Proof. reflexivity. Qed.

(** * Proofs

    ** Bytes and byte order *)


Lemma Z_of_byte_range b : 0 <= Z_of_byte b < 256.
Proof.
  unfold Z_of_byte. pose proof (Byte.to_N_bounded b). lia.
Qed.

Lemma Z_of_byte_of_Z z : 0 <= z < 256 -> Z_of_byte (byte_of_Z z) = z.
Proof.
  intros Hz. unfold Z_of_byte, byte_of_Z.
  rewrite Z.mod_small by lia.
  destruct (Byte.of_N (Z.to_N z)) as [b|] eqn:E.
  - apply Byte.to_of_N in E. lia.
  - apply Byte.of_N_None_iff in E. lia.
Qed.

Lemma byte_of_Z_of_byte b : byte_of_Z (Z_of_byte b) = b.
Proof.
  unfold byte_of_Z. pose proof (Z_of_byte_range b).
  rewrite Z.mod_small by lia. unfold Z_of_byte.
  rewrite N2Z.id, Byte.of_to_N. reflexivity.
Qed.

Lemma testbit_255 n : 0 <= n -> Z.testbit 255 n = (n <? 8).
Proof. intros. change 255 with (Z.ones 8). apply Z.testbit_ones_nonneg; lia. Qed.

Lemma land_255_small a : 0 <= a < 256 -> Z.land a 255 = a.
Proof.
  intros. change 255 with (Z.ones 8). rewrite Z.land_ones by lia.
  apply Z.mod_small. lia.
Qed.

Lemma byte_at_range k x : 0 <= byte_at k x < 256.
Proof.
  unfold byte_at. change 255 with (Z.ones 8). rewrite Z.land_ones by lia.
  apply Z.mod_pos_bound. lia.
Qed.

Lemma testbit_255_any m : Z.testbit 255 m = (0 <=? m) && (m <? 8).
Proof.
  destruct (Z.leb_spec 0 m); simpl.
  - apply testbit_255; lia.
  - apply Z.testbit_neg_r; lia.
Qed.

Ltac bits_unfold :=
  repeat first
    [ rewrite Z.land_spec | rewrite Z.lor_spec
    | rewrite Z.shiftr_spec by lia | rewrite Z.shiftl_spec by lia
    | rewrite testbit_255_any ].

Ltac bits_cases :=
  repeat match goal with
    | |- context [?a <? ?b] => destruct (Z.ltb_spec a b); try lia
    | |- context [?a <=? ?b] => destruct (Z.leb_spec a b); try lia
    end;
  simpl; rewrite ?andb_false_r, ?orb_false_r, ?andb_true_r; simpl;
  rewrite ?Z.shiftr_spec by lia;
  try reflexivity; try (f_equal; lia).

Lemma byte_at_compose32 b3 b2 b1 b0 :
  0 <= b3 < 256 -> 0 <= b2 < 256 -> 0 <= b1 < 256 -> 0 <= b0 < 256 ->
  byte_at 0 (compose32 b3 b2 b1 b0) = b0 /\
  byte_at 1 (compose32 b3 b2 b1 b0) = b1 /\
  byte_at 2 (compose32 b3 b2 b1 b0) = b2 /\
  byte_at 3 (compose32 b3 b2 b1 b0) = b3.
Proof.
  intros H3 H2 H1 H0.
  rewrite <- (land_255_small b0 H0), <- (land_255_small b1 H1),
          <- (land_255_small b2 H2), <- (land_255_small b3 H3).
  unfold byte_at, compose32.
  repeat split; apply Z.bits_inj'; intros n Hn;
    bits_unfold.
  all: bits_cases.
Qed.

Lemma compose32_byte_at x :
  0 <= x < 2 ^ 32 ->
  compose32 (byte_at 3 x) (byte_at 2 x) (byte_at 1 x) (byte_at 0 x) = x.
Proof.
  intros Hx. unfold byte_at, compose32.
  apply Z.bits_inj'; intros n Hn.
  bits_unfold.
  destruct (Z.ltb_spec n 32).
  - bits_cases.
  - assert (Z.testbit x n = false) as ->.
    { apply Z.bits_above_log2; [lia|].
      destruct (Z.eq_dec x 0) as [->|]; [simpl; lia|].
      apply Z.lt_le_trans with 32; [apply Z.log2_lt_pow2; lia | lia]. }
    bits_cases.
Qed.

Lemma store_htonl host x : store_uint32 host (htonl host x) = be_bytes x.
Proof.
  destruct host; [|reflexivity].
  unfold store_uint32, htonl, be_bytes, le_bytes, bswap32. simpl rev.
  destruct (byte_at_compose32 (byte_at 0 x) (byte_at 1 x) (byte_at 2 x) (byte_at 3 x))
    as (E0 & E1 & E2 & E3); try apply byte_at_range.
  rewrite E0, E1, E2, E3. reflexivity.
Qed.

Lemma load_ntohl host b0 b1 b2 b3 :
  ntohl host (load_uint32 host [b0; b1; b2; b3]) = of_be_bytes [b0; b1; b2; b3].
Proof.
  destruct host; [|reflexivity].
  unfold ntohl, htonl, load_uint32, of_be_bytes, of_le_bytes, bswap32. simpl rev.
  destruct (byte_at_compose32 (Z_of_byte b3) (Z_of_byte b2) (Z_of_byte b1) (Z_of_byte b0))
    as (E0 & E1 & E2 & E3); try apply Z_of_byte_range.
  rewrite E0, E1, E2, E3. reflexivity.
Qed.

Lemma of_be_bytes_be_bytes x : 0 <= x < 2 ^ 32 -> of_be_bytes (be_bytes x) = x.
Proof.
  intros Hx. unfold of_be_bytes, be_bytes, le_bytes. rewrite rev_involutive.
  unfold of_le_bytes. rewrite !Z_of_byte_of_Z by apply byte_at_range.
  apply compose32_byte_at, Hx.
Qed.

(** ** Streams and frames *)

Lemma be_bytes_length x : length (be_bytes x) = 4%nat.
Proof. reflexivity. Qed.

Lemma MAX_REASONABLE_SIZE_eq : MAX_REASONABLE_SIZE = 2 ^ 30.
Proof. reflexivity. Qed.

Lemma BUFSIZ_ge_4 : 4 <= BUFSIZ.
Proof. unfold BUFSIZ. lia. Qed.

Lemma o_sync_ok s :
  Z.of_nat (o_pending s) <= o_room s ->
  o_sync s =
    {| o_is_open := o_is_open s; o_written := o_written s; o_pending := 0%nat;
       o_room := o_room s - Z.of_nat (o_pending s);
       o_failbit := o_failbit s; o_badbit := o_badbit s |}.
Proof.
  intros Hr. unfold o_sync.
  destruct (Z.leb_spec (Z.of_nat (o_pending s)) (o_room s)); [reflexivity | lia].
Qed.

(** A write on a good stream whose device has room for the buffer and for
    the bytes: the stream takes the bytes and stays good, whether they
    stay in the buffer or not. *)
Lemma o_write_ok s bs :
  o_fail s = false ->
  Z.of_nat (o_pending s) + Z.of_nat (length bs) <= o_room s ->
  o_fail (o_write s bs) = false /\
  o_is_open (o_write s bs) = o_is_open s /\
  o_written (o_write s bs) = o_written s ++ bs /\
  o_room (o_write s bs) - Z.of_nat (o_pending (o_write s bs))
    = o_room s - Z.of_nat (o_pending s) - Z.of_nat (length bs) /\
  Z.of_nat (o_pending (o_write s bs)) <= o_room (o_write s bs).
Proof.
  intros Hf Hr. unfold o_write. rewrite Hf. cbn [o_pending].
  destruct (Z.of_nat (o_pending s + length bs) <=? BUFSIZ).
  - cbn. repeat split; lia.
  - rewrite o_sync_ok by (cbn; lia). cbn. repeat split; lia.
Qed.

Lemma write_ofstream_ok host ofs data :
  o_fail ofs = false ->
  Z.of_nat (length data) < 2 ^ 32 ->
  Z.of_nat (o_pending ofs) + (4 + Z.of_nat (length data)) <= o_room ofs ->
  exists ofs',
    write_length_prefixed_bytes_to_ofstream host ofs data = (Returned tt, ofs') /\
    o_fail ofs' = false /\
    o_is_open ofs' = o_is_open ofs /\
    o_written ofs' = o_written ofs ++ frame_bytes data /\
    o_room ofs' - Z.of_nat (o_pending ofs')
      = o_room ofs - Z.of_nat (o_pending ofs) - (4 + Z.of_nat (length data)) /\
    Z.of_nat (o_pending ofs') <= o_room ofs'.
Proof.
  intros Hf Hlen Hroom. unfold write_length_prefixed_bytes_to_ofstream.
  set (size := Z.of_nat (length data)) in *.
  assert (Hsz : to_uint32 size = size).
  { unfold to_uint32. apply Z.mod_small. lia. }
  rewrite Hsz, Z.eqb_refl. cbn [negb].
  rewrite store_htonl.
  destruct (o_write_ok ofs (be_bytes size) Hf) as (F1 & O1 & W1 & R1 & P1).
  { rewrite be_bytes_length. lia. }
  rewrite be_bytes_length in R1.
  rewrite F1.
  destruct (Z.eqb_spec size 0) as [E0|NE]; cbn [negb].
  - assert (data = []) as -> by (destruct data; [reflexivity | subst size; simpl in E0; lia]).
    eexists. split; [reflexivity|].
    unfold frame_bytes. cbn [length] in *. rewrite app_nil_r.
    repeat split; try assumption; subst size; cbn in *; lia.
  - rewrite firstn_all2 by (subst size; lia).
    destruct (o_write_ok (o_write ofs (be_bytes size)) data F1) as (F2 & O2 & W2 & R2 & P2).
    { fold size. lia. }
    rewrite F2. eexists. split; [reflexivity|].
    unfold frame_bytes. fold size in R2 |- *.
    rewrite W2, W1, O2, O1, <- app_assoc. repeat split; try assumption. lia.
Qed.

(** [flush] and the destructor on a good stream whose device has room for
    the buffer: all the stream has taken is in the file. *)
Lemma ofstream_close_flushed path ofs w :
  o_is_open ofs = true ->
  o_fail ofs = false ->
  Z.of_nat (o_pending ofs) <= o_room ofs ->
  ofstream_close path (o_flush ofs) w
  = set_files
      (<[path := default [] (w_files w !! path) ++ o_written ofs]> (w_files w))
      (w_free w - Z.of_nat (length (o_written ofs))) w.
Proof.
  intros Ho Hf Hr. unfold o_flush. rewrite Hf, o_sync_ok by assumption.
  unfold ofstream_close. cbn [o_is_open]. rewrite Ho.
  rewrite o_sync_ok by (cbn; lia). reflexivity.
Qed.

Lemma i_read_enough s n :
  i_good s = true ->
  (n <= length (drop (i_pos s) (i_data s)))%nat ->
  i_read s n =
    (take n (drop (i_pos s) (i_data s)),
     {| i_is_open := i_is_open s; i_data := i_data s; i_pos := (i_pos s + n)%nat;
        i_eofbit := false; i_failbit := false; i_badbit := false |}).
Proof.
  intros Hg Hn. unfold i_read. rewrite Hg.
  destruct (Nat.leb_spec n (length (drop (i_pos s) (i_data s)))); [reflexivity | lia].
Qed.

Lemma i_read_short s n :
  i_good s = true ->
  (length (drop (i_pos s) (i_data s)) < n)%nat ->
  i_read s n =
    (drop (i_pos s) (i_data s),
     {| i_is_open := i_is_open s; i_data := i_data s;
        i_pos := (i_pos s + length (drop (i_pos s) (i_data s)))%nat;
        i_eofbit := true; i_failbit := true; i_badbit := false |}).
Proof.
  intros Hg Hn. unfold i_read. rewrite Hg.
  destruct (Nat.leb_spec n (length (drop (i_pos s) (i_data s)))); [lia | reflexivity].
Qed.

Lemma fread_enough f n :
  (n <= length (drop (fi_pos f) (fi_data f)))%nat ->
  fread f n =
    (take n (drop (fi_pos f) (fi_data f)),
     {| fi_data := fi_data f; fi_pos := (fi_pos f + n)%nat; fi_eof := fi_eof f |}).
Proof.
  intros Hn. unfold fread.
  destruct (Nat.leb_spec n (length (drop (fi_pos f) (fi_data f)))); [reflexivity | lia].
Qed.

Lemma fread_short f n :
  (length (drop (fi_pos f) (fi_data f)) < n)%nat ->
  fread f n =
    (drop (fi_pos f) (fi_data f),
     {| fi_data := fi_data f;
        fi_pos := (fi_pos f + length (drop (fi_pos f) (fi_data f)))%nat;
        fi_eof := true |}).
Proof.
  intros Hn. unfold fread.
  destruct (Nat.leb_spec n (length (drop (fi_pos f) (fi_data f)))); [lia | reflexivity].
Qed.

(** A cleared vector resized to the payload length and then filled with the
    payload holds the payload. *)
Lemma v_fill_resize_clear out (b : list byte) :
  v_fill (v_resize (v_clear out) (Z.of_nat (length b))) b =
    {| v_bytes := b; v_resized := v_resized out ++ [Z.of_nat (length b)] |}.
Proof.
  unfold v_fill, v_resize, v_clear. cbn [v_bytes v_resized].
  rewrite Nat2Z.id, take_nil, app_nil_l. cbn [length].
  rewrite Nat.sub_0_r, drop_ge by (rewrite repeat_length; lia).
  rewrite app_nil_r. reflexivity.
Qed.

Lemma be_prefix_decodes host L :
  0 <= L < 2 ^ 32 -> ntohl host (load_uint32 host (be_bytes L)) = L.
Proof.
  intros HL.
  change (be_bytes L) with
    [ byte_of_Z (byte_at 3 L); byte_of_Z (byte_at 2 L);
      byte_of_Z (byte_at 1 L); byte_of_Z (byte_at 0 L) ].
  rewrite load_ntohl. apply (of_be_bytes_be_bytes L HL).
Qed.

Lemma read_ifstream_frame host s out b rest :
  i_good s = true ->
  drop (i_pos s) (i_data s) = frame_bytes b ++ rest ->
  Z.of_nat (length b) <= 2 ^ 30 ->
  read_length_prefixed_bytes_from_ifstream host s out =
    (Returned true,
     {| i_is_open := i_is_open s; i_data := i_data s;
        i_pos := (i_pos s + 4 + length b)%nat;
        i_eofbit := false; i_failbit := false; i_badbit := false |},
     {| v_bytes := b; v_resized := v_resized out ++ [Z.of_nat (length b)] |}).
Proof.
  intros Hg Hd Hb. unfold read_length_prefixed_bytes_from_ifstream.
  rewrite i_read_enough; [|assumption|].
  2:{ rewrite Hd. unfold frame_bytes. rewrite !length_app, be_bytes_length. lia. }
  assert (Ht : take 4 (frame_bytes b ++ rest) = be_bytes (Z.of_nat (length b))).
  { unfold frame_bytes. rewrite <- app_assoc.
    apply (take_app_length' (be_bytes _)). reflexivity. }
  rewrite Hd, Ht. cbn [i_fail i_failbit i_badbit orb].
  rewrite !be_prefix_decodes by lia.
  destruct (Z.gtb_spec (Z.of_nat (length b)) MAX_REASONABLE_SIZE) as [Hgt|_].
  { rewrite MAX_REASONABLE_SIZE_eq in Hgt. lia. }
  destruct (Z.eqb_spec (Z.of_nat (length b)) 0) as [E0|NE]; cbn [negb].
  - destruct b; [|simpl in E0; lia].
    unfold v_resize, v_clear. cbn. rewrite Nat.add_0_r. reflexivity.
  - assert (Hd' : drop (i_pos s + 4) (i_data s) = b ++ rest).
    { rewrite <- drop_drop, Hd. unfold frame_bytes. rewrite <- app_assoc.
      rewrite (drop_app_length' (be_bytes _)) by reflexivity. reflexivity. }
    rewrite i_read_enough; cbn [i_pos i_data i_is_open].
    + rewrite Hd', Nat2Z.id, take_app_length.
      cbn [i_fail i_failbit i_badbit orb].
      rewrite v_fill_resize_clear. reflexivity.
    + reflexivity.
    + rewrite Hd', length_app. lia.
Qed.

Lemma read_ifstream_at_end host s out :
  i_good s = true ->
  drop (i_pos s) (i_data s) = [] ->
  exists s', read_length_prefixed_bytes_from_ifstream host s out
             = (Returned false, s', v_clear out).
Proof.
  intros Hg Hd. unfold read_length_prefixed_bytes_from_ifstream.
  rewrite i_read_short by (rewrite ?Hd; cbn; lia || assumption).
  cbn [i_fail i_eof i_failbit i_badbit i_eofbit orb]. eauto.
Qed.

Lemma fflush_ok f :
  Z.of_nat (fo_pending f) <= fo_room f ->
  fflush f =
    {| fo_written := fo_written f; fo_pending := 0%nat;
       fo_room := fo_room f - Z.of_nat (fo_pending f); fo_error := fo_error f |}.
Proof.
  intros Hr. unfold fflush.
  destruct (Z.leb_spec (Z.of_nat (fo_pending f)) (fo_room f)); [reflexivity | lia].
Qed.

(** A write on a stream whose device has room for the buffer and for the
    bytes: the stream takes the bytes, whether they stay in the buffer or
    not. *)
Lemma fwrite_ok f bs :
  Z.of_nat (fo_pending f) + Z.of_nat (length bs) <= fo_room f ->
  fst (fwrite f bs) = Z.of_nat (length bs) /\
  fo_written (snd (fwrite f bs)) = fo_written f ++ bs /\
  fo_error (snd (fwrite f bs)) = fo_error f /\
  fo_room (snd (fwrite f bs)) - Z.of_nat (fo_pending (snd (fwrite f bs)))
    = fo_room f - Z.of_nat (fo_pending f) - Z.of_nat (length bs) /\
  Z.of_nat (fo_pending (snd (fwrite f bs))) <= fo_room (snd (fwrite f bs)).
Proof.
  intros Hr. unfold fwrite. cbn [fo_pending].
  destruct (Z.of_nat (fo_pending f + length bs) <=? BUFSIZ).
  - cbn. repeat split; lia.
  - destruct (Z.leb_spec (Z.of_nat (fo_pending f + length bs)) (fo_room f)); [|lia].
    rewrite fflush_ok by (cbn; lia). cbn. repeat split; lia.
Qed.

Lemma write_FILE_ok host f data :
  Z.of_nat (length data) < 2 ^ 32 ->
  Z.of_nat (fo_pending f) + (4 + Z.of_nat (length data)) <= fo_room f ->
  exists f',
    write_length_prefixed_bytes_to_FILE host f data = (Returned tt, f') /\
    fo_written f' = fo_written f ++ frame_bytes data /\
    fo_error f' = fo_error f /\
    fo_room f' - Z.of_nat (fo_pending f')
      = fo_room f - Z.of_nat (fo_pending f) - (4 + Z.of_nat (length data)) /\
    Z.of_nat (fo_pending f') <= fo_room f'.
Proof.
  intros Hlen Hroom. unfold write_length_prefixed_bytes_to_FILE, fwrite_item.
  set (size := Z.of_nat (length data)) in *.
  assert (Hsz : to_uint32 size = size).
  { unfold to_uint32. apply Z.mod_small. lia. }
  rewrite Hsz, Z.eqb_refl. cbn [negb].
  rewrite store_htonl.
  destruct (fwrite_ok f (be_bytes size)) as (N1 & W1 & E1 & R1 & P1).
  { rewrite be_bytes_length. lia. }
  rewrite be_bytes_length in N1, R1.
  destruct (fwrite f (be_bytes size)) as [n1 f1]. cbn [fst snd] in *. subst n1.
  rewrite be_bytes_length.
  change (Z.of_nat 4 =? Z.of_nat 4) with true. change (1 =? 1) with true. cbn [negb].
  destruct (Z.eqb_spec size 0) as [E0|NE]; cbn [negb].
  - assert (data = []) as -> by (destruct data; [reflexivity | subst size; simpl in E0; lia]).
    eexists. split; [reflexivity|].
    unfold frame_bytes. cbn [length] in *. rewrite app_nil_r.
    repeat split; try assumption; subst size; cbn in *; lia.
  - rewrite firstn_all2 by (subst size; lia).
    destruct (fwrite_ok f1 data) as (N2 & W2 & E2 & R2 & P2).
    { fold size. lia. }
    destruct (fwrite f1 data) as [n2 f2]. cbn [fst snd] in *. subst n2.
    fold size. rewrite (Z.eqb_refl size). cbn [negb].
    eexists. split; [reflexivity|].
    unfold frame_bytes. fold size in R2 |- *.
    rewrite W2, W1, E2, E1, <- app_assoc. repeat split; try assumption. lia.
Qed.

(** [fclose] on a stream whose device has room for the buffer: all the
    stream has taken is in the file. *)
Lemma fclose_out_ok path f w :
  Z.of_nat (fo_pending f) <= fo_room f ->
  fclose_out path f w
  = set_files
      (<[path := default [] (w_files w !! path) ++ fo_written f]> (w_files w))
      (w_free w - Z.of_nat (length (fo_written f))) w.
Proof.
  intros Hr. unfold fclose_out. rewrite fflush_ok by assumption. reflexivity.
Qed.

Lemma read_FILE_frame host f out b rest :
  drop (fi_pos f) (fi_data f) = frame_bytes b ++ rest ->
  Z.of_nat (length b) <= 2 ^ 30 ->
  read_length_prefixed_bytes_from_FILE host f out =
    (Returned true,
     {| fi_data := fi_data f; fi_pos := (fi_pos f + 4 + length b)%nat;
        fi_eof := fi_eof f |},
     {| v_bytes := b; v_resized := v_resized out ++ [Z.of_nat (length b)] |}).
Proof.
  intros Hd Hb. unfold read_length_prefixed_bytes_from_FILE.
  assert (Ht : take 4 (frame_bytes b ++ rest) = be_bytes (Z.of_nat (length b))).
  { unfold frame_bytes. rewrite <- app_assoc.
    apply (take_app_length' (be_bytes _)). reflexivity. }
  rewrite fread_enough.
  2:{ rewrite Hd. unfold frame_bytes. rewrite !length_app, be_bytes_length. lia. }
  rewrite Hd, Ht, be_bytes_length.
  change (Z.of_nat 4 =? 0) with false. change (Z.of_nat 4 =? 4) with true.
  cbn [negb].
  rewrite !be_prefix_decodes by lia.
  destruct (Z.gtb_spec (Z.of_nat (length b)) MAX_REASONABLE_SIZE) as [Hgt|_].
  { rewrite MAX_REASONABLE_SIZE_eq in Hgt. lia. }
  destruct (Z.eqb_spec (Z.of_nat (length b)) 0) as [E0|NE]; cbn [negb].
  - destruct b; [|simpl in E0; lia].
    unfold v_resize, v_clear. cbn. rewrite Nat.add_0_r. reflexivity.
  - assert (Hd' : drop (fi_pos f + 4) (fi_data f) = b ++ rest).
    { rewrite <- drop_drop, Hd. unfold frame_bytes. rewrite <- app_assoc.
      rewrite (drop_app_length' (be_bytes _)) by reflexivity. reflexivity. }
    rewrite fread_enough; cbn [fi_pos fi_data fi_eof].
    + rewrite Hd', Nat2Z.id, take_app_length, Z.eqb_refl. cbn [negb].
      rewrite v_fill_resize_clear. reflexivity.
    + rewrite Hd', length_app. lia.
Qed.

Lemma read_FILE_at_end host f out :
  drop (fi_pos f) (fi_data f) = [] ->
  exists f', read_length_prefixed_bytes_from_FILE host f out
             = (Returned false, f', v_clear out).
Proof.
  intros Hd. unfold read_length_prefixed_bytes_from_FILE.
  rewrite fread_short by (rewrite Hd; cbn; lia).
  rewrite Hd. cbn. eauto.
Qed.



Lemma read_FILE_short_header host f out :
  (0 < length (drop (fi_pos f) (fi_data f)) < 4)%nat ->
  exists f' out',
    read_length_prefixed_bytes_from_FILE host f out
      = (Threw (runtime_error "corrupted file (incomplete length header)"), f', out').
Proof.
  intros Hl. unfold read_length_prefixed_bytes_from_FILE.
  rewrite fread_short by lia.
  destruct (Z.eqb_spec (Z.of_nat (length (drop (fi_pos f) (fi_data f)))) 0); [lia|].
  destruct (Z.eqb_spec (Z.of_nat (length (drop (fi_pos f) (fi_data f)))) 4); [lia|].
  cbn [negb]. eauto.
Qed.

Lemma read_FILE_short_payload host f out L payload :
  drop (fi_pos f) (fi_data f) = be_bytes L ++ payload ->
  0 <= L < 2 ^ 32 ->
  Z.of_nat (length payload) < L ->
  exists e f' out',
    read_length_prefixed_bytes_from_FILE host f out = (Threw e, f', out')
    /\ CorruptedFrame e = true.
Proof.
  intros Hd HL Hshort. unfold read_length_prefixed_bytes_from_FILE.
  rewrite fread_enough by (rewrite Hd, length_app, be_bytes_length; lia).
  rewrite Hd, (take_app_length' (be_bytes L)), be_bytes_length by reflexivity.
  change (Z.of_nat 4 =? 0) with false. change (Z.of_nat 4 =? 4) with true.
  cbn [negb]. rewrite !be_prefix_decodes by assumption.
  destruct (L >? MAX_REASONABLE_SIZE).
  { do 3 eexists. split; reflexivity. }
  destruct (Z.eqb_spec L 0); [lia|]. cbn [negb].
  assert (Hd' : drop (fi_pos f + 4) (fi_data f) = payload).
  { rewrite <- drop_drop, Hd. apply (drop_app_length' (be_bytes L)). reflexivity. }
  rewrite fread_short by (cbn [fi_pos fi_data]; rewrite Hd'; lia).
  cbn [fi_pos fi_data]. rewrite Hd'.
  destruct (Z.eqb_spec (Z.of_nat (length payload)) L); [lia|]. cbn [negb].
  do 3 eexists. split; reflexivity.
Qed.

Lemma read_ifstream_short_header host s out :
  i_good s = true ->
  (length (drop (i_pos s) (i_data s)) < 4)%nat ->
  exists s', read_length_prefixed_bytes_from_ifstream host s out
             = (Returned false, s', v_clear out).
Proof.
  intros Hg Hl. unfold read_length_prefixed_bytes_from_ifstream.
  rewrite i_read_short by assumption.
  cbn [i_fail i_eof i_failbit i_badbit i_eofbit orb]. eauto.
Qed.

Lemma read_ifstream_short_payload host s out L payload :
  i_good s = true ->
  drop (i_pos s) (i_data s) = be_bytes L ++ payload ->
  0 <= L < 2 ^ 32 ->
  Z.of_nat (length payload) < L ->
  exists e s' out',
    read_length_prefixed_bytes_from_ifstream host s out = (Threw e, s', out')
    /\ CorruptedFrame e = true.
Proof.
  intros Hg Hd HL Hshort. unfold read_length_prefixed_bytes_from_ifstream.
  rewrite i_read_enough by (rewrite ?Hd, ?length_app, ?be_bytes_length; lia || assumption).
  rewrite Hd, (take_app_length' (be_bytes L)) by reflexivity.
  cbn [i_fail i_failbit i_badbit orb]. rewrite !be_prefix_decodes by assumption.
  destruct (L >? MAX_REASONABLE_SIZE).
  { do 3 eexists. split; reflexivity. }
  destruct (Z.eqb_spec L 0); [lia|]. cbn [negb].
  assert (Hd' : drop (i_pos s + 4) (i_data s) = payload).
  { rewrite <- drop_drop, Hd. apply (drop_app_length' (be_bytes L)). reflexivity. }
  rewrite i_read_short; cbn [i_pos i_data].
  - cbn [i_fail i_failbit i_badbit orb]. do 3 eexists. split; reflexivity.
  - reflexivity.
  - rewrite Hd'. lia.
Qed.

(** Every proper non-empty prefix of a frame: the [FILE] reader reports
    corruption at each cut, the [ifstream] reader only at a cut inside the
    payload. *)
Lemma take_frame_bytes (b : list byte) (k : nat) :
  (4 <= k)%nat ->
  take k (frame_bytes b) = be_bytes (Z.of_nat (length b)) ++ take (k - 4) b.
Proof.
  intros Hk. unfold frame_bytes. rewrite take_app, be_bytes_length.
  rewrite take_ge by (rewrite be_bytes_length; lia). reflexivity.
Qed.

Lemma FILE_reader_detects_truncation host (b : list byte) (k : nat) out :
  Z.of_nat (length b) < 2 ^ 32 ->
  (0 < k < 4 + length b)%nat ->
  exists e f' out',
    read_length_prefixed_bytes_from_FILE host (f_open (take k (frame_bytes b))) out
      = (Threw e, f', out')
    /\ CorruptedFrame e = true.
Proof.
  intros Hb Hk. destruct (Nat.lt_ge_cases k 4) as [Hlt|Hge].
  - destruct (read_FILE_short_header host (f_open (take k (frame_bytes b))) out)
      as (f' & out' & E).
    + cbn [f_open fi_pos fi_data]; rewrite drop_0. rewrite length_take.
      unfold frame_bytes. rewrite length_app, be_bytes_length. lia.
    + rewrite E. do 3 eexists. split; reflexivity.
  - apply read_FILE_short_payload with (L := Z.of_nat (length b)) (payload := take (k - 4) b).
    + cbn [f_open fi_pos fi_data]; rewrite drop_0. apply take_frame_bytes, Hge.
    + lia.
    + rewrite length_take. lia.
Qed.

Lemma ifstream_reader_truncation host (b : list byte) (k : nat) out :
  Z.of_nat (length b) < 2 ^ 32 ->
  (0 < k < 4 + length b)%nat ->
  (k < 4)%nat /\
    (exists s' out',
       read_length_prefixed_bytes_from_ifstream host (i_open (take k (frame_bytes b))) out
         = (Returned false, s', out'))
  \/
  (4 <= k)%nat /\
    (exists e s' out',
       read_length_prefixed_bytes_from_ifstream host (i_open (take k (frame_bytes b))) out
         = (Threw e, s', out')
       /\ CorruptedFrame e = true).
Proof.
  intros Hb Hk. destruct (Nat.lt_ge_cases k 4) as [Hlt|Hge]; [left|right]; split; try assumption.
  - destruct (read_ifstream_short_header host (i_open (take k (frame_bytes b))) out)
      as (s' & E).
    + reflexivity.
    + cbn [i_open i_pos i_data]; rewrite drop_0. rewrite length_take. lia.
    + eauto.
  - apply read_ifstream_short_payload with (L := Z.of_nat (length b)) (payload := take (k - 4) b).
    + reflexivity.
    + cbn [i_open i_pos i_data]; rewrite drop_0. apply take_frame_bytes, Hge.
    + lia.
    + rewrite length_take. lia.
Qed.

(** ** Claims about the framer *)

(** C1.  Framing round trip: a payload [b] of at most 2^30 bytes written as
    one frame to an empty sink that takes the bytes (by the [ofstream] writer
    or by the [FILE] writer) leaves [frame_bytes b] in the sink; reading that
    back, by the [ifstream] reader or by the [FILE] reader, returns exactly
    [b], and the next read reports a clean end. *)
Theorem frame_round_trip (host : byte_order) (b : list byte) (room : Z) :
  Z.of_nat (length b) <= 2 ^ 30 ->
  4 + Z.of_nat (length b) <= room ->
  (exists ofs, write_length_prefixed_bytes_to_ofstream host (fresh_ofstream room) b
               = (Returned tt, ofs) /\ o_written ofs = frame_bytes b) /\
  (exists f, write_length_prefixed_bytes_to_FILE host (fresh_FILE_out room) b
             = (Returned tt, f) /\ fo_written f = frame_bytes b) /\
  (forall out, exists ifs1 out1 ifs2 out2,
     read_length_prefixed_bytes_from_ifstream host (i_open (frame_bytes b)) out
       = (Returned true, ifs1, out1) /\ v_bytes out1 = b /\
     read_length_prefixed_bytes_from_ifstream host ifs1 out1
       = (Returned false, ifs2, out2)) /\
  (forall out, exists f1 out1 f2 out2,
     read_length_prefixed_bytes_from_FILE host (f_open (frame_bytes b)) out
       = (Returned true, f1, out1) /\ v_bytes out1 = b /\
     read_length_prefixed_bytes_from_FILE host f1 out1
       = (Returned false, f2, out2)).
Proof.
  intros Hb Hroom. repeat split.
  - destruct (write_ofstream_ok host (fresh_ofstream room) b)
      as (ofs & E & _ & _ & W & _); [reflexivity | lia | cbn; lia |].
    exists ofs. split; [exact E | exact W].
  - destruct (write_FILE_ok host (fresh_FILE_out room) b)
      as (f & E & W & _); [lia | cbn; lia |].
    exists f. split; [exact E | exact W].
  - intros out.
    pose proof (read_ifstream_frame host (i_open (frame_bytes b)) out b []) as H1.
    rewrite app_nil_r in H1. specialize (H1 eq_refl eq_refl Hb).
    edestruct (read_ifstream_at_end host) as [s' H2]; cycle 2.
    + do 4 eexists. split; [exact H1|]. split; [reflexivity|]. exact H2.
    + reflexivity.
    + cbn [i_pos i_data i_open]. apply drop_ge.
      unfold frame_bytes. rewrite length_app, be_bytes_length. lia.
  - intros out.
    pose proof (read_FILE_frame host (f_open (frame_bytes b)) out b []) as H1.
    rewrite app_nil_r in H1. specialize (H1 eq_refl Hb).
    edestruct (read_FILE_at_end host) as [s' H2]; cycle 1.
    + do 4 eexists. split; [exact H1|]. split; [reflexivity|]. exact H2.
    + cbn [fi_pos fi_data f_open]. apply drop_ge.
      unfold frame_bytes. rewrite length_app, be_bytes_length. lia.
Qed.


Lemma frame_round_trip_witness :
  (exists ofs, write_length_prefixed_bytes_to_ofstream LittleEndian (fresh_ofstream 100) [x5a]
               = (Returned tt, ofs) /\ o_written ofs = frame_bytes [x5a]) /\
  (exists f, write_length_prefixed_bytes_to_FILE LittleEndian (fresh_FILE_out 100) [x5a]
             = (Returned tt, f) /\ fo_written f = frame_bytes [x5a]) /\
  (forall out, exists ifs1 out1 ifs2 out2,
     read_length_prefixed_bytes_from_ifstream LittleEndian (i_open (frame_bytes [x5a])) out
       = (Returned true, ifs1, out1) /\ v_bytes out1 = [x5a] /\
     read_length_prefixed_bytes_from_ifstream LittleEndian ifs1 out1
       = (Returned false, ifs2, out2)) /\
  (forall out, exists f1 out1 f2 out2,
     read_length_prefixed_bytes_from_FILE LittleEndian (f_open (frame_bytes [x5a])) out
       = (Returned true, f1, out1) /\ v_bytes out1 = [x5a] /\
     read_length_prefixed_bytes_from_FILE LittleEndian f1 out1
       = (Returned false, f2, out2)).
Proof.
  apply (frame_round_trip LittleEndian [x5a] 100).
  - vm_compute. discriminate.
  - vm_compute. discriminate.
Defined.

(** C2.  Truncated frame detection fails on the [ifstream] path: a source that
    ends after one, two or three bytes of a length prefix makes
    [read_length_prefixed_bytes_from_ifstream] return [false], the clean
    end, where [read_length_prefixed_bytes_from_FILE] throws "corrupted file
    (incomplete length header)" on the same bytes. *)
Theorem truncated_header_reported_as_end (host : byte_order) (out : out_vector) (b0 b1 b2 : byte) :
  (forall bs, bs = [b0] \/ bs = [b0; b1] \/ bs = [b0; b1; b2] ->
     fst (fst (read_length_prefixed_bytes_from_ifstream host (i_open bs) out)) = Returned false) /\
  (forall bs, bs = [b0] \/ bs = [b0; b1] \/ bs = [b0; b1; b2] ->
     fst (fst (read_length_prefixed_bytes_from_FILE host (f_open bs) out))
       = Threw (runtime_error "corrupted file (incomplete length header)")).
Proof.
  split; intros bs [-> | [-> | ->]]; reflexivity.
Qed.


(** C8.  Sanity cap: when the four bytes at the read position decode, most
    significant byte first, to more than 2^30, both readers throw a
    [CorruptedFrame] error, and the output vector is left cleared with no
    [resize] performed: no buffer of the declared length is allocated. *)
Theorem oversized_prefix_rejected (host : byte_order) (b0 b1 b2 b3 : byte) (rest : list byte)
    (s : ifstream) (f : FILE_in) (out : out_vector) :
  i_good s = true ->
  drop (i_pos s) (i_data s) = b0 :: b1 :: b2 :: b3 :: rest ->
  drop (fi_pos f) (fi_data f) = b0 :: b1 :: b2 :: b3 :: rest ->
  of_be_bytes [b0; b1; b2; b3] > 2 ^ 30 ->
  (exists e s',
     read_length_prefixed_bytes_from_ifstream host s out
       = (Threw e, s', {| v_bytes := []; v_resized := v_resized out |})
     /\ CorruptedFrame e = true) /\
  (exists e f',
     read_length_prefixed_bytes_from_FILE host f out
       = (Threw e, f', {| v_bytes := []; v_resized := v_resized out |})
     /\ CorruptedFrame e = true).
Proof.
  intros Hg Hs Hf Hbig. split.
  - unfold read_length_prefixed_bytes_from_ifstream.
    rewrite i_read_enough by (rewrite ?Hs; cbn; lia || assumption).
    rewrite Hs. cbn [take firstn i_fail i_failbit i_badbit orb].
    rewrite !load_ntohl.
    destruct (Z.gtb_spec (of_be_bytes [b0; b1; b2; b3]) MAX_REASONABLE_SIZE) as [_|Hle].
    + do 2 eexists. split. reflexivity. reflexivity.
    + rewrite MAX_REASONABLE_SIZE_eq in Hle. lia.
  - unfold read_length_prefixed_bytes_from_FILE.
    rewrite fread_enough by (rewrite Hf; cbn; lia).
    rewrite Hf. cbn [take firstn length].
    change (Z.of_nat 4 =? 0) with false. change (Z.of_nat 4 =? 4) with true.
    cbn [negb]. rewrite !load_ntohl.
    destruct (Z.gtb_spec (of_be_bytes [b0; b1; b2; b3]) MAX_REASONABLE_SIZE) as [_|Hle].
    + do 2 eexists. split; reflexivity.
    + rewrite MAX_REASONABLE_SIZE_eq in Hle. lia.
Qed.

Lemma oversized_prefix_rejected_witness :
  (exists e s', read_length_prefixed_bytes_from_ifstream LittleEndian
           (i_open [x40; x00; x00; x01; xaa]) empty_vector
         = (Threw e, s', {| v_bytes := []; v_resized := v_resized empty_vector |})
         /\ CorruptedFrame e = true) /\
  (exists e f', read_length_prefixed_bytes_from_FILE LittleEndian
           (f_open [x40; x00; x00; x01; xaa]) empty_vector
         = (Threw e, f', {| v_bytes := []; v_resized := v_resized empty_vector |})
         /\ CorruptedFrame e = true).
Proof.
  apply (oversized_prefix_rejected LittleEndian x40 x00 x00 x01 [xaa]).
  - reflexivity.
  - reflexivity.
  - reflexivity.
  - vm_compute. reflexivity.
Defined.


(** ** Spool readers and writers *)

Lemma get_mutex_for_path_files path w :
  w_files (get_mutex_for_path path w) = w_files w.
Proof. unfold get_mutex_for_path. case_decide; reflexivity. Qed.

(** C3, counterexample: on a machine without the file, the constructor of
    [FileVectorReader] throws. *)
Lemma FileVectorReader_throws_on_missing_file :
  w_files quiet_world !! "missing.bin"%string = None /\
  fst (FileVectorReader_new "missing.bin" quiet_world)
    = Threw (runtime_error "FileVectorReader: cannot open file: missing.bin").
Proof. split; vm_compute; reflexivity. Qed.

(** C3, as amended.  On a path that names no file, the constructor of
    [FileTFHEVectorReader] succeeds, every [next] on the reader returns
    [false] and leaves it as it is, and so does [reset]; the constructor of
    [FileVectorReader] throws "cannot open file" and registers no mutex. *)
Theorem readers_on_missing_file (host : byte_order) (ciphertext params : Type)
    (import_ct : params -> list byte -> ciphertext * list byte)
    (path : string) (p : option params) (w : world) :
  w_files w !! path = None ->
  (exists r,
     FileTFHEVectorReader_new path p w = (Returned r, get_mutex_for_path path w) /\
     (forall out w',
        FileTFHEVectorReader_next host import_ct r out w'
          = (Returned false, r, out)) /\
     FileTFHEVectorReader_reset r = r) /\
  FileVectorReader_new path w
    = (Threw (runtime_error ("FileVectorReader: cannot open file: " +:+ path)), w).
Proof.
  intros Hmiss. split.
  - eexists. split; [reflexivity|].
    unfold FileTFHEVectorReader_next, FileTFHEVectorReader_reset, fopen_rb.
    cbn [ftr_f]. rewrite get_mutex_for_path_files, Hmiss. cbn [fmap option_fmap option_map].
    split; [intros; reflexivity | reflexivity].
  - unfold FileVectorReader_new, ifstream_open. rewrite Hmiss. reflexivity.
Qed.

Lemma readers_on_missing_file_witness :
  (exists r,
     FileTFHEVectorReader_new "missing.bin" (Some tt) quiet_world
       = (Returned r, get_mutex_for_path "missing.bin" quiet_world) /\
     (forall out w',
        FileTFHEVectorReader_next LittleEndian (fun (_ : unit) bs => (tt, bs)) r out w'
          = (Returned false, r, out)) /\
     FileTFHEVectorReader_reset r = r) /\
  FileVectorReader_new "missing.bin" quiet_world
    = (Threw (runtime_error ("FileVectorReader: cannot open file: " +:+ "missing.bin")),
       quiet_world).
Proof.
  apply (readers_on_missing_file LittleEndian unit unit (fun (_ : unit) bs => (tt, bs))
           "missing.bin" (Some tt) quiet_world).
  vm_compute. reflexivity.
Defined.

(** C4, counterexample: a payload of 2^30 + 1 bytes is written by both
    writers. *)
Lemma large_payload_is_written :
  let payload := repeat x00 (Z.to_nat (2 ^ 30 + 1)) in
  Z.of_nat (length payload) > 2 ^ 30 /\
  (exists ofs, write_length_prefixed_bytes_to_ofstream LittleEndian
                 (fresh_ofstream (2 ^ 31)) payload = (Returned tt, ofs)) /\
  (exists f, write_length_prefixed_bytes_to_FILE LittleEndian
               (fresh_FILE_out (2 ^ 31)) payload = (Returned tt, f)).
Proof.
  intros payload.
  assert (Hlen : Z.of_nat (length payload) = 2 ^ 30 + 1).
  { unfold payload. rewrite repeat_length. apply Z2Nat.id. lia. }
  split; [lia|]. split.
  - destruct (write_ofstream_ok LittleEndian (fresh_ofstream (2 ^ 31)) payload)
      as (ofs & E & _); [reflexivity | rewrite Hlen; lia | |].
    + rewrite Hlen. cbn [fresh_ofstream o_room o_pending]. lia.
    + exists ofs. exact E.
  - destruct (write_FILE_ok LittleEndian (fresh_FILE_out (2 ^ 31)) payload)
      as (f & E & _); [rewrite Hlen; lia | |].
    + rewrite Hlen. cbn [fresh_FILE_out fo_room fo_pending]. lia.
    + exists f. exact E.
Qed.

(** C4, as amended.  A payload of more than 2^32 - 1 bytes, the range of the
    length prefix, is refused by both writers before anything is written. *)
Theorem write_rejects_only_beyond_uint32 (host : byte_order) (data : list byte)
    (ofs : ofstream) (f : FILE_out) :
  Z.of_nat (length data) > UINT32_MAX ->
  write_length_prefixed_bytes_to_ofstream host ofs data
    = (Threw (runtime_error "payload too large for uint32_t length prefix"), ofs) /\
  write_length_prefixed_bytes_to_FILE host f data
    = (Threw (runtime_error "payload too large for uint32_t length prefix"), f).
Proof.
  intros Hbig. unfold UINT32_MAX in Hbig.
  assert (Hne : (to_uint32 (Z.of_nat (length data)) =? Z.of_nat (length data)) = false).
  { apply Z.eqb_neq. unfold to_uint32.
    pose proof (Z.mod_pos_bound (Z.of_nat (length data)) (2 ^ 32)). lia. }
  unfold write_length_prefixed_bytes_to_ofstream, write_length_prefixed_bytes_to_FILE.
  rewrite Hne. split; reflexivity.
Qed.

Lemma write_rejects_only_beyond_uint32_witness :
  write_length_prefixed_bytes_to_ofstream LittleEndian (fresh_ofstream (2 ^ 40))
      (repeat x00 (Z.to_nat (2 ^ 32)))
    = (Threw (runtime_error "payload too large for uint32_t length prefix"),
       fresh_ofstream (2 ^ 40)) /\
  write_length_prefixed_bytes_to_FILE LittleEndian (fresh_FILE_out (2 ^ 40))
      (repeat x00 (Z.to_nat (2 ^ 32)))
    = (Threw (runtime_error "payload too large for uint32_t length prefix"),
       fresh_FILE_out (2 ^ 40)).
Proof.
  apply (write_rejects_only_beyond_uint32 LittleEndian (repeat x00 (Z.to_nat (2 ^ 32)))).
  rewrite repeat_length, Z2Nat.id by lia. unfold UINT32_MAX. lia.
Defined.


Lemma prefix_is_take {A} (l1 l2 : list A) :
  l1 `prefix_of` l2 -> l1 = take (length l1) l2.
Proof. intros [k ->]. rewrite take_app_length. reflexivity. Qed.

Lemma o_sync_any s :
  o_is_open (o_sync s) = o_is_open s /\
  o_written (o_sync s) `prefix_of` o_written s.
Proof.
  unfold o_sync. destruct (_ <=? _); cbn [o_is_open o_written];
    (split; [reflexivity|]); [reflexivity | apply prefix_take].
Qed.

Lemma o_write_not_failed s bs :
  o_fail (o_write s bs) = false ->
  o_fail s = false /\ o_written (o_write s bs) = o_written s ++ bs.
Proof.
  unfold o_write. destruct (o_fail s) eqn:Hf.
  - cbn. discriminate.
  - destruct (_ <=? BUFSIZ); [intros _; split; reflexivity|].
    unfold o_sync. destruct (_ <=? _); cbn -[take]; [intros _; split; reflexivity|].
    discriminate.
Qed.

Lemma o_write_any s bs :
  o_is_open (o_write s bs) = o_is_open s /\
  o_written (o_write s bs) `prefix_of` o_written s ++ bs.
Proof.
  unfold o_write. destruct (o_fail s); cbn [o_is_open o_written].
  - split; [reflexivity|]. apply prefix_app_r. reflexivity.
  - destruct (_ <=? BUFSIZ); [split; reflexivity|].
    destruct (o_sync_any
      {| o_is_open := o_is_open s; o_written := o_written s ++ bs;
         o_pending := (o_pending s + length bs)%nat; o_room := o_room s;
         o_failbit := false; o_badbit := false |}) as [Ho Hw].
    split; assumption.
Qed.

(** Whatever the frame writer does, the stream holds a prefix of the
    frame behind what it held; the whole frame when the writer returns. *)
Lemma write_ofstream_any host ofs data :
  let '(r, ofs') := write_length_prefixed_bytes_to_ofstream host ofs data in
  o_is_open ofs' = o_is_open ofs /\
  o_written ofs' `prefix_of` o_written ofs ++ frame_bytes data /\
  (r = Returned tt ->
   o_fail ofs' = false /\ o_written ofs' = o_written ofs ++ frame_bytes data /\
   Z.of_nat (length data) < 2 ^ 32).
Proof.
  unfold write_length_prefixed_bytes_to_ofstream.
  set (size := Z.of_nat (length data)).
  destruct (Z.eqb_spec (to_uint32 size) size) as [Hsz|]; cbn [negb].
  2:{ split; [reflexivity|]. split; [apply prefix_app_r; reflexivity | discriminate]. }
  assert (Hlt : size < 2 ^ 32).
  { rewrite <- Hsz. unfold to_uint32. apply Z.mod_pos_bound. lia. }
  rewrite Hsz, store_htonl.
  destruct (o_write_any ofs (be_bytes size)) as [O1 P1].
  unfold frame_bytes. fold size.
  destruct (o_fail (o_write ofs (be_bytes size))) eqn:F1.
  { split; [exact O1|]. split; [|discriminate].
    rewrite app_assoc. apply prefix_app_r. exact P1. }
  apply o_write_not_failed in F1 as F1'. destruct F1' as [_ W1].
  destruct (Z.eqb_spec size 0) as [E0|NE]; cbn [negb].
  - assert (data = []) as -> by (destruct data; [reflexivity | subst size; simpl in E0; lia]).
    rewrite app_nil_r. split; [exact O1|]. split; [exact P1|]. intros _. repeat split; assumption.
  - rewrite firstn_all2 by (subst size; lia).
    destruct (o_write_any (o_write ofs (be_bytes size)) data) as [O2 P2].
    rewrite W1, <- app_assoc in P2.
    destruct (o_fail (o_write (o_write ofs (be_bytes size)) data)) eqn:F2.
    + split; [congruence|]. split; [exact P2 | discriminate].
    + apply o_write_not_failed in F2 as F2'. destruct F2' as [_ W2].
      split; [congruence|]. split; [exact P2|]. intros _.
      rewrite W2, W1, <- app_assoc. repeat split; assumption.
Qed.

(** What the block that writes one frame leaves in the file: a prefix of
    the frame behind what the file held. *)
Lemma ofstream_session_any host path data w r ofs' :
  path ∉ w_unwritable w ->
  write_length_prefixed_bytes_to_ofstream host (fst (ofstream_open_app path w)) data
    = (r, ofs') ->
  exists k,
    w_files
      (ofstream_close path
         (match r with Returned _ => o_flush ofs' | Threw _ => ofs' end)
         (snd (ofstream_open_app path w))) !! path
    = Some (default [] (w_files w !! path) ++ take k (frame_bytes data)).
Proof.
  intros Hw E. pose proof (write_ofstream_any host (fst (ofstream_open_app path w)) data) as H.
  rewrite E in H. destruct H as (Ho & Hp & _).
  unfold ofstream_open_app in *. case_decide; [contradiction|].
  cbn [fst snd o_is_open o_written app] in *.
  set (ofs2 := match r with Returned _ => o_flush ofs' | Threw _ => ofs' end).
  assert (H2 : o_is_open ofs2 = true /\ o_written ofs2 `prefix_of` frame_bytes data).
  { unfold ofs2. destruct r; [|split; assumption].
    unfold o_flush. destruct (o_fail ofs'); [split; assumption|].
    destruct (o_sync_any ofs') as [Ho' Hp']. split; [congruence|].
    etransitivity; eassumption. }
  destruct H2 as [Ho2 Hp2].
  unfold ofstream_close. rewrite Ho2.
  destruct (o_sync_any ofs2) as [_ Hp3].
  exists (length (o_written (o_sync ofs2))).
  cbn [set_files w_files]. rewrite !lookup_insert_eq. cbn [default id].
  do 2 f_equal. apply prefix_is_take. etransitivity; eassumption.
Qed.

Lemma snoc_ne {A} (l : list A) (x : A) : l ++ [x] <> l.
Proof.
  intros H. apply (f_equal length) in H. rewrite length_app in H. cbn in H. lia.
Qed.


(** ** Pull receiver *)


Lemma frames_size_nonneg frames : 0 <= frames_size frames.
Proof. induction frames; cbn [frames_size]; lia. Qed.

Lemma persisted_length_le incoming :
  (length (persisted incoming) <= length (delivered incoming))%nat.
Proof.
  induction incoming as [|[msg|] incoming IH]; simpl; [lia | | exact IH].
  destruct (leading_byte_is xfe msg); simpl; lia.
Qed.

Section Loop.

Variable host : byte_order.
Variable path : string.
Variable max_messages : Z.
Variable expect_eof_frame : bool.

Lemma receive_loop_skip_sof rest incoming received w :
  receive_loop host path max_messages expect_eof_frame
    (Some (xfe :: rest) :: incoming) received w
  = receive_loop host path max_messages expect_eof_frame incoming received w.
Proof.
  cbn [receive_loop leading_byte_is Byte.eqb].
  destruct ((max_messages =? 0) || (received <? max_messages)) eqn:G; [reflexivity|].
  destruct incoming; cbn [receive_loop]; rewrite G; reflexivity.
Qed.

Lemma receive_loop_app_congr pre a b :
  (forall received w,
     receive_loop host path max_messages expect_eof_frame a received w
     = receive_loop host path max_messages expect_eof_frame b received w) ->
  forall received w,
    receive_loop host path max_messages expect_eof_frame (pre ++ a) received w
    = receive_loop host path max_messages expect_eof_frame (pre ++ b) received w.
Proof.
  intros Hab. induction pre as [|[msg|] pre IH]; intros received w.
  - apply Hab.
  - cbn [app receive_loop].
    destruct ((max_messages =? 0) || (received <? max_messages)); [|reflexivity].
    destruct (leading_byte_is xfe msg); [apply IH|].
    destruct (expect_eof_frame && leading_byte_is xff msg); [reflexivity|].
    destruct (store_message host path msg w) as [[[]|e] w']; [apply IH | reflexivity].
  - cbn [app receive_loop].
    destruct ((max_messages =? 0) || (received <? max_messages)); [apply IH | reflexivity].
Qed.

End Loop.

Lemma receive_loop_eof_leading host path max_messages rest incoming received w :
  receive_loop host path max_messages true (Some (xff :: rest) :: incoming) received w
  = (RecvReturned received, w).
Proof.
  cbn [receive_loop leading_byte_is Byte.eqb andb].
  destruct ((max_messages =? 0) || (received <? max_messages)); reflexivity.
Qed.

(** ** Claims about the receiver *)

(** C7.  SOF transparency: a session with a SOF frame at any position ends
    as the session without it does: same result and count, same spool and
    world.  The SOF frame is neither persisted nor counted, and reception
    goes on after it. *)
Theorem sof_frames_are_transparent (host : byte_order) (path zmq_endpoint : string)
    (max_messages : Z) (expect_eof_frame : bool)
    (pre post : list (option (list byte))) (w : world) :
  zmq_receive_and_store host path zmq_endpoint max_messages expect_eof_frame
    (pre ++ Some [xfe] :: post) w
  = zmq_receive_and_store host path zmq_endpoint max_messages expect_eof_frame
      (pre ++ post) w.
Proof.
  unfold zmq_receive_and_store. apply receive_loop_app_congr.
  intros. apply receive_loop_skip_sof.
Qed.

(** C10.  A message is classified by its first byte alone.  A message that
    starts with 0xFE, whatever follows, is dropped like a SOF frame; with
    [expect_eof_frame] set, a message that starts with 0xFF, whatever
    follows, ends the session like the EOF frame: the call returns the count
    reached so far and nothing that comes later is looked at. *)
Theorem classification_by_first_byte (host : byte_order) (path zmq_endpoint : string)
    (max_messages : Z) (rest : list byte)
    (pre post : list (option (list byte))) (w : world) :
  (forall expect_eof_frame,
     zmq_receive_and_store host path zmq_endpoint max_messages expect_eof_frame
       (pre ++ Some (xfe :: rest) :: post) w
     = zmq_receive_and_store host path zmq_endpoint max_messages expect_eof_frame
         (pre ++ post) w) /\
  zmq_receive_and_store host path zmq_endpoint max_messages true
    (pre ++ Some (xff :: rest) :: post) w
  = zmq_receive_and_store host path zmq_endpoint max_messages true
      (pre ++ [Some [xff]]) w /\
  (forall received w',
     receive_loop host path max_messages true (Some (xff :: rest) :: post) received w'
     = (RecvReturned received, w')).
Proof.
  split; [|split].
  - intros. unfold zmq_receive_and_store. apply receive_loop_app_congr.
    intros. apply receive_loop_skip_sof.
  - unfold zmq_receive_and_store. apply receive_loop_app_congr.
    intros. rewrite !receive_loop_eof_leading. reflexivity.
  - intros. apply receive_loop_eof_leading.
Qed.

(** The block that writes one frame, on a path that can be opened and a
    device that has room: the file gains the frame. *)
Lemma ofstream_session_ok host path v w :
  path ∉ w_unwritable w ->
  Z.of_nat (length v) < 2 ^ 32 ->
  4 + Z.of_nat (length v) <= w_free w ->
  exists ofs',
    write_length_prefixed_bytes_to_ofstream host (fst (ofstream_open_app path w)) v
      = (Returned tt, ofs') /\
    ofstream_close path (o_flush ofs') (snd (ofstream_open_app path w))
    = spool_gains path (frame_bytes v) w.
Proof.
  intros Hw Hlen Hroom. unfold ofstream_open_app. case_decide; [contradiction|].
  cbn [fst snd].
  destruct (write_ofstream_ok host
              {| o_is_open := true; o_written := []; o_pending := 0%nat;
                 o_room := w_free w; o_failbit := false; o_badbit := false |} v)
    as (ofs' & E & F & O & W & R & P); [reflexivity | exact Hlen | cbn; lia |].
  exists ofs'. split; [exact E|].
  rewrite ofstream_close_flushed by assumption.
  rewrite W. unfold spool_gains. cbn [o_written app set_files w_files w_free].
  rewrite lookup_insert_eq, insert_insert_eq. cbn [default id]. reflexivity.
Qed.

Lemma store_message_ok host path v w :
  path ∉ w_unwritable w ->
  Z.of_nat (length v) < 2 ^ 32 ->
  4 + Z.of_nat (length v) <= w_free w ->
  exists w',
    store_message host path v w = (Returned tt, w') /\
    default [] (w_files w' !! path) = default [] (w_files w !! path) ++ frame_bytes v /\
    w_unwritable w' = w_unwritable w /\
    w_free w' = w_free w - (4 + Z.of_nat (length v)).
Proof.
  intros Hw Hlen Hroom.
  destruct (ofstream_session_ok host path v w Hw Hlen Hroom) as (ofs' & E & Hc).
  unfold store_message.
  assert (Ho : o_is_open (fst (ofstream_open_app path w)) = true)
    by (unfold ofstream_open_app; case_decide; [contradiction | reflexivity]).
  destruct (ofstream_open_app path w) as [ofs w2]. cbn [fst snd] in *.
  rewrite Ho, E. cbn [negb]. rewrite Hc.
  eexists. split; [reflexivity|].
  unfold spool_gains. cbn [set_files w_files w_unwritable w_free].
  rewrite lookup_insert_eq. cbn [default id].
  unfold frame_bytes at 3. rewrite length_app, be_bytes_length.
  repeat split. lia.
Qed.

Section Prefix.

Variable host : byte_order.
Variable path : string.
Variable max_messages : Z.
Variable expect_eof_frame : bool.

Lemma receive_loop_prefix pre : forall rest received w,
  0 <= received ->
  max_messages = 0 \/ received + Z.of_nat (length (persisted pre)) < max_messages ->
  received + Z.of_nat (length (persisted pre)) <= SIZE_MAX ->
  (forall msg, Some msg ∈ pre -> expect_eof_frame && leading_byte_is xff msg = false) ->
  path ∉ w_unwritable w ->
  (forall msg, msg ∈ persisted pre -> Z.of_nat (length msg) < 2 ^ 32) ->
  frames_size (persisted pre) <= w_free w ->
  exists w',
    receive_loop host path max_messages expect_eof_frame (pre ++ rest) received w
    = receive_loop host path max_messages expect_eof_frame rest
        (received + Z.of_nat (length (persisted pre))) w' /\
    default [] (w_files w' !! path)
      = default [] (w_files w !! path) ++ concat (map frame_bytes (persisted pre)) /\
    w_unwritable w' = w_unwritable w /\
    w_free w' = w_free w - frames_size (persisted pre).
Proof.
  induction pre as [|[msg|] pre IH]; intros rest received w H0 Hmax Hsz Heof Hw Hlen Hroom.
  - exists w. cbn [persisted length app map concat frames_size].
    rewrite Z.add_0_r, app_nil_r, Z.sub_0_r. repeat split.
  - assert (G : (max_messages =? 0) || (received <? max_messages) = true).
    { apply orb_true_iff. destruct Hmax as [->|Hmax]; [left; reflexivity|right].
      apply Z.ltb_lt. lia. }
    cbn [app receive_loop]. rewrite G.
    cbn [persisted] in *.
    destruct (leading_byte_is xfe msg) eqn:Hsof.
    + apply IH; try assumption.
      intros m Hm. apply Heof. right. exact Hm.
    + rewrite (Heof msg) by (left).
      destruct (store_message_ok host path msg w) as (w1 & E & Hf1 & Hu1 & Hr1).
      * assumption.
      * apply Hlen. left.
      * cbn [frames_size] in Hroom. pose proof (frames_size_nonneg (persisted pre)). lia.
      * rewrite E. cbn [length] in Hmax, Hsz.
        assert (Hr : to_size_t (received + 1) = received + 1).
        { unfold to_size_t. apply Z.mod_small. unfold SIZE_MAX in Hsz. lia. }
        rewrite Hr.
        destruct (IH rest (received + 1) w1) as (w' & E' & Hf' & Hu' & Hr').
        -- lia.
        -- destruct Hmax as [?|?]; [left; assumption | right; lia].
        -- lia.
        -- intros m Hm. apply Heof. right. exact Hm.
        -- rewrite Hu1. assumption.
        -- intros m Hm. apply Hlen. right. exact Hm.
        -- rewrite Hr1. cbn [frames_size] in Hroom. lia.
        -- exists w'. rewrite E'. cbn [length map concat frames_size].
           rewrite Hf', Hf1, Hu', Hu1, Hr', Hr1, <- app_assoc.
           replace (received + Z.of_nat (S (length (persisted pre))))
             with (received + 1 + Z.of_nat (length (persisted pre))) by lia.
           repeat split; lia.
  - assert (G : (max_messages =? 0) || (received <? max_messages) = true).
    { apply orb_true_iff. destruct Hmax as [->|Hmax]; [left; reflexivity|right].
      apply Z.ltb_lt. lia. }
    cbn [app receive_loop]. rewrite G. cbn [persisted] in *.
    apply IH; try assumption.
    intros m Hm. apply Heof. right. exact Hm.
Qed.

End Prefix.

(** The EOF frame behind any messages that are not EOF frames, control
    frames included: the call returns the number of the stored ones. *)
Lemma eof_frame_stops_reception (host : byte_order) (path zmq_endpoint : string)
    (n : Z) (pre post : list (option (list byte))) (w : world) :
  Z.of_nat (length (delivered pre)) + 1 <= n ->
  n <= SIZE_MAX ->
  (forall msg, Some msg ∈ pre -> leading_byte_is xff msg = false) ->
  path ∉ w_unwritable w ->
  (forall msg, msg ∈ persisted pre -> Z.of_nat (length msg) < 2 ^ 32) ->
  frames_size (persisted pre) <= w_free w ->
  exists w',
    zmq_receive_and_store host path zmq_endpoint n true (pre ++ Some [xff] :: post) w
      = (RecvReturned (Z.of_nat (length (persisted pre))), w') /\
    default [] (w_files w' !! path)
      = default [] (w_files w !! path) ++ concat (map frame_bytes (persisted pre)).
Proof.
  intros Hk Hn Heof Hw Hlen Hroom. unfold zmq_receive_and_store.
  pose proof (persisted_length_le pre) as Hle.
  destruct (receive_loop_prefix host path n true pre (Some [xff] :: post) 0
              (get_mutex_for_path path w)) as (w' & E & Hf & _ & _).
  - lia.
  - right. lia.
  - lia.
  - intros msg Hm. rewrite (Heof msg Hm). reflexivity.
  - unfold get_mutex_for_path. case_decide; assumption.
  - assumption.
  - unfold get_mutex_for_path. case_decide; assumption.
  - exists w'. rewrite E, receive_loop_eof_leading, Z.add_0_l.
    split; [reflexivity|]. rewrite Hf, get_mutex_for_path_files. reflexivity.
Qed.

Lemma persisted_delivered pre :
  (forall msg, Some msg ∈ pre -> leading_byte_is xfe msg = false) ->
  persisted pre = delivered pre.
Proof.
  induction pre as [|[msg|] pre IH]; intros H; cbn [persisted delivered].
  - reflexivity.
  - rewrite (H msg) by left. f_equal. apply IH. intros m Hm. apply H. right. exact Hm.
  - apply IH. intros m Hm. apply H. right. exact Hm.
Qed.

(** C6.  With [expect_eof_frame] set, let the EOF frame arrive as the k-th
    message of a session, k <= n, behind k - 1 data payloads (messages that
    start with neither 0xFE nor 0xFF), and let every append succeed.  Then
    [zmq_receive_and_store] stops receiving and returns k - 1; the spool has
    gained the k - 1 payloads as frames, in order, and nothing else: the
    EOF frame is not persisted, and what would arrive after it is not
    received. *)
Theorem eof_frame_at_position_k (host : byte_order) (path zmq_endpoint : string)
    (n k : Z) (pre post : list (option (list byte))) (w : world) :
  Z.of_nat (length (delivered pre)) = k - 1 ->
  k <= n ->
  n <= SIZE_MAX ->
  (forall msg, Some msg ∈ pre -> data_message true msg = true) ->
  path ∉ w_unwritable w ->
  (forall msg, msg ∈ delivered pre -> Z.of_nat (length msg) < 2 ^ 32) ->
  frames_size (delivered pre) <= w_free w ->
  exists w',
    zmq_receive_and_store host path zmq_endpoint n true (pre ++ Some [xff] :: post) w
      = (RecvReturned (k - 1), w') /\
    default [] (w_files w' !! path)
      = default [] (w_files w !! path) ++ spool_bytes (delivered pre).
Proof.
  intros Hk Hkn Hn Hdata Hw Hlen Hroom.
  assert (Hsof : forall msg, Some msg ∈ pre -> leading_byte_is xfe msg = false).
  { intros msg Hm. specialize (Hdata msg Hm). unfold data_message in Hdata.
    apply andb_true_iff in Hdata as [H _]. apply negb_true_iff in H. exact H. }
  assert (Heof : forall msg, Some msg ∈ pre -> leading_byte_is xff msg = false).
  { intros msg Hm. specialize (Hdata msg Hm). unfold data_message in Hdata.
    apply andb_true_iff in Hdata as [_ H]. apply negb_true_iff in H. exact H. }
  pose proof (persisted_delivered pre Hsof) as Hp.
  destruct (eof_frame_stops_reception host path zmq_endpoint n pre post w)
    as (w' & E & Hf); rewrite ?Hp; try assumption; try lia.
  exists w'. rewrite E, Hf, Hp, Hk. split; reflexivity.
Qed.

Lemma eof_frame_at_position_k_witness :
  exists w',
    zmq_receive_and_store LittleEndian "../data_kreyvium/spool.bin" "tcp://localhost:5556"
      10 true ([Some [x01; x02]; None; Some [x03]] ++ Some [xff] :: [Some [x04]])
      quiet_world
      = (RecvReturned (3 - 1), w') /\
    default [] (w_files w' !! "../data_kreyvium/spool.bin"%string)
      = default [] (w_files quiet_world !! "../data_kreyvium/spool.bin"%string)
        ++ spool_bytes (delivered [Some [x01; x02]; None; Some [x03]]).
Proof.
  apply (eof_frame_at_position_k LittleEndian "../data_kreyvium/spool.bin"
           "tcp://localhost:5556" 10 3 [Some [x01; x02]; None; Some [x03]] [Some [x04]]
           quiet_world).
  - reflexivity.
  - lia.
  - vm_compute. discriminate.
  - intros msg Hm.
    repeat (apply elem_of_cons in Hm as [Hm|Hm];
            [try discriminate; injection Hm as ->; reflexivity|]).
    apply elem_of_nil in Hm. contradiction.
  - vm_compute. set_solver.
  - intros msg Hm. cbn in Hm.
    repeat (apply elem_of_cons in Hm as [->|Hm]; [cbn; lia|]).
    apply elem_of_nil in Hm. contradiction.
  - vm_compute. discriminate.
Defined.

(** ** Latest file *)


Lemma ascii_compare_lt_trans a b c :
  Ascii.compare a b = Lt -> Ascii.compare b c = Lt -> Ascii.compare a c = Lt.
Proof.
  unfold Ascii.compare. rewrite !N.compare_lt_iff. apply N.lt_trans.
Qed.

Lemma string_compare_lt_trans a : forall b c,
  String.compare a b = Lt -> String.compare b c = Lt -> String.compare a c = Lt.
Proof.
  induction a as [|x a IH]; intros [|y b] [|z c]; cbn [String.compare];
    try discriminate; try reflexivity.
  destruct (Ascii.compare x y) eqn:Exy; try discriminate;
  destruct (Ascii.compare y z) eqn:Eyz; try discriminate; intros H1 H2.
  - apply Ascii.compare_eq_iff in Exy, Eyz. subst.
    assert (Ascii.compare z z = Eq) as ->
      by (unfold Ascii.compare; apply N.compare_refl).
    eapply IH; eassumption.
  - apply Ascii.compare_eq_iff in Exy. subst. rewrite Eyz. reflexivity.
  - apply Ascii.compare_eq_iff in Eyz. subst. rewrite Exy. reflexivity.
  - rewrite (ascii_compare_lt_trans x y z Exy Eyz). reflexivity.
Qed.

Lemma ltb_trans a b c :
  String.ltb a b = true -> String.ltb b c = true -> String.ltb a c = true.
Proof.
  unfold String.ltb.
  destruct (String.compare a b) eqn:E1; try discriminate.
  destruct (String.compare b c) eqn:E2; try discriminate.
  rewrite (string_compare_lt_trans a b c E1 E2). reflexivity.
Qed.

Lemma ltb_irrefl a : String.ltb a a = false.
Proof.
  unfold String.ltb. pose proof (String.compare_antisym a a) as H.
  destruct (String.compare a a); try reflexivity. discriminate.
Qed.

(** [a <= b] and [b < c] give [a < c]; [a <= b] is "not [b < a]". *)
Lemma le_ltb_trans a b c :
  String.ltb b a = false -> String.ltb b c = true -> String.ltb a c = true.
Proof.
  intros Hab Hbc. unfold String.ltb in Hab.
  rewrite String.compare_antisym in Hab.
  destruct (String.compare a b) eqn:E; cbn in Hab; try discriminate.
  - apply String.compare_eq_iff in E. subst. exact Hbc.
  - apply ltb_trans with b; [|exact Hbc]. unfold String.ltb. rewrite E. reflexivity.
Qed.

Lemma timestamp_regex_nonempty filename t :
  timestamp_regex filename = Some t -> String.ltb "" t = true.
Proof.
  unfold timestamp_regex.
  destruct (String.substring 0 15 filename) as [|c s] eqn:E.
  - cbn. discriminate.
  - destruct (_ && _); [|discriminate]. intros [= <-]. reflexivity.
Qed.

Lemma latest_loop_inv directory_path entries : forall latest_file latest_timestamp,
  exists t,
    String.ltb t latest_timestamp = false /\
    (forall e t', e ∈ entries -> stamped e t' -> String.ltb t t' = false) /\
    ((latest_loop directory_path entries latest_file latest_timestamp = latest_file
      /\ t = latest_timestamp)
     \/ exists e, e ∈ entries /\ stamped e t /\
          latest_loop directory_path entries latest_file latest_timestamp
            = entry_path directory_path (de_filename e)).
Proof.
  induction entries as [|entry entries IH]; intros lf lt.
  - exists lt. split; [apply ltb_irrefl|]. split.
    + intros e t' He. apply elem_of_nil in He. contradiction.
    + left. split; reflexivity.
  - cbn [latest_loop].
    destruct (de_is_regular_file entry) eqn:Hreg.
    2:{ destruct (IH lf lt) as (t & H1 & H2 & H3). exists t. split; [exact H1|]. split.
        - intros e t' He [Hr Hs]. apply elem_of_cons in He as [->|He].
          + congruence.
          + apply (H2 e t' He). split; assumption.
        - destruct H3 as [H3|(e & He & Hs & H3)]; [left; exact H3|right].
          exists e. split; [right; exact He|]. split; assumption. }
    destruct (timestamp_regex (de_filename entry)) as [stamp|] eqn:Hstamp.
    2:{ destruct (IH lf lt) as (t & H1 & H2 & H3). exists t. split; [exact H1|]. split.
        - intros e t' He [Hr Hs]. apply elem_of_cons in He as [->|He].
          + congruence.
          + apply (H2 e t' He). split; assumption.
        - destruct H3 as [H3|(e & He & Hs & H3)]; [left; exact H3|right].
          exists e. split; [right; exact He|]. split; assumption. }
    destruct (String.ltb lt stamp) eqn:Hlt.
    + destruct (IH (entry_path directory_path (de_filename entry)) stamp)
        as (t & H1 & H2 & H3).
      exists t. split; [|split].
      * destruct (String.ltb t lt) eqn:E; [|reflexivity].
        rewrite (ltb_trans t lt stamp E Hlt) in H1. discriminate.
      * intros e t' He [Hr Hs]. apply elem_of_cons in He as [->|He].
        -- rewrite Hstamp in Hs. injection Hs as <-. exact H1.
        -- apply (H2 e t' He). split; assumption.
      * right. destruct H3 as [[H3 ->]|(e & He & Hs & H3)].
        -- exists entry. split; [left|]. split; [split; assumption | exact H3].
        -- exists e. split; [right; exact He|]. split; assumption.
    + destruct (IH lf lt) as (t & H1 & H2 & H3).
      exists t. split; [exact H1|]. split.
      * intros e t' He [Hr Hs]. apply elem_of_cons in He as [->|He].
        -- rewrite Hstamp in Hs. injection Hs as <-.
           destruct (String.ltb t stamp) eqn:E; [|reflexivity].
           rewrite (le_ltb_trans lt t stamp H1 E) in Hlt. discriminate.
        -- apply (H2 e t' He). split; assumption.
      * destruct H3 as [H3|(e & He & Hs & H3)]; [left; exact H3|right].
        exists e. split; [right; exact He|]. split; assumption.
Qed.

(** C9.  When some regular file of the directory has a name that starts with
    a stamp (eight digits, an underscore, six digits),
    [get_latest_file_in_directory] returns the path of such a file, and no
    regular file of the directory carries a stamp that is lexicographically
    greater than its stamp.  In every case the result is the empty string or
    the path of a stamped regular file: a file without a stamp is never
    selected. *)
Theorem latest_file_has_greatest_stamp (directory_path : string)
    (entries : list directory_entry) :
  let latest := get_latest_file_in_directory directory_path (Some entries) in
  ((exists e t, e ∈ entries /\ stamped e t) ->
     exists e t, e ∈ entries /\ stamped e t /\
       latest = entry_path directory_path (de_filename e) /\
       forall e' t', e' ∈ entries -> stamped e' t' -> String.ltb t t' = false) /\
  (latest = ""%string \/
   exists e t, e ∈ entries /\ stamped e t /\
     latest = entry_path directory_path (de_filename e)).
Proof.
  cbn [get_latest_file_in_directory].
  destruct (latest_loop_inv directory_path entries "" "") as (t & _ & Hmax & Hsel).
  split.
  - intros (e0 & t0 & He0 & Hs0).
    destruct Hsel as [[_ ->]|(e & He & Hs & Hsel)].
    + pose proof (Hmax e0 t0 He0 Hs0) as Hc.
      rewrite (timestamp_regex_nonempty _ _ (proj2 Hs0)) in Hc. discriminate.
    + exists e, t. repeat split; try assumption; apply Hs.
  - destruct Hsel as [[-> _]|(e & He & Hs & Hsel)]; [left; reflexivity|right].
    exists e, t. repeat split; try assumption; apply Hs.
Qed.

(** * The rest of the data manager and its callers *)

(** * Further properties

    ** Worlds *)

Lemma world_eq (a b : world) :
  w_files a = w_files b -> w_unwritable a = w_unwritable b -> w_free a = w_free b ->
  w_mkdir_denied a = w_mkdir_denied b -> w_tmpfile_ok a = w_tmpfile_ok b ->
  g_path_mutexes a = g_path_mutexes b -> w_sockets a = w_sockets b ->
  w_unbindable a = w_unbindable b -> w_send_fault a = w_send_fault b ->
  w_stderr a = w_stderr b -> a = b.
Proof. destruct a, b; cbn; intros; subst; reflexivity. Qed.

Lemma spool_gains_twice path b1 b2 w :
  spool_gains path b2 (spool_gains path b1 w) = spool_gains path (b1 ++ b2) w.
Proof.
  unfold spool_gains, set_files. cbn.
  rewrite lookup_insert_eq, insert_insert_eq. cbn.
  rewrite length_app, <- app_assoc. f_equal. lia.
Qed.

Lemma get_mutex_for_path_twice path w :
  get_mutex_for_path path (get_mutex_for_path path w) = get_mutex_for_path path w.
Proof.
  unfold get_mutex_for_path at 1. case_decide as H; [reflexivity|].
  exfalso. apply H. unfold get_mutex_for_path. case_decide; [assumption|].
  cbn. set_solver.
Qed.

Lemma get_mutex_for_path_spool_gains path bytes w :
  get_mutex_for_path path (spool_gains path bytes w)
  = spool_gains path bytes (get_mutex_for_path path w).
Proof.
  unfold get_mutex_for_path, spool_gains. cbn. case_decide; reflexivity.
Qed.

Lemma create_parent_directories_ok path w :
  parent_path path <> ""%string ->
  parent_path path ∉ w_mkdir_denied w ->
  create_parent_directories path w = Returned tt.
Proof.
  intros Hp Hm. unfold create_parent_directories, create_directories.
  case_decide; [contradiction|]. case_decide; [contradiction|]. reflexivity.
Qed.

Lemma append_vector_to_file_ok host path v w :
  parent_path path <> ""%string ->
  parent_path path ∉ w_mkdir_denied w ->
  path ∉ w_unwritable w ->
  Z.of_nat (length v) < 2 ^ 32 ->
  4 + Z.of_nat (length v) <= w_free w ->
  append_vector_to_file host path v w
  = (Returned tt, spool_gains path (frame_bytes v) (get_mutex_for_path path w)).
Proof.
  intros Hp Hm Hw Hlen Hroom. unfold append_vector_to_file.
  assert (Hm1 : parent_path path ∉ w_mkdir_denied (get_mutex_for_path path w))
    by (unfold get_mutex_for_path; case_decide; assumption).
  assert (Hw1 : path ∉ w_unwritable (get_mutex_for_path path w))
    by (unfold get_mutex_for_path; case_decide; assumption).
  assert (Hr1 : 4 + Z.of_nat (length v) <= w_free (get_mutex_for_path path w))
    by (unfold get_mutex_for_path; case_decide; assumption).
  revert Hm1 Hw1 Hr1. generalize (get_mutex_for_path path w). intros w1 Hm1 Hw1 Hr1.
  rewrite create_parent_directories_ok by assumption.
  destruct (ofstream_session_ok host path v w1 Hw1 Hlen Hr1) as (ofs' & E & Hc).
  assert (Ho : o_is_open (fst (ofstream_open_app path w1)) = true)
    by (unfold ofstream_open_app; case_decide; [contradiction | reflexivity]).
  destruct (ofstream_open_app path w1) as [ofs w2]. cbn [fst snd] in *.
  rewrite Ho, E. cbn [negb]. rewrite Hc. reflexivity.
Qed.

Lemma frame_bytes_length (v : list byte) :
  Z.of_nat (length (frame_bytes v)) = 4 + Z.of_nat (length v).
Proof. unfold frame_bytes. rewrite length_app, be_bytes_length. lia. Qed.

Lemma spool_bytes_length frames :
  Z.of_nat (length (spool_bytes frames)) = frames_size frames.
Proof.
  unfold spool_bytes. induction frames as [|v frames IH]; [reflexivity|].
  cbn [map concat frames_size]. rewrite length_app, Nat2Z.inj_add, frame_bytes_length, IH.
  reflexivity.
Qed.

Lemma spool_bytes_app a b : spool_bytes (a ++ b) = spool_bytes a ++ spool_bytes b.
Proof. unfold spool_bytes. rewrite map_app, concat_app. reflexivity. Qed.

(** What a run of appends leaves behind. *)
Lemma append_each_ok host path frames : forall w,
  frames <> [] ->
  parent_path path <> ""%string ->
  parent_path path ∉ w_mkdir_denied w ->
  path ∉ w_unwritable w ->
  (forall v, v ∈ frames -> Z.of_nat (length v) < 2 ^ 32) ->
  frames_size frames <= w_free w ->
  append_each host path frames w
  = spool_gains path (spool_bytes frames) (get_mutex_for_path path w).
Proof.
  induction frames as [|v frames IH]; intros w Hne Hp Hm Hw Hlen Hroom; [congruence|].
  cbn [append_each frames_size] in *.
  pose proof (frames_size_nonneg frames) as Hnn.
  rewrite append_vector_to_file_ok; try assumption; [|apply Hlen; left|lia].
  cbn [snd]. destruct frames as [|v' frames].
  - cbn [append_each]. unfold spool_bytes. cbn [map concat]. rewrite app_nil_r. reflexivity.
  - rewrite IH.
    + rewrite get_mutex_for_path_spool_gains, get_mutex_for_path_twice, spool_gains_twice.
      reflexivity.
    + discriminate.
    + exact Hp.
    + unfold spool_gains, get_mutex_for_path. case_decide; assumption.
    + unfold spool_gains, get_mutex_for_path. case_decide; assumption.
    + intros x Hx. apply Hlen. right. exact Hx.
    + assert (w_free (spool_gains path (frame_bytes v) (get_mutex_for_path path w))
              = w_free w - (4 + Z.of_nat (length v))) as ->.
      { unfold spool_gains, get_mutex_for_path. cbn [set_files w_free].
        rewrite frame_bytes_length. case_decide; reflexivity. }
      lia.
Qed.

(** ** Reading a whole spool *)

Lemma read_frame_advances host s out s' out' :
  read_length_prefixed_bytes_from_ifstream host s out = (Returned true, s', out') ->
  i_data s' = i_data s /\ (i_pos s + 4 <= i_pos s')%nat /\
  (i_pos s' <= length (i_data s))%nat.
Proof.
  unfold read_length_prefixed_bytes_from_ifstream, i_read.
  destruct (i_good s).
  2:{ cbn. destruct (i_eofbit s); discriminate. }
  pose proof (length_drop (i_data s) (i_pos s)) as Hd.
  destruct (Nat.leb_spec 4 (length (drop (i_pos s) (i_data s)))) as [H4|H4].
  2:{ cbn. discriminate. }
  cbn [i_fail i_failbit i_badbit orb i_good i_eofbit negb i_pos i_data].
  destruct (_ >? MAX_REASONABLE_SIZE); [discriminate|].
  destruct (negb _).
  - match goal with |- context [Nat.leb ?n ?m] => destruct (Nat.leb_spec n m) as [Hn|Hn] end.
    + cbn. intros [= <- _]. cbn. rewrite length_drop in Hn. repeat split; lia.
    + cbn. discriminate.
  - intros [= <- _]. cbn. repeat split; lia.
Qed.

Section ReadAll.

Variable host : byte_order.

Lemma read_all_loop_terminates fuel : forall reader tmp result,
  (length (i_data (fvr_ifs reader)) - i_pos (fvr_ifs reader) < fuel)%nat ->
  is_Some (read_all_loop host fuel reader tmp result).
Proof.
  induction fuel as [|fuel IH]; intros reader tmp result Hf; [lia|].
  cbn [read_all_loop]. unfold FileVectorReader_next.
  destruct (read_length_prefixed_bytes_from_ifstream host (fvr_ifs reader) tmp)
    as [[[[]|e] s'] out'] eqn:E; try (eexists; reflexivity).
  apply read_frame_advances in E. destruct E as (Ed & Hp & Hl).
  apply IH. cbn [fvr_ifs]. rewrite Ed. lia.
Qed.

Lemma read_all_loop_frames frames : forall fuel reader tmp result,
  i_good (fvr_ifs reader) = true ->
  drop (i_pos (fvr_ifs reader)) (i_data (fvr_ifs reader)) = spool_bytes frames ->
  (forall v, v ∈ frames -> Z.of_nat (length v) <= 2 ^ 30) ->
  (length frames < fuel)%nat ->
  read_all_loop host fuel reader tmp result = Some (Returned (result ++ frames)).
Proof.
  induction frames as [|v frames IH]; intros fuel reader tmp result Hg Hd Hlen Hf.
  - destruct fuel as [|fuel]; [cbn in Hf; lia|]. cbn [read_all_loop].
    unfold FileVectorReader_next.
    destruct (read_ifstream_at_end host (fvr_ifs reader) tmp Hg Hd) as [s' ->].
    rewrite app_nil_r. reflexivity.
  - destruct fuel as [|fuel]; [cbn in Hf; lia|]. cbn [read_all_loop].
    unfold FileVectorReader_next.
    rewrite (read_ifstream_frame host (fvr_ifs reader) tmp v (spool_bytes frames));
      [|assumption|exact Hd|apply Hlen; left].
    rewrite IH.
    + cbn [v_bytes]. rewrite <- app_assoc. reflexivity.
    + reflexivity.
    + cbn [fvr_ifs i_pos i_data].
      replace (i_pos (fvr_ifs reader) + 4 + length v)%nat
        with (i_pos (fvr_ifs reader) + length (frame_bytes v))%nat
        by (unfold frame_bytes; rewrite length_app, be_bytes_length; lia).
      rewrite <- drop_drop, Hd. unfold spool_bytes. cbn [map concat].
      apply drop_app_length.
    + intros x Hx. apply Hlen. right. exact Hx.
    + cbn [length] in Hf. lia.
Qed.

Lemma read_all_loop_prefix frames : forall fuel reader tmp result rest,
  i_good (fvr_ifs reader) = true ->
  drop (i_pos (fvr_ifs reader)) (i_data (fvr_ifs reader)) = spool_bytes frames ++ rest ->
  (forall v, v ∈ frames -> Z.of_nat (length v) <= 2 ^ 30) ->
  exists reader' tmp',
    i_good (fvr_ifs reader') = true /\
    drop (i_pos (fvr_ifs reader')) (i_data (fvr_ifs reader')) = rest /\
    read_all_loop host (length frames + fuel) reader tmp result
    = read_all_loop host fuel reader' tmp' (result ++ frames).
Proof.
  induction frames as [|v frames IH]; intros fuel reader tmp result rest Hg Hd Hlen.
  - exists reader, tmp. rewrite app_nil_r. split; [assumption|]. split; [exact Hd | reflexivity].
  - cbn [length Nat.add read_all_loop]. unfold FileVectorReader_next.
    unfold spool_bytes in Hd. cbn [map concat] in Hd. rewrite <- app_assoc in Hd.
    rewrite (read_ifstream_frame host (fvr_ifs reader) tmp v _ Hg Hd) by (apply Hlen; left).
    edestruct (IH fuel) as (reader' & tmp' & Hg' & Hd' & E); cycle 3.
    + exists reader', tmp'. rewrite E, <- app_assoc.
      split; [exact Hg'|]. split; [exact Hd' | reflexivity].
    + reflexivity.
    + cbn [fvr_ifs i_pos i_data].
      replace (i_pos (fvr_ifs reader) + 4 + length v)%nat
        with (i_pos (fvr_ifs reader) + length (frame_bytes v))%nat
        by (unfold frame_bytes; rewrite length_app, be_bytes_length; lia).
      rewrite <- drop_drop, Hd. apply drop_app_length.
    + intros x Hx. apply Hlen. right. exact Hx.
Qed.

End ReadAll.

Lemma frames_count_le_bytes frames : (length frames <= length (spool_bytes frames))%nat.
Proof.
  induction frames as [|v frames IH]; [cbn; lia|].
  unfold spool_bytes in *. cbn [map concat length]. rewrite length_app.
  unfold frame_bytes at 1. rewrite length_app, be_bytes_length. lia.
Qed.

Lemma read_all_of_spool host path frames w :
  w_files w !! path = Some (spool_bytes frames) ->
  (forall v, v ∈ frames -> Z.of_nat (length v) <= 2 ^ 30) ->
  read_all_vectors_from_file host path w
  = (Some (Returned frames), get_mutex_for_path path w).
Proof.
  intros Hf Hlen. unfold read_all_vectors_from_file, FileVectorReader_new, ifstream_open.
  rewrite Hf. cbn [i_open i_is_open negb fvr_ifs i_data].
  rewrite (read_all_loop_frames host frames); try reflexivity; try assumption.
  pose proof (frames_count_le_bytes frames). lia.
Qed.

(** ** The receiver, with the world it leaves *)

Lemma stored_cons path v frames w :
  stored path (v :: frames) w = stored path frames (spool_gains path (frame_bytes v) w).
Proof.
  destruct frames as [|v' frames]; cbn [stored].
  - unfold spool_bytes. cbn [map concat]. rewrite app_nil_r. reflexivity.
  - rewrite spool_gains_twice. reflexivity.
Qed.

Lemma stored_unwritable path frames w :
  w_unwritable (stored path frames w) = w_unwritable w.
Proof. destruct frames; reflexivity. Qed.

Lemma stored_free path frames w :
  w_free (stored path frames w) = w_free w - frames_size frames.
Proof.
  destruct frames as [|v frames]; cbn [stored frames_size]; [lia|].
  unfold spool_gains. cbn [set_files w_free].
  rewrite spool_bytes_length. reflexivity.
Qed.

Lemma store_message_gains host path v w :
  path ∉ w_unwritable w ->
  Z.of_nat (length v) < 2 ^ 32 ->
  4 + Z.of_nat (length v) <= w_free w ->
  store_message host path v w = (Returned tt, spool_gains path (frame_bytes v) w).
Proof.
  intros Hw Hlen Hroom.
  destruct (ofstream_session_ok host path v w Hw Hlen Hroom) as (ofs' & E & Hc).
  unfold store_message.
  assert (Ho : o_is_open (fst (ofstream_open_app path w)) = true)
    by (unfold ofstream_open_app; case_decide; [contradiction | reflexivity]).
  destruct (ofstream_open_app path w) as [ofs w2]. cbn [fst snd] in *.
  rewrite Ho, E. cbn [negb]. rewrite Hc. reflexivity.
Qed.

Section Session.

Variable host : byte_order.
Variable path : string.
Variable max_messages : Z.
Variable expect_eof_frame : bool.

Lemma receive_loop_stores pre : forall rest received w,
  0 <= received ->
  max_messages = 0 \/ received + Z.of_nat (length (persisted pre)) < max_messages ->
  received + Z.of_nat (length (persisted pre)) <= SIZE_MAX ->
  (forall msg, Some msg ∈ pre -> expect_eof_frame && leading_byte_is xff msg = false) ->
  path ∉ w_unwritable w ->
  (forall msg, msg ∈ persisted pre -> Z.of_nat (length msg) < 2 ^ 32) ->
  frames_size (persisted pre) <= w_free w ->
  receive_loop host path max_messages expect_eof_frame (pre ++ rest) received w
  = receive_loop host path max_messages expect_eof_frame rest
      (received + Z.of_nat (length (persisted pre))) (stored path (persisted pre) w).
Proof.
  induction pre as [|[msg|] pre IH]; intros rest received w H0 Hmax Hsz Heof Hw Hlen Hroom.
  - cbn [persisted length app stored]. rewrite Z.add_0_r. reflexivity.
  - assert (G : (max_messages =? 0) || (received <? max_messages) = true).
    { apply orb_true_iff. destruct Hmax as [->|Hmax]; [left; reflexivity|right].
      apply Z.ltb_lt. lia. }
    cbn [app receive_loop]. rewrite G. cbn [persisted] in *.
    destruct (leading_byte_is xfe msg) eqn:Hsof.
    + apply IH; try assumption. intros m Hm. apply Heof. right. exact Hm.
    + rewrite (Heof msg) by left.
      cbn [frames_size length] in *.
      pose proof (frames_size_nonneg (persisted pre)) as Hnn.
      rewrite store_message_gains; [|assumption|apply Hlen; left|lia].
      assert (Hr : to_size_t (received + 1) = received + 1).
      { unfold to_size_t. apply Z.mod_small. unfold SIZE_MAX in Hsz. lia. }
      rewrite Hr, IH.
      * rewrite stored_cons. f_equal. lia.
      * lia.
      * destruct Hmax as [?|?]; [left; assumption | right; lia].
      * lia.
      * intros m Hm. apply Heof. right. exact Hm.
      * assumption.
      * intros m Hm. apply Hlen. right. exact Hm.
      * unfold spool_gains. cbn [set_files w_free]. rewrite frame_bytes_length. lia.
  - assert (G : (max_messages =? 0) || (received <? max_messages) = true).
    { apply orb_true_iff. destruct Hmax as [->|Hmax]; [left; reflexivity|right].
      apply Z.ltb_lt. lia. }
    cbn [app receive_loop]. rewrite G. cbn [persisted] in *.
    apply IH; try assumption. intros m Hm. apply Heof. right. exact Hm.
Qed.

(** The count never passes the bound, and only grows. *)
Lemma receive_loop_bounded incoming : forall received w c w',
  0 < max_messages <= SIZE_MAX ->
  0 <= received <= max_messages ->
  receive_loop host path max_messages expect_eof_frame incoming received w
    = (RecvReturned c, w') ->
  received <= c <= max_messages.
Proof.
  induction incoming as [|[msg|] incoming IH]; intros received w c w' Hmax Hr;
    cbn [receive_loop];
    destruct (Z.eqb_spec max_messages 0) as [?|_]; try lia; cbn [orb];
    destruct (Z.ltb_spec received max_messages) as [Hlt|Hge];
    try (intros [= <- _]; lia); try discriminate.
  - destruct (leading_byte_is xfe msg); [apply IH; assumption|].
    destruct (expect_eof_frame && leading_byte_is xff msg); [intros [= <- _]; lia|].
    destruct (store_message host path msg w) as [[[]|e] w1]; [|discriminate].
    assert (Hs : to_size_t (received + 1) = received + 1).
    { unfold to_size_t. apply Z.mod_small. unfold SIZE_MAX in Hmax. lia. }
    rewrite Hs. intros E. apply IH in E; lia.
  - apply IH; assumption.
Qed.

(** Without a bound and without a message that is taken for EOF, the call
    does not return. *)
Lemma receive_loop_unbounded incoming : forall received w,
  max_messages = 0 ->
  (forall msg, Some msg ∈ incoming -> expect_eof_frame && leading_byte_is xff msg = false) ->
  forall c w', receive_loop host path max_messages expect_eof_frame incoming received w
               <> (RecvReturned c, w').
Proof.
  induction incoming as [|[msg|] incoming IH]; intros received w Hmax Heof c w';
    cbn [receive_loop]; rewrite Hmax; cbn [Z.eqb orb]; try discriminate.
  - destruct (leading_byte_is xfe msg).
    { rewrite <- Hmax. apply IH; [assumption|]. intros m Hm. apply Heof. right. exact Hm. }
    rewrite (Heof msg) by left.
    destruct (store_message host path msg w) as [[[]|e] w1]; [|discriminate].
    rewrite <- Hmax. apply IH; [assumption|]. intros m Hm. apply Heof. right. exact Hm.
  - rewrite <- Hmax. apply IH; [assumption|]. intros m Hm. apply Heof. right. exact Hm.
Qed.

End Session.

(** ** Spool files: further properties *)

(** X1.  Spool concatenation.  On a spool that holds the frames [old],
    appending one or more payloads [frames] one after the other and then
    reading the whole file gives [old ++ frames], in order.  This needs a
    path with a directory part (for a bare file name
    [create_directories] is called with the empty path and throws, and
    nothing is appended), a directory that exists or can be made, a file
    that can be written, payloads of at most 2^30 bytes and a device
    with room for the new frames. *)
Theorem spool_concatenation (host : byte_order) (path : string)
    (old frames : list (list byte)) (w : world) :
  frames <> [] ->
  parent_path path <> ""%string ->
  parent_path path ∉ w_mkdir_denied w ->
  path ∉ w_unwritable w ->
  default [] (w_files w !! path) = spool_bytes old ->
  (forall v, v ∈ old ++ frames -> Z.of_nat (length v) <= 2 ^ 30) ->
  frames_size frames <= w_free w ->
  fst (read_all_vectors_from_file host path (append_each host path frames w))
  = Some (Returned (old ++ frames)).
Proof.
  intros Hne Hp Hm Hw Hold Hlen Hroom.
  rewrite append_each_ok; try assumption.
  2:{ intros v Hv. specialize (Hlen v). rewrite elem_of_app in Hlen.
      specialize (Hlen (or_intror Hv)). lia. }
  rewrite (read_all_of_spool host path (old ++ frames)); [reflexivity| |assumption].
  unfold spool_gains. cbn [set_files w_files].
  rewrite lookup_insert_eq, get_mutex_for_path_files, Hold, spool_bytes_app. reflexivity.
Qed.

Lemma spool_concatenation_witness :
  fst (read_all_vectors_from_file LittleEndian "../data_kreyvium/spool.bin"
         (append_each LittleEndian "../data_kreyvium/spool.bin" [[x01; x02]; []; [x03]]
            quiet_world))
  = Some (Returned ([] ++ [[x01; x02]; []; [x03]])).
Proof.
  apply (spool_concatenation LittleEndian "../data_kreyvium/spool.bin" []
           [[x01; x02]; []; [x03]] quiet_world).
  - discriminate.
  - vm_compute. discriminate.
  - vm_compute. set_solver.
  - vm_compute. set_solver.
  - reflexivity.
  - intros v Hv. cbn in Hv.
    repeat (apply elem_of_cons in Hv as [->|Hv]; [cbn; lia|]).
    apply elem_of_nil in Hv. contradiction.
  - vm_compute. discriminate.
Defined.

(** X2.  Reading a whole spool always ends: every frame read takes at least
    four bytes of the file, so the loop of [read_all_vectors_from_file] is
    over, with the frames or with an exception, before one step per byte of
    the file has been made, whatever the file holds. *)
Theorem read_all_always_ends (host : byte_order) (path : string) (w : world) :
  is_Some (fst (read_all_vectors_from_file host path w)).
Proof.
  unfold read_all_vectors_from_file.
  destruct (FileVectorReader_new path w) as [[reader|e] w1]; cbn [fst]; [|eexists; reflexivity].
  apply read_all_loop_terminates. lia.
Qed.

(** X3.  A spool with a torn last frame.  When the file ends inside the
    payload of its last frame, reading the whole spool throws a
    [CorruptedFrame] error and hands out no frame at all.  When it ends
    inside the length prefix of its last frame, the torn tail goes
    unnoticed: the call returns the complete frames before it. *)
Theorem read_all_of_torn_spool (host : byte_order) (path : string)
    (frames : list (list byte)) (v : list byte) (k : nat) (w : world) :
  w_files w !! path = Some (spool_bytes frames ++ take k (frame_bytes v)) ->
  (forall x, x ∈ v :: frames -> Z.of_nat (length x) <= 2 ^ 30) ->
  (0 < k < 4 + length v)%nat ->
  ((k < 4)%nat ->
     fst (read_all_vectors_from_file host path w) = Some (Returned frames)) /\
  ((4 <= k)%nat ->
     exists e, fst (read_all_vectors_from_file host path w) = Some (Threw e)
               /\ CorruptedFrame e = true).
Proof.
  intros Hf Hlen Hk.
  assert (Hv : Z.of_nat (length v) <= 2 ^ 30) by (apply Hlen; left).
  unfold read_all_vectors_from_file, FileVectorReader_new, ifstream_open.
  rewrite Hf. cbn [i_open i_is_open negb fvr_ifs i_data fst].
  set (data := spool_bytes frames ++ take k (frame_bytes v)).
  set (reader := {| fvr_ifs := i_open data; fvr_path := path |}).
  pose proof (frames_count_le_bytes frames) as Hc.
  assert (Hfuel : S (length data) = (length frames + S (length data - length frames))%nat).
  { unfold data. rewrite length_app. lia. }
  rewrite Hfuel.
  destruct (read_all_loop_prefix host frames (S (length data - length frames)) reader
              {| v_bytes := []; v_resized := [] |} [] (take k (frame_bytes v)))
    as (reader' & tmp' & Hg' & Hd' & E).
  { reflexivity. }
  { reflexivity. }
  { intros x Hx. apply Hlen. right. exact Hx. }
  rewrite E. cbn [read_all_loop app]. unfold FileVectorReader_next.
  assert (Hlk : length (take k (frame_bytes v)) = k).
  { rewrite length_take. unfold frame_bytes. rewrite length_app, be_bytes_length. lia. }
  split; intros Hk4.
  - destruct (read_ifstream_short_header host (fvr_ifs reader') tmp' Hg') as [s' ->].
    + rewrite Hd', Hlk. exact Hk4.
    + reflexivity.
  - destruct (read_ifstream_short_payload host (fvr_ifs reader') tmp'
                (Z.of_nat (length v)) (take (k - 4) v) Hg')
      as (e & s' & out' & -> & He).
    + rewrite Hd'. apply take_frame_bytes, Hk4.
    + lia.
    + rewrite length_take. lia.
    + exists e. split; [reflexivity | exact He].
Qed.

Lemma read_all_of_torn_spool_witness :
  let w := set_files (<["spool.bin"%string :=
                         spool_bytes [[x01]] ++ take 5 (frame_bytes [x02; x03])]> ∅)
             (2 ^ 40) quiet_world in
  ((5 < 4)%nat ->
     fst (read_all_vectors_from_file LittleEndian "spool.bin" w)
     = Some (Returned [[x01]])) /\
  ((4 <= 5)%nat ->
     exists e, fst (read_all_vectors_from_file LittleEndian "spool.bin" w) = Some (Threw e)
               /\ CorruptedFrame e = true).
Proof.
  intros w.
  apply (read_all_of_torn_spool LittleEndian "spool.bin" [[x01]] [x02; x03] 5 w).
  - vm_compute. reflexivity.
  - intros x Hx.
    repeat (apply elem_of_cons in Hx as [->|Hx]; [cbn; lia|]).
    apply elem_of_nil in Hx. contradiction.
  - cbn. lia.
Defined.

(** X4.  [reset] starts the reader over.  Whatever has been read before, and
    also after the end of the file or an error has been reported, a reader
    that is reset reads the frames of its file again from the first one. *)
Theorem reset_reads_from_the_start (host : byte_order) (r : FileVectorReader)
    (frames : list (list byte)) (out : out_vector) :
  i_is_open (fvr_ifs r) = true ->
  i_data (fvr_ifs r) = spool_bytes frames ->
  (forall v, v ∈ frames -> Z.of_nat (length v) <= 2 ^ 30) ->
  read_all_loop host (S (length frames)) (FileVectorReader_reset r) out []
  = Some (Returned frames).
Proof.
  intros Ho Hd Hlen.
  apply (read_all_loop_frames host frames (S (length frames)) (FileVectorReader_reset r) out []).
  - unfold FileVectorReader_reset, i_rewind, i_good. cbn. rewrite Ho. reflexivity.
  - unfold FileVectorReader_reset, i_rewind. cbn [fvr_ifs i_pos i_data]. rewrite drop_0. exact Hd.
  - exact Hlen.
  - lia.
Qed.

Lemma reset_reads_from_the_start_witness :
  let r := {| fvr_ifs := {| i_is_open := true; i_data := spool_bytes [[x01]; [x02]];
                            i_pos := 10; i_eofbit := true; i_failbit := true;
                            i_badbit := false |};
              fvr_path := "spool.bin" |} in
  read_all_loop LittleEndian (S (length [[x01]; [x02]])) (FileVectorReader_reset r)
    empty_vector []
  = Some (Returned [[x01]; [x02]]).
Proof.
  intros r. apply (reset_reads_from_the_start LittleEndian r [[x01]; [x02]] empty_vector).
  - reflexivity.
  - reflexivity.
  - intros v Hv.
    repeat (apply elem_of_cons in Hv as [->|Hv]; [cbn; lia|]).
    apply elem_of_nil in Hv. contradiction.
Defined.

(** ** The receiver: further properties *)

Lemma persisted_snoc pre m :
  leading_byte_is xfe m = false -> persisted (pre ++ [Some m]) = persisted pre ++ [m].
Proof.
  intros Hm. induction pre as [|[x|] pre IH]; cbn [app persisted].
  - rewrite Hm. reflexivity.
  - destruct (leading_byte_is xfe x); rewrite IH; reflexivity.
  - exact IH.
Qed.

Lemma receive_loop_at_bound host path n eof incoming w :
  0 < n ->
  receive_loop host path n eof incoming n w = (RecvReturned n, w).
Proof.
  intros Hn.
  assert (G : (n =? 0) || (n <? n) = false).
  { apply orb_false_iff. split; [apply Z.eqb_neq | apply Z.ltb_ge]; lia. }
  destruct incoming as [|[m|] incoming]; cbn [receive_loop]; rewrite G; reflexivity.
Qed.

Lemma receive_loop_reaches_bound host path n expect_eof_frame pre post m w :
  0 < n <= SIZE_MAX ->
  Z.of_nat (length (persisted pre)) = n - 1 ->
  data_message expect_eof_frame m = true ->
  (forall msg, Some msg ∈ pre -> expect_eof_frame && leading_byte_is xff msg = false) ->
  path ∉ w_unwritable w ->
  (forall msg, msg ∈ persisted pre ++ [m] -> Z.of_nat (length msg) < 2 ^ 32) ->
  frames_size (persisted pre ++ [m]) <= w_free w ->
  receive_loop host path n expect_eof_frame (pre ++ Some m :: post) 0 w
  = (RecvReturned n, stored path (persisted pre ++ [m]) w).
Proof.
  intros Hn Hcount Hm Heof Hw Hlen Hroom.
  apply andb_true_iff in Hm as [Hfe Hff].
  apply negb_true_iff in Hfe, Hff.
  assert (Hsz : frames_size (persisted pre ++ [m])
                = frames_size (persisted pre) + (4 + Z.of_nat (length m))).
  { clear. induction (persisted pre) as [|v l IH]; cbn [app frames_size]; lia. }
  (* the first n - 1 stored messages *)
  rewrite (receive_loop_stores host path n expect_eof_frame pre); try assumption; try lia.
  2:{ intros x Hx. apply Hlen. apply elem_of_app. left. exact Hx. }
  (* the n-th *)
  rewrite Z.add_0_l, Hcount. cbn [receive_loop].
  assert (G : (n =? 0) || (n - 1 <? n) = true).
  { apply orb_true_iff. right. apply Z.ltb_lt. lia. }
  rewrite G, Hfe, Hff.
  rewrite store_message_gains.
  - assert (Hs : to_size_t (n - 1 + 1) = n).
    { unfold to_size_t. replace (n - 1 + 1) with n by lia.
      apply Z.mod_small. unfold SIZE_MAX in Hn. lia. }
    rewrite Hs, receive_loop_at_bound by lia. f_equal.
    destruct (persisted pre) as [|v l] eqn:E.
    + cbn [app stored]. unfold spool_bytes. cbn [map concat]. rewrite app_nil_r. reflexivity.
    + cbn [stored app]. rewrite spool_gains_twice. f_equal.
      change (v :: l ++ [m]) with ((v :: l) ++ [m]). rewrite spool_bytes_app.
      unfold spool_bytes at 3. cbn [map concat]. rewrite app_nil_r. reflexivity.
  - rewrite stored_unwritable. assumption.
  - apply Hlen. apply elem_of_app. right. left.
  - rewrite stored_free. lia.
Qed.

(** X5.  Queue and spool agree, and the bound stops the call.  When the
    [max_messages]-th message that is stored arrives, the call returns
    [max_messages] at once: the spool has gained exactly the stored
    messages, one frame each, in arrival order, and nothing that the socket
    would deliver afterwards is received. *)
Theorem receiver_stops_at_count (host : byte_order) (path zmq_endpoint : string)
    (n : Z) (expect_eof_frame : bool) (pre post : list (option (list byte)))
    (m : list byte) (w : world) :
  0 < n <= SIZE_MAX ->
  Z.of_nat (length (persisted pre)) = n - 1 ->
  data_message expect_eof_frame m = true ->
  (forall msg, Some msg ∈ pre -> expect_eof_frame && leading_byte_is xff msg = false) ->
  path ∉ w_unwritable w ->
  (forall msg, msg ∈ persisted pre ++ [m] -> Z.of_nat (length msg) < 2 ^ 32) ->
  frames_size (persisted pre ++ [m]) <= w_free w ->
  zmq_receive_and_store host path zmq_endpoint n expect_eof_frame
    (pre ++ Some m :: post) w
  = (RecvReturned n, stored path (persisted pre ++ [m]) (get_mutex_for_path path w)).
Proof.
  intros Hn Hcount Hm Heof Hw Hlen Hroom. unfold zmq_receive_and_store.
  apply receive_loop_reaches_bound; try assumption.
  - unfold get_mutex_for_path. case_decide; assumption.
  - unfold get_mutex_for_path. case_decide; assumption.
Qed.

Lemma receiver_stops_at_count_witness :
  zmq_receive_and_store LittleEndian "spool.bin" "tcp://localhost:5556" 2 true
    ([Some [xfe]; Some [x01]] ++ Some [x02; x03] :: [Some [x04]; Some [xff]]) quiet_world
  = (RecvReturned 2,
     stored "spool.bin" (persisted [Some [xfe]; Some [x01]] ++ [[x02; x03]])
       (get_mutex_for_path "spool.bin" quiet_world)).
Proof.
  apply (receiver_stops_at_count LittleEndian "spool.bin" "tcp://localhost:5556" 2 true
           [Some [xfe]; Some [x01]] [Some [x04]; Some [xff]] [x02; x03] quiet_world).
  - unfold SIZE_MAX. lia.
  - reflexivity.
  - reflexivity.
  - intros msg Hm.
    repeat (apply elem_of_cons in Hm as [Hm|Hm]; [injection Hm as ->; reflexivity|]).
    apply elem_of_nil in Hm. contradiction.
  - vm_compute. set_solver.
  - intros msg Hm. cbn in Hm.
    repeat (apply elem_of_cons in Hm as [->|Hm]; [cbn; lia|]).
    apply elem_of_nil in Hm. contradiction.
  - vm_compute. discriminate.
Defined.

(** X6.  The result never passes the bound: with [max_messages] positive, a
    call that returns, returns a count between 0 and [max_messages],
    whatever arrives and whatever the file system does. *)
Theorem receiver_count_within_bound (host : byte_order) (path zmq_endpoint : string)
    (n : Z) (expect_eof_frame : bool) (incoming : list (option (list byte)))
    (w w' : world) (c : Z) :
  0 < n <= SIZE_MAX ->
  zmq_receive_and_store host path zmq_endpoint n expect_eof_frame incoming w
    = (RecvReturned c, w') ->
  0 <= c <= n.
Proof.
  intros Hn E. unfold zmq_receive_and_store in E.
  apply receive_loop_bounded in E; lia.
Qed.

Lemma receiver_count_within_bound_witness : 0 <= 2 <= 2.
Proof.
  apply (receiver_count_within_bound LittleEndian "spool.bin" "tcp://localhost:5556" 2 true
           [Some [x01]; Some [x02]; Some [x03]] quiet_world
           (snd (zmq_receive_and_store LittleEndian "spool.bin" "tcp://localhost:5556" 2 true
                   [Some [x01]; Some [x02]; Some [x03]] quiet_world)) 2).
  - unfold SIZE_MAX. lia.
  - vm_compute. reflexivity.
Defined.

(** X7.  Without a bound and without EOF the call never returns: with
    [max_messages = 0], a session in which no message is taken for the EOF
    frame (none starts with 0xFF, or [expect_eof_frame] is off) ends in an
    exception or leaves the call waiting in [recv]. *)
Theorem receiver_without_bound_never_returns (host : byte_order)
    (path zmq_endpoint : string) (expect_eof_frame : bool)
    (incoming : list (option (list byte))) (w : world) :
  (forall msg, Some msg ∈ incoming -> expect_eof_frame && leading_byte_is xff msg = false) ->
  fst (zmq_receive_and_store host path zmq_endpoint 0 expect_eof_frame incoming w)
    = RecvBlocked \/
  exists e,
    fst (zmq_receive_and_store host path zmq_endpoint 0 expect_eof_frame incoming w)
    = RecvThrew e.
Proof.
  intros Heof.
  destruct (zmq_receive_and_store host path zmq_endpoint 0 expect_eof_frame incoming w)
    as [[c|e|] w'] eqn:E; cbn [fst].
  - exfalso. unfold zmq_receive_and_store in E.
    exact (receive_loop_unbounded host path 0 expect_eof_frame incoming 0 _
             eq_refl Heof c w' E).
  - right. exists e. reflexivity.
  - left. reflexivity.
Qed.

Lemma receiver_without_bound_never_returns_witness :
  fst (zmq_receive_and_store LittleEndian "spool.bin" "tcp://localhost:5556" 0 false
         [Some [x01]; Some [xff]] quiet_world)
    = RecvBlocked \/
  exists e,
    fst (zmq_receive_and_store LittleEndian "spool.bin" "tcp://localhost:5556" 0 false
           [Some [x01]; Some [xff]] quiet_world)
    = RecvThrew e.
Proof.
  apply (receiver_without_bound_never_returns LittleEndian "spool.bin"
           "tcp://localhost:5556" false [Some [x01]; Some [xff]] quiet_world).
  intros msg Hm. reflexivity.
Defined.

Lemma ofstream_close_other path ofs w other :
  other <> path ->
  w_files (ofstream_close path ofs w) !! other = w_files w !! other.
Proof.
  intros Hne. unfold ofstream_close.
  destruct (o_is_open ofs); cbn [set_files w_files];
    rewrite ?lookup_insert_ne by congruence; reflexivity.
Qed.

Lemma ofstream_open_app_other path w other :
  other <> path ->
  w_files (snd (ofstream_open_app path w)) !! other = w_files w !! other.
Proof.
  intros Hne. unfold ofstream_open_app.
  case_decide; cbn [snd set_files w_files];
    rewrite ?lookup_insert_ne by congruence; reflexivity.
Qed.

Lemma ofstream_session_other host path v w other :
  other <> path ->
  w_files (snd (store_message host path v w)) !! other = w_files w !! other.
Proof.
  intros Hne. unfold store_message.
  pose proof (ofstream_open_app_other path w other Hne) as Ho.
  destruct (ofstream_open_app path w) as [ofs w1]. cbn [snd] in Ho.
  destruct (o_is_open ofs); cbn [negb snd]; [|exact Ho].
  destruct (write_length_prefixed_bytes_to_ofstream host ofs v) as [r ofs'].
  cbn [snd]. rewrite ofstream_close_other by assumption. exact Ho.
Qed.

Lemma receive_loop_other host path n eof incoming other :
  other <> path ->
  forall received w,
    w_files (snd (receive_loop host path n eof incoming received w)) !! other
    = w_files w !! other.
Proof.
  intros Hne. induction incoming as [|[msg|] incoming IH]; intros received w;
    cbn [receive_loop]; destruct ((n =? 0) || (received <? n)); try reflexivity.
  - destruct (leading_byte_is xfe msg); [apply IH|].
    destruct (eof && leading_byte_is xff msg); [reflexivity|].
    pose proof (ofstream_session_other host path msg w other Hne) as Hs.
    destruct (store_message host path msg w) as [[[]|e] w1]; cbn [snd] in *.
    + rewrite IH. exact Hs.
    + exact Hs.
  - apply IH.
Qed.

(** X8.  Only the spool file is written.  Whatever arrives and whatever
    fails, [zmq_receive_and_store] and [append_vector_to_file] leave every
    file other than the one at [path] as it was. *)
Theorem only_the_spool_file_changes (host : byte_order) (path zmq_endpoint other : string)
    (n : Z) (expect_eof_frame : bool) (incoming : list (option (list byte)))
    (data : list byte) (w : world) :
  other <> path ->
  w_files (snd (zmq_receive_and_store host path zmq_endpoint n expect_eof_frame
                  incoming w)) !! other
    = w_files w !! other /\
  w_files (snd (append_vector_to_file host path data w)) !! other = w_files w !! other.
Proof.
  intros Hne. split.
  - unfold zmq_receive_and_store. rewrite receive_loop_other by assumption.
    rewrite get_mutex_for_path_files. reflexivity.
  - unfold append_vector_to_file.
    rewrite <- (get_mutex_for_path_files path w).
    generalize (get_mutex_for_path path w). intros w1.
    destruct (create_parent_directories path w1); [|reflexivity].
    pose proof (ofstream_open_app_other path w1 other Hne) as Ho.
    destruct (ofstream_open_app path w1) as [ofs w2]. cbn [snd] in Ho.
    destruct (o_is_open ofs); cbn [negb snd cerr w_files]; [|exact Ho].
    destruct (write_length_prefixed_bytes_to_ofstream host ofs data) as [[[]|e] ofs'];
      cbn [snd cerr w_files]; rewrite ofstream_close_other by assumption; exact Ho.
Qed.

Lemma only_the_spool_file_changes_witness :
  let w := set_files (<["keep.bin"%string := [x09]]> ∅) 6 quiet_world in
  w_files (snd (zmq_receive_and_store LittleEndian "spool.bin" "tcp://localhost:5556" 0 true
                  [Some [x01]; Some [x02; x03]] w)) !! "keep.bin"%string
    = w_files w !! "keep.bin"%string /\
  w_files (snd (append_vector_to_file LittleEndian "spool.bin" [x01; x02; x03] w))
      !! "keep.bin"%string
    = w_files w !! "keep.bin"%string.
Proof.
  intros w.
  apply (only_the_spool_file_changes LittleEndian "spool.bin" "tcp://localhost:5556"
           "keep.bin" 0 true [Some [x01]; Some [x02; x03]] [x01; x02; x03] w).
  discriminate.
Defined.

(** X9.  What the receiver stores, the reader returns.  After a session that
    ends with the EOF frame and in which at least one message was stored,
    on a spool file that did not exist before, reading the whole spool
    gives the stored messages, in arrival order, when none of them has
    more than 2^30 bytes.  (With no stored message the receiver does not
    create the file, and there is nothing to read.) *)
Theorem received_spool_reads_back (host : byte_order) (path zmq_endpoint : string)
    (n : Z) (pre post : list (option (list byte))) (w : world) :
  n = 0 \/ Z.of_nat (length (persisted pre)) < n ->
  Z.of_nat (length (persisted pre)) <= SIZE_MAX ->
  persisted pre <> [] ->
  (forall msg, Some msg ∈ pre -> leading_byte_is xff msg = false) ->
  w_files w !! path = None ->
  path ∉ w_unwritable w ->
  (forall msg, msg ∈ persisted pre -> Z.of_nat (length msg) <= 2 ^ 30) ->
  frames_size (persisted pre) <= w_free w ->
  exists w1,
    zmq_receive_and_store host path zmq_endpoint n true (pre ++ Some [xff] :: post) w
      = (RecvReturned (Z.of_nat (length (persisted pre))), w1) /\
    read_all_vectors_from_file host path w1 = (Some (Returned (persisted pre)), w1).
Proof.
  intros Hn Hsz Hne Heof Hnew Hw Hlen Hroom. unfold zmq_receive_and_store.
  rewrite (receive_loop_stores host path n true pre).
  - rewrite receive_loop_eof_leading, Z.add_0_l. eexists. split; [reflexivity|].
    destruct (persisted pre) as [|v l] eqn:E; [congruence|]. cbn [stored].
    rewrite (read_all_of_spool host path (v :: l)).
    + rewrite get_mutex_for_path_spool_gains, get_mutex_for_path_twice. reflexivity.
    + unfold spool_gains. cbn [set_files w_files].
      rewrite lookup_insert_eq, get_mutex_for_path_files, Hnew. reflexivity.
    + exact Hlen.
  - lia.
  - destruct Hn as [Hn|Hn]; [left; exact Hn | right; lia].
  - lia.
  - intros msg Hm. rewrite (Heof msg Hm). reflexivity.
  - unfold get_mutex_for_path. case_decide; assumption.
  - intros msg Hm. specialize (Hlen msg Hm). lia.
  - unfold get_mutex_for_path. case_decide; assumption.
Qed.

Lemma received_spool_reads_back_witness :
  exists w1,
    zmq_receive_and_store LittleEndian "spool.bin" "tcp://localhost:5556" 0 true
      ([Some [xfe]; Some [x01]; Some [x02; x03]] ++ Some [xff] :: []) quiet_world
      = (RecvReturned
           (Z.of_nat (length (persisted [Some [xfe]; Some [x01]; Some [x02; x03]]))), w1) /\
    read_all_vectors_from_file LittleEndian "spool.bin" w1
      = (Some (Returned (persisted [Some [xfe]; Some [x01]; Some [x02; x03]])), w1).
Proof.
  apply (received_spool_reads_back LittleEndian "spool.bin" "tcp://localhost:5556" 0
           [Some [xfe]; Some [x01]; Some [x02; x03]] [] quiet_world).
  - left. reflexivity.
  - vm_compute. discriminate.
  - discriminate.
  - intros msg Hm.
    repeat (apply elem_of_cons in Hm as [Hm|Hm]; [injection Hm as ->; reflexivity|]).
    apply elem_of_nil in Hm. contradiction.
  - reflexivity.
  - vm_compute. set_solver.
  - intros msg Hm. cbn in Hm.
    repeat (apply elem_of_cons in Hm as [->|Hm]; [cbn; lia|]).
    apply elem_of_nil in Hm. contradiction.
  - vm_compute. discriminate.
Defined.

(** ** The frame cap on the two sides *)

Lemma read_ifstream_oversized host s out L rest :
  i_good s = true ->
  drop (i_pos s) (i_data s) = be_bytes L ++ rest ->
  2 ^ 30 < L < 2 ^ 32 ->
  exists s',
    read_length_prefixed_bytes_from_ifstream host s out
    = (Threw (runtime_error "read_length_prefixed_bytes: suspicious length"), s', v_clear out).
Proof.
  intros Hg Hd HL. unfold read_length_prefixed_bytes_from_ifstream.
  rewrite i_read_enough by (rewrite ?Hd, ?length_app, ?be_bytes_length; lia || assumption).
  rewrite Hd, (take_app_length' (be_bytes L)) by reflexivity.
  cbn [i_fail i_failbit i_badbit orb]. rewrite !be_prefix_decodes by lia.
  destruct (Z.gtb_spec L MAX_REASONABLE_SIZE) as [_|Hle].
  - eexists. reflexivity.
  - rewrite MAX_REASONABLE_SIZE_eq in Hle. lia.
Qed.

(** X10.  The cap is one-sided.  A payload of more than 2^30 and fewer than
    2^32 bytes is appended to a new spool without any complaint (on a path
    with a directory part that exists or can be made, a file that can be
    written and a device with room for the frame), and the spool can then
    not be read: reading it throws "suspicious length", a [CorruptedFrame]
    error, at that frame. *)
Theorem oversized_frame_is_written_but_not_read (host : byte_order) (path : string)
    (v : list byte) (w : world) :
  2 ^ 30 < Z.of_nat (length v) < 2 ^ 32 ->
  parent_path path <> ""%string ->
  parent_path path ∉ w_mkdir_denied w ->
  path ∉ w_unwritable w ->
  w_files w !! path = None ->
  4 + Z.of_nat (length v) <= w_free w ->
  exists w1,
    append_vector_to_file host path v w = (Returned tt, w1) /\
    w_stderr w1 = w_stderr w /\
    w_files w1 !! path = Some (frame_bytes v) /\
    fst (read_all_vectors_from_file host path w1)
    = Some (Threw (runtime_error "read_length_prefixed_bytes: suspicious length")) /\
    CorruptedFrame (runtime_error "read_length_prefixed_bytes: suspicious length") = true.
Proof.
  intros Hv Hp Hm Hw Hnew Hroom.
  rewrite append_vector_to_file_ok by (assumption || lia).
  eexists. split; [reflexivity|].
  assert (Hfile : w_files (spool_gains path (frame_bytes v) (get_mutex_for_path path w))
                    !! path = Some (frame_bytes v)).
  { unfold spool_gains. cbn [set_files w_files].
    rewrite lookup_insert_eq, get_mutex_for_path_files, Hnew. reflexivity. }
  split; [|split; [exact Hfile|split; [|reflexivity]]].
  - unfold spool_gains, get_mutex_for_path. case_decide; reflexivity.
  - unfold read_all_vectors_from_file, FileVectorReader_new, ifstream_open.
    rewrite Hfile. cbn [i_open i_is_open negb fvr_ifs i_data fst read_all_loop].
    unfold FileVectorReader_next. cbn [fvr_ifs].
    destruct (read_ifstream_oversized host (i_open (frame_bytes v))
                {| v_bytes := []; v_resized := [] |} (Z.of_nat (length v)) v)
      as [s' ->]; [reflexivity | reflexivity | lia | reflexivity].
Qed.

Lemma oversized_frame_is_written_but_not_read_witness :
  exists w1,
    append_vector_to_file LittleEndian "../data_kreyvium/spool.bin"
      (repeat x00 (Z.to_nat (2 ^ 30 + 1))) quiet_world = (Returned tt, w1) /\
    w_stderr w1 = w_stderr quiet_world /\
    w_files w1 !! "../data_kreyvium/spool.bin"%string
      = Some (frame_bytes (repeat x00 (Z.to_nat (2 ^ 30 + 1)))) /\
    fst (read_all_vectors_from_file LittleEndian "../data_kreyvium/spool.bin" w1)
    = Some (Threw (runtime_error "read_length_prefixed_bytes: suspicious length")) /\
    CorruptedFrame (runtime_error "read_length_prefixed_bytes: suspicious length") = true.
Proof.
  apply (oversized_frame_is_written_but_not_read LittleEndian "../data_kreyvium/spool.bin"
           (repeat x00 (Z.to_nat (2 ^ 30 + 1))) quiet_world).
  - rewrite repeat_length, Z2Nat.id by lia. lia.
  - vm_compute. discriminate.
  - cbn [quiet_world w_mkdir_denied]. set_solver.
  - cbn [quiet_world w_unwritable]. set_solver.
  - apply lookup_empty.
  - rewrite repeat_length, Z2Nat.id by lia. cbn [quiet_world w_free]. lia.
Defined.

(** ** TFHE codec *)

Section Codec.

Variable host : byte_order.
Variable ciphertext : Type.
Variable params : Type.
Variable export_ct : params → ciphertext → list byte.
Variable import_ct : params → list byte → ciphertext * list byte.

Lemma export_all_ok p v : forall tmp,
  Z.of_nat (fo_pending tmp) + Z.of_nat (length (exported export_ct p v)) <= fo_room tmp ->
  fo_written (export_all export_ct p v tmp) = fo_written tmp ++ exported export_ct p v /\
  Z.of_nat (fo_pending (export_all export_ct p v tmp))
    <= fo_room (export_all export_ct p v tmp).
Proof.
  induction v as [|c v IH]; intros tmp Hroom; cbn [export_all exported map concat] in *.
  - rewrite app_nil_r. cbn [length] in Hroom. split; [reflexivity | lia].
  - rewrite length_app in Hroom.
    destruct (fwrite_ok tmp (export_ct p c)) as (_ & W & _ & R & P); [lia|].
    destruct (IH (snd (fwrite tmp (export_ct p c)))) as [W' P'].
    { unfold exported. lia. }
    split; [|exact P']. rewrite W', W, <- app_assoc. reflexivity.
Qed.

Lemma import_all_exported p v rest :
  import_inverts_export export_ct import_ct p ->
  import_all import_ct p (length v) (exported export_ct p v ++ rest) = v.
Proof.
  intros Hinv. induction v as [|c v IH]; [reflexivity|].
  cbn [length import_all exported map concat]. rewrite <- app_assoc, Hinv.
  fold (exported export_ct p v). rewrite IH. reflexivity.
Qed.

Lemma import_all_length p n : forall rest,
  length (import_all import_ct p n rest) = n.
Proof.
  induction n as [|n IH]; intros rest; [reflexivity|].
  cbn [import_all]. destruct (import_ct p rest) as [c rest']. cbn [length].
  rewrite IH. reflexivity.
Qed.

Lemma serialize_ok p v w :
  w_tmpfile_ok w = true ->
  Z.of_nat (length v) < 2 ^ 32 ->
  4 + Z.of_nat (length (exported export_ct p v)) <= w_free w ->
  serialize_TFHECiphertextVec_to_buffer host export_ct v (Some p) w
  = (true, be_bytes (Z.of_nat (length v)) ++ exported export_ct p v).
Proof.
  intros Ht Hn Hroom. unfold serialize_TFHECiphertextVec_to_buffer, tmpfile, fwrite_item.
  rewrite Ht.
  assert (Hsz : to_uint32 (Z.of_nat (length v)) = Z.of_nat (length v)).
  { unfold to_uint32. apply Z.mod_small. lia. }
  rewrite Hsz, store_htonl.
  set (tmp := {| fo_written := []; fo_pending := 0%nat; fo_room := w_free w;
                 fo_error := false |}).
  destruct (fwrite_ok tmp (be_bytes (Z.of_nat (length v)))) as (N1 & W1 & _ & R1 & P1).
  { cbn [tmp fo_pending fo_room]. rewrite be_bytes_length. lia. }
  destruct (fwrite tmp (be_bytes (Z.of_nat (length v)))) as [n1 tmp1].
  cbn [fst snd] in *. subst n1. rewrite Z.eqb_refl. change (1 =? 1) with true. cbn [negb].
  rewrite Nat2Z.id, firstn_all.
  destruct (export_all_ok p v tmp1) as [W2 P2].
  { rewrite be_bytes_length in R1. cbn [tmp fo_pending fo_room] in R1. lia. }
  rewrite W1 in W2. cbn [tmp fo_written app] in W2.
  set (tmp2 := export_all export_ct p v tmp1) in *.
  rewrite (fflush_ok tmp2 P2). unfold ftell. cbn [fo_written].
  destruct (Z.ltb_spec (Z.of_nat (length (fo_written tmp2))) 0); [lia|].
  unfold rewind. rewrite fflush_ok by (cbn; lia). cbn [fo_pending fo_room fo_written].
  destruct (Z.leb_spec (Z.of_nat 0) (fo_room tmp2 - Z.of_nat (fo_pending tmp2))); [|lia].
  rewrite Nat2Z.id, repeat_length.
  rewrite fread_enough by (cbn [f_open fi_pos fi_data]; rewrite drop_0; lia).
  cbn [f_open fi_pos fi_data]. rewrite drop_0, firstn_all, Z.eqb_refl.
  rewrite drop_ge by (rewrite repeat_length; lia).
  rewrite app_nil_r, W2. reflexivity.
Qed.

(** What deserialization comes to: the buffer has to pass through the
    temporary file, and then the count alone decides. *)
Lemma deserialize_spec p input w out :
  deserialize_buffer_to_TFHECiphertextVec host import_ct input (Some p) w out
  = if (4 <=? Z.of_nat (length input)) && w_tmpfile_ok w
       && (Z.of_nat (length input) <=? w_free w)
    then (true, import_all import_ct p (Z.to_nat (of_be_bytes (take 4 input))) (drop 4 input))
    else (false, out).
Proof.
  unfold deserialize_buffer_to_TFHECiphertextVec, tmpfile.
  destruct (Z.ltb_spec (Z.of_nat (length input)) 4) as [Hshort|Hlong].
  { destruct (Z.leb_spec 4 (Z.of_nat (length input))); [lia | reflexivity]. }
  destruct (Z.leb_spec 4 (Z.of_nat (length input))) as [_|]; [|lia]. cbn [andb].
  destruct (w_tmpfile_ok w); [|reflexivity]. cbn [andb].
  unfold fwrite. cbn [fo_pending fo_written fo_room fo_error app Nat.add].
  assert (Hread : forall g,
    fo_written g = input -> fo_pending g = 0%nat -> 0 <= fo_room g ->
    (let tmp := rewind g in
     let '(be_n, tmp) := fread tmp 4 in
     if negb (Z.of_nat (length be_n) =? 4) then (false, out)
     else (true, import_all import_ct p
                   (Z.to_nat (ntohl host (load_uint32 host be_n)))
                   (drop (fi_pos tmp) (fi_data tmp))))
    = (true, import_all import_ct p (Z.to_nat (of_be_bytes (take 4 input))) (drop 4 input))).
  { intros g Hg Hp Hr. cbv zeta. unfold rewind. rewrite Hp.
    destruct (Z.leb_spec (Z.of_nat 0) (fo_room g)); [|lia].
    rewrite fflush_ok by (rewrite Hp; lia). cbn [fo_written]. rewrite Hg.
    destruct input as [|b0 [|b1 [|b2 [|b3 rest]]]]; cbn [length] in Hlong; try lia.
    rewrite fread_enough by (cbn [f_open fi_pos fi_data length]; rewrite drop_0; cbn; lia).
    cbn [f_open fi_pos fi_data]. rewrite drop_0.
    change (take 4 (b0 :: b1 :: b2 :: b3 :: rest)) with [b0; b1; b2; b3].
    cbn [length]. change (Z.of_nat 4 =? 4) with true. cbn [negb].
    rewrite load_ntohl. reflexivity. }
  destruct (Z.leb_spec (Z.of_nat (length input)) BUFSIZ) as [Hbuf|Hbuf].
  - (* the buffer holds the bytes until [rewind] *)
    rewrite Z.eqb_refl. cbn [negb].
    destruct (Z.leb_spec (Z.of_nat (length input)) (w_free w)) as [Hroom|Hroom].
    + unfold rewind at 1. cbn [fo_pending fo_room].
      destruct (Z.leb_spec (Z.of_nat (length input)) (w_free w)); [|lia].
      rewrite fflush_ok by (cbn; lia). cbn [fo_written fo_pending fo_room fo_error].
      specialize (Hread {| fo_written := input; fo_pending := 0%nat;
                           fo_room := w_free w - Z.of_nat (length input);
                           fo_error := false |} eq_refl eq_refl).
      cbv zeta in Hread. unfold rewind in Hread. cbn [fo_pending fo_room] in Hread.
      destruct (Z.leb_spec (Z.of_nat 0) (w_free w - Z.of_nat (length input))); [|lia].
      rewrite fflush_ok in Hread by (cbn; lia).
      cbn [fo_written fo_pending fo_room fo_error] in Hread.
      apply Hread. lia.
    + unfold rewind. cbn [fo_pending fo_room].
      destruct (Z.leb_spec (Z.of_nat (length input)) (w_free w)); [lia|].
      rewrite fread_short by (cbn [fi_pos fi_data]; rewrite drop_all; cbn; lia).
      cbn [fi_pos fi_data]. rewrite drop_all. reflexivity.
  - destruct (Z.leb_spec (Z.of_nat (length input)) (w_free w)) as [Hroom|Hroom].
    + rewrite Z.eqb_refl. cbn [negb].
      rewrite fflush_ok by (cbn; lia). cbn [fo_written fo_pending fo_room fo_error].
      apply (Hread {| fo_written := input; fo_pending := 0%nat;
                      fo_room := w_free w - Z.of_nat (length input);
                      fo_error := false |} eq_refl eq_refl).
      cbn. lia.
    + destruct (Z.eqb_spec (Z.max 0 (w_free w - Z.of_nat 0)) (Z.of_nat (length input)));
        [lia | reflexivity].
Qed.

Lemma deserialize_ok p L rest w out :
  w_tmpfile_ok w = true ->
  0 <= L < 2 ^ 32 ->
  4 + Z.of_nat (length rest) <= w_free w ->
  deserialize_buffer_to_TFHECiphertextVec host import_ct (be_bytes L ++ rest) (Some p) w out
  = (true, import_all import_ct p (Z.to_nat L) rest).
Proof.
  intros Ht HL Hroom. rewrite deserialize_spec.
  rewrite length_app, be_bytes_length, Ht.
  destruct (Z.leb_spec 4 (Z.of_nat (4 + length rest))) as [_|?]; [|lia].
  destruct (Z.leb_spec (Z.of_nat (4 + length rest)) (w_free w)) as [_|?]; [|lia].
  cbn [andb].
  rewrite (take_app_length' (be_bytes L)) by reflexivity.
  rewrite (drop_app_length' (be_bytes L)) by reflexivity.
  rewrite of_be_bytes_be_bytes by assumption. reflexivity.
Qed.

End Codec.


(** X11.  Codec round trip.  When the library imports what it exports, the
    temporary file can be made and holds the bytes, a vector of fewer than
    2^31 ciphertexts (the count goes through an [int]) that is serialized
    and then deserialized comes back unchanged; the buffer is the count,
    most significant byte first, and then the exported ciphertexts. *)
Theorem tfhe_codec_round_trip (host : byte_order) (ciphertext params : Type)
    (export_ct : params -> ciphertext -> list byte)
    (import_ct : params -> list byte -> ciphertext * list byte)
    (p : params) (v out : list ciphertext) (w : world) :
  import_inverts_export export_ct import_ct p ->
  w_tmpfile_ok w = true ->
  Z.of_nat (length v) < 2 ^ 31 ->
  4 + Z.of_nat (length (exported export_ct p v)) <= w_free w ->
  serialize_TFHECiphertextVec_to_buffer host export_ct v (Some p) w
    = (true, be_bytes (Z.of_nat (length v)) ++ exported export_ct p v) /\
  deserialize_buffer_to_TFHECiphertextVec host import_ct
    (snd (serialize_TFHECiphertextVec_to_buffer host export_ct v (Some p) w)) (Some p) w out
    = (true, v).
Proof.
  intros Hinv Ht Hn Hroom.
  assert (Hn' : Z.of_nat (length v) < 2 ^ 32) by lia.
  rewrite (serialize_ok host ciphertext params export_ct p v w Ht Hn' Hroom).
  split; [reflexivity|]. cbn [snd].
  rewrite deserialize_ok by (assumption || lia).
  rewrite Nat2Z.id, <- (app_nil_r (exported export_ct p v)).
  rewrite import_all_exported by assumption. reflexivity.
Qed.

Lemma tfhe_codec_round_trip_witness :
  serialize_TFHECiphertextVec_to_buffer LittleEndian toy_export [x0a; x0b] (Some tt) quiet_world
    = (true, be_bytes (Z.of_nat (length [x0a; x0b])) ++ exported toy_export tt [x0a; x0b]) /\
  deserialize_buffer_to_TFHECiphertextVec LittleEndian toy_import
    (snd (serialize_TFHECiphertextVec_to_buffer LittleEndian toy_export [x0a; x0b] (Some tt)
            quiet_world)) (Some tt) quiet_world []
    = (true, [x0a; x0b]).
Proof.
  apply (tfhe_codec_round_trip LittleEndian byte unit toy_export toy_import tt
           [x0a; x0b] [] quiet_world).
  - intros c rest. reflexivity.
  - reflexivity.
  - vm_compute. reflexivity.
  - vm_compute. discriminate.
Defined.

(** X12.  What the decoder checks.  For a buffer whose count is below 2^31,
    deserialization succeeds exactly when the parameter set is not null,
    the buffer has at least four bytes, and the temporary file can be made
    and holds the buffer.  The ciphertext bytes behind the count are not
    looked at: a buffer that is too short for its count is accepted all the
    same, and the result has as many elements as the count says.  On
    failure the output vector is left as it was. *)
Theorem deserialize_checks_the_count_only (host : byte_order) (ciphertext params : Type)
    (import_ct : params -> list byte -> ciphertext * list byte)
    (input : list byte) (p : option params) (w : world) (out : list ciphertext) :
  of_be_bytes (take 4 input) < 2 ^ 31 ->
  (fst (deserialize_buffer_to_TFHECiphertextVec host import_ct input p w out) = true
   <-> (is_Some p /\ 4 <= Z.of_nat (length input) /\ w_tmpfile_ok w = true
        /\ Z.of_nat (length input) <= w_free w)) /\
  (fst (deserialize_buffer_to_TFHECiphertextVec host import_ct input p w out) = true ->
   Z.of_nat (length (snd (deserialize_buffer_to_TFHECiphertextVec host import_ct
                            input p w out)))
   = of_be_bytes (take 4 input)) /\
  (fst (deserialize_buffer_to_TFHECiphertextVec host import_ct input p w out) = false ->
   snd (deserialize_buffer_to_TFHECiphertextVec host import_ct input p w out) = out).
Proof.
  intros _. destruct p as [p|].
  2:{ cbn. repeat split; try discriminate. intros ([x Hx] & _). discriminate. }
  rewrite (deserialize_spec host ciphertext params import_ct).
  destruct (Z.leb_spec 4 (Z.of_nat (length input))) as [Hlong|Hshort]; cbn [andb].
  2:{ cbn. repeat split; try discriminate. intros (_ & ? & _). lia. }
  destruct (w_tmpfile_ok w) eqn:Ht; cbn [andb].
  2:{ cbn. repeat split; try discriminate. intros (_ & _ & ? & _). discriminate. }
  destruct (Z.leb_spec (Z.of_nat (length input)) (w_free w)) as [Hroom|Hroom].
  2:{ cbn. repeat split; try discriminate. intros (_ & _ & _ & ?). lia. }
  cbn [fst snd]. rewrite import_all_length.
  destruct input as [|b0 [|b1 [|b2 [|b3 rest]]]]; cbn [length] in Hlong; try lia.
  change (take 4 (b0 :: b1 :: b2 :: b3 :: rest)) with [b0; b1; b2; b3].
  split; [|split].
  - split; [intros _|reflexivity]. repeat split; try assumption; eauto.
  - intros _. apply Z2Nat.id.
    unfold of_be_bytes, of_le_bytes. cbn [rev app]. unfold compose32.
    pose proof (Z_of_byte_range b0). pose proof (Z_of_byte_range b1).
    pose proof (Z_of_byte_range b2). pose proof (Z_of_byte_range b3).
    rewrite !Z.lor_nonneg, !Z.shiftl_nonneg. lia.
  - discriminate.
Qed.

Lemma deserialize_checks_the_count_only_witness :
  let input := [x00; x00; x00; x02] in
  (fst (deserialize_buffer_to_TFHECiphertextVec LittleEndian toy_import input (Some tt)
          quiet_world []) = true
   <-> (is_Some (Some tt) /\ 4 <= Z.of_nat (length input) /\ w_tmpfile_ok quiet_world = true
        /\ Z.of_nat (length input) <= w_free quiet_world)) /\
  (fst (deserialize_buffer_to_TFHECiphertextVec LittleEndian toy_import input (Some tt)
          quiet_world []) = true ->
   Z.of_nat (length (snd (deserialize_buffer_to_TFHECiphertextVec LittleEndian toy_import
                            input (Some tt) quiet_world [])))
   = of_be_bytes (take 4 input)) /\
  (fst (deserialize_buffer_to_TFHECiphertextVec LittleEndian toy_import input (Some tt)
          quiet_world []) = false ->
   snd (deserialize_buffer_to_TFHECiphertextVec LittleEndian toy_import input (Some tt)
          quiet_world []) = []).
Proof.
  intros input.
  apply (deserialize_checks_the_count_only LittleEndian byte unit toy_import input
           (Some tt) quiet_world []).
  vm_compute. reflexivity.
Defined.

(** X13.  TFHE spool round trip.  A ciphertext vector appended to a new
    spool file is what the first [next] of a reader opened on that file
    returns, and the second [next] reports the end; nothing is printed on
    [std::cerr].  This needs a library that imports what it exports, a
    serialized vector of at most 2^30 bytes, a path with a directory part
    that exists or can be made, a file that can be written, and a device
    that holds the frame and the two temporary files. *)
Theorem tfhe_spool_round_trip (host : byte_order) (ciphertext params : Type)
    (export_ct : params -> ciphertext -> list byte)
    (import_ct : params -> list byte -> ciphertext * list byte)
    (path : string) (p : params) (v out : list ciphertext) (w : world) :
  import_inverts_export export_ct import_ct p ->
  w_tmpfile_ok w = true ->
  Z.of_nat (length v) < 2 ^ 31 ->
  4 + Z.of_nat (length (exported export_ct p v)) <= 2 ^ 30 ->
  2 * (4 + Z.of_nat (length (exported export_ct p v))) + 4 <= w_free w ->
  parent_path path <> ""%string ->
  parent_path path ∉ w_mkdir_denied w ->
  path ∉ w_unwritable w ->
  w_files w !! path = None ->
  exists w1 reader reader1 reader2,
    append_TFHE_vector_to_file host export_ct path v (Some p) w = (Returned tt, w1) /\
    w_stderr w1 = w_stderr w /\
    FileTFHEVectorReader_new path (Some p) w1 = (Returned reader, w1) /\
    FileTFHEVectorReader_next host import_ct reader out w1 = (Returned true, reader1, v) /\
    FileTFHEVectorReader_next host import_ct reader1 v w1 = (Returned false, reader2, v).
Proof.
  intros Hinv Ht Hn Hcap Hroom Hp Hm Hw Hnew.
  set (buf := be_bytes (Z.of_nat (length v)) ++ exported export_ct p v).
  assert (Hbuf : Z.of_nat (length buf) = 4 + Z.of_nat (length (exported export_ct p v))).
  { unfold buf. rewrite length_app, be_bytes_length. lia. }
  set (w0 := get_mutex_for_path path w).
  assert (Hw0 : w_files w0 = w_files w /\ w_unwritable w0 = w_unwritable w /\
                w_free w0 = w_free w /\ w_mkdir_denied w0 = w_mkdir_denied w /\
                w_tmpfile_ok w0 = w_tmpfile_ok w /\ w_stderr w0 = w_stderr w /\
                path ∈ g_path_mutexes w0).
  { unfold w0, get_mutex_for_path. case_decide; cbn; repeat split; try assumption.
    set_solver. }
  destruct Hw0 as (Hf0 & Hu0 & Hr0 & Hm0 & Ht0 & He0 & Hg0).
  set (w1 := spool_gains path (frame_bytes buf) w0).
  assert (Happ : append_TFHE_vector_to_file host export_ct path v (Some p) w
                 = (Returned tt, w1)).
  { unfold append_TFHE_vector_to_file. fold w0.
    rewrite create_parent_directories_ok by (rewrite ?Hm0; assumption).
    unfold fopen_ab. rewrite Hu0. case_decide; [contradiction|].
    rewrite serialize_ok; [|cbn; rewrite Ht0; exact Ht|lia|cbn [set_files w_free]; lia].
    cbn [negb]. fold buf.
    destruct (write_FILE_ok host
                {| fo_written := []; fo_pending := 0%nat; fo_room := w_free w0;
                   fo_error := false |} buf) as (f' & E & W & _ & _ & P);
      [lia | cbn [fo_pending fo_room]; lia |].
    rewrite E, (fflush_ok f' P), fclose_out_ok by (cbn; lia). f_equal.
    cbn [fo_written]. rewrite W. unfold w1, spool_gains. cbn [fo_written app set_files w_files w_free].
    rewrite lookup_insert_eq, insert_insert_eq. cbn [default id].
    reflexivity. }
  assert (Hfile : w_files w1 !! path = Some (frame_bytes buf)).
  { unfold w1, spool_gains. cbn [set_files w_files].
    rewrite lookup_insert_eq, Hf0, Hnew. reflexivity. }
  assert (Hg1 : get_mutex_for_path path w1 = w1).
  { unfold get_mutex_for_path. case_decide as H; [reflexivity|].
    exfalso. apply H. exact Hg0. }
  assert (Hfree1 : Z.of_nat (length buf) <= w_free w1).
  { unfold w1, spool_gains. cbn [set_files w_free]. rewrite frame_bytes_length. lia. }
  assert (Ht1 : w_tmpfile_ok w1 = true) by (cbn; rewrite Ht0; exact Ht).
  destruct (read_FILE_at_end host
              {| fi_data := frame_bytes buf; fi_pos := (0 + 4 + length buf)%nat;
                 fi_eof := false |} {| v_bytes := []; v_resized := [] |}) as [f' Hend].
  { cbn [fi_pos fi_data]. apply drop_ge.
    unfold frame_bytes. rewrite length_app, be_bytes_length. lia. }
  exists w1.
  exists {| ftr_f := Some (f_open (frame_bytes buf)); ftr_params := Some p; ftr_path := path |}.
  exists {| ftr_f := Some {| fi_data := frame_bytes buf; fi_pos := (0 + 4 + length buf)%nat;
                             fi_eof := false |};
            ftr_params := Some p; ftr_path := path |}.
  exists {| ftr_f := Some f'; ftr_params := Some p; ftr_path := path |}.
  split; [exact Happ|]. split; [exact He0|]. split; [|split].
  - unfold FileTFHEVectorReader_new. rewrite Hg1. unfold fopen_rb. rewrite Hfile. reflexivity.
  - unfold FileTFHEVectorReader_next. cbn [ftr_f ftr_params ftr_path].
    rewrite (read_FILE_frame host (f_open (frame_bytes buf)) _ buf []);
      [|cbn [f_open fi_pos fi_data]; rewrite drop_0, app_nil_r; reflexivity|lia].
    cbn [v_bytes]. unfold buf.
    rewrite deserialize_ok; [|exact Ht1|lia|fold buf; lia].
    cbn [negb]. rewrite Nat2Z.id, <- (app_nil_r (exported export_ct p v)).
    rewrite import_all_exported by exact Hinv. reflexivity.
  - unfold FileTFHEVectorReader_next.
    cbn [ftr_f ftr_params ftr_path f_open fi_data fi_pos fi_eof].
    rewrite Hend. reflexivity.
Qed.

Lemma tfhe_spool_round_trip_witness :
  exists w1 reader reader1 reader2,
    append_TFHE_vector_to_file LittleEndian toy_export "../data_tfhe/tfhe.bin" [x0a; x0b]
      (Some tt) quiet_world = (Returned tt, w1) /\
    w_stderr w1 = w_stderr quiet_world /\
    FileTFHEVectorReader_new "../data_tfhe/tfhe.bin" (Some tt) w1 = (Returned reader, w1) /\
    FileTFHEVectorReader_next LittleEndian toy_import reader [] w1
      = (Returned true, reader1, [x0a; x0b]) /\
    FileTFHEVectorReader_next LittleEndian toy_import reader1 [x0a; x0b] w1
      = (Returned false, reader2, [x0a; x0b]).
Proof.
  apply (tfhe_spool_round_trip LittleEndian byte unit toy_export toy_import
           "../data_tfhe/tfhe.bin" tt [x0a; x0b] [] quiet_world).
  - intros c rest. reflexivity.
  - reflexivity.
  - vm_compute. reflexivity.
  - vm_compute. discriminate.
  - vm_compute. discriminate.
  - vm_compute. discriminate.
  - cbn [quiet_world w_mkdir_denied]. set_solver.
  - cbn [quiet_world w_unwritable]. set_solver.
  - apply lookup_empty.
Defined.

(** ** Sending a spool *)

Lemma send_to_endpoint_ok endpoint data w :
  endpoint_works endpoint w ->
  send_to_endpoint endpoint data w = (Returned tt, queued endpoint [data] w).
Proof.
  intros [Hb Hs]. unfold send_to_endpoint, queued.
  destruct (w_sockets w !! endpoint) as [q|] eqn:Hq.
  - rewrite Hs, Hq. reflexivity.
  - destruct Hb as [[q Hq']|Hb]; [discriminate|].
    case_decide; [contradiction|]. cbn [w_send_fault set_sockets w_sockets].
    rewrite Hs, lookup_insert_eq, insert_insert_eq, ?Hq. reflexivity.
Qed.

Lemma queued_works endpoint msgs w :
  endpoint_works endpoint w -> endpoint_works endpoint (queued endpoint msgs w).
Proof.
  intros [Hb Hs]. split; [|exact Hs]. left. unfold queued. cbn [set_sockets w_sockets].
  rewrite lookup_insert_eq. eexists. reflexivity.
Qed.

Lemma queued_twice endpoint a b w :
  queued endpoint b (queued endpoint a w) = queued endpoint (a ++ b) w.
Proof.
  unfold queued. cbn [set_sockets w_sockets].
  rewrite lookup_insert_eq, insert_insert_eq. cbn [default id]. rewrite <- app_assoc.
  reflexivity.
Qed.

Lemma send_items_ok endpoint items : forall w,
  items <> [] ->
  endpoint_works endpoint w ->
  send_items endpoint items w = (Returned tt, queued endpoint items w).
Proof.
  induction items as [|v items IH]; intros w Hne Hw; [congruence|].
  cbn [send_items]. unfold send_vector_via_zmq. rewrite send_to_endpoint_ok by assumption.
  destruct items as [|v' items]; [reflexivity|].
  rewrite IH; [|discriminate|apply queued_works; assumption].
  rewrite queued_twice. reflexivity.
Qed.

(** An endpoint that is not bound and cannot be: every send is swallowed. *)
Lemma send_items_lost endpoint items : forall w,
  w_sockets w !! endpoint = None ->
  endpoint ∈ w_unbindable w ->
  exists w',
    send_items endpoint items w = (Returned tt, w') /\
    w_sockets w' = w_sockets w /\ w_files w' = w_files w /\
    w_unwritable w' = w_unwritable w /\
    length (w_stderr w') = (length (w_stderr w) + length items)%nat.
Proof.
  induction items as [|v items IH]; intros w Hq Hu.
  - exists w. cbn. repeat split; lia.
  - cbn [send_items]. unfold send_vector_via_zmq, send_to_endpoint. rewrite Hq.
    case_decide; [|contradiction].
    destruct (IH (cerr ("Error in Funktion ZmqPushManager::send_to_endpoint: "
                        +:+ what (zmq_error "bind")) w))
      as (w' & E & Hs & Hf & Hw & Hl); [exact Hq | exact Hu |].
    exists w'. rewrite E. repeat split; try assumption.
    rewrite Hl. cbn [cerr w_stderr length]. rewrite length_app. cbn [length]. lia.
Qed.

Lemma truncate_file_files path w :
  path ∉ w_unwritable w -> w_files (truncate_file path w) !! path = Some [].
Proof.
  intros Hw. unfold truncate_file.
  assert (Hw1 : path ∉ w_unwritable (get_mutex_for_path path w))
    by (unfold get_mutex_for_path; case_decide; assumption).
  case_decide; [contradiction|]. cbn [set_files w_files]. apply lookup_insert_eq.
Qed.

Lemma truncate_file_rest path w :
  w_sockets (truncate_file path w) = w_sockets w /\
  w_stderr (truncate_file path w) = w_stderr w.
Proof.
  unfold truncate_file, get_mutex_for_path. repeat case_decide; split; reflexivity.
Qed.

(** X14.  A spool is sent frame by frame, in order.  On an endpoint that
    works, [send_all_vectors_via_zmq] puts the payloads of the frames of the
    spool on the queue of the endpoint, behind what is there, in the order
    of the file, prints nothing, and with [remove_after_send] leaves the
    file empty, without it leaves the file as it is. *)
Theorem spool_is_sent_in_order (host : byte_order) (path zmq_endpoint : string)
    (remove_after_send : bool) (frames : list (list byte)) (w : world) :
  w_files w !! path = Some (spool_bytes frames) ->
  frames <> [] ->
  (forall v, v ∈ frames -> Z.of_nat (length v) <= 2 ^ 30) ->
  endpoint_works zmq_endpoint w ->
  path ∉ w_unwritable w ->
  exists w',
    send_all_vectors_via_zmq host path zmq_endpoint remove_after_send w
      = (Some (Returned tt), w') /\
    w_sockets w' !! zmq_endpoint
      = Some (default [] (w_sockets w !! zmq_endpoint) ++ frames) /\
    w_files w' !! path = Some (if remove_after_send then [] else spool_bytes frames) /\
    w_stderr w' = w_stderr w.
Proof.
  intros Hf Hne Hlen He Hw. unfold send_all_vectors_via_zmq.
  rewrite (read_all_of_spool host path frames w Hf Hlen).
  destruct frames as [|v l]; [congruence|]. cbv iota.
  assert (E : v :: l <> []) by discriminate.
  set (frames := v :: l) in *.
  set (w0 := get_mutex_for_path path w).
  assert (H0 : w_files w0 = w_files w /\ w_sockets w0 = w_sockets w /\
               w_unwritable w0 = w_unwritable w /\ w_stderr w0 = w_stderr w /\
               endpoint_works zmq_endpoint w0).
  { unfold w0, get_mutex_for_path. case_decide; repeat split; try reflexivity; apply He. }
  destruct H0 as (Hf0 & Hs0 & Hu0 & He0 & Hw0).
  rewrite send_items_ok by assumption.
  destruct remove_after_send; eexists; (split; [reflexivity|]).
  - destruct (truncate_file_rest path (queued zmq_endpoint frames w0)) as [-> ->].
    rewrite truncate_file_files by (cbn; rewrite Hu0; exact Hw).
    unfold queued. cbn [set_sockets w_sockets w_stderr].
    rewrite lookup_insert_eq, Hs0, He0. repeat split.
  - unfold queued. cbn [set_sockets w_sockets w_stderr w_files].
    rewrite lookup_insert_eq, Hs0, He0, Hf0, Hf. repeat split.
Qed.

Lemma spool_is_sent_in_order_witness :
  let w := set_files (<["spool.bin"%string := spool_bytes [[x01]; [x02; x03]]]> ∅)
             (2 ^ 40) quiet_world in
  exists w',
    send_all_vectors_via_zmq LittleEndian "spool.bin" "tcp://*:5556" true w
      = (Some (Returned tt), w') /\
    w_sockets w' !! "tcp://*:5556"%string
      = Some (default [] (w_sockets w !! "tcp://*:5556"%string) ++ [[x01]; [x02; x03]]) /\
    w_files w' !! "spool.bin"%string
      = Some (if true then [] else spool_bytes [[x01]; [x02; x03]]) /\
    w_stderr w' = w_stderr w.
Proof.
  intros w.
  apply (spool_is_sent_in_order LittleEndian "spool.bin" "tcp://*:5556" true
           [[x01]; [x02; x03]] w).
  - vm_compute. reflexivity.
  - discriminate.
  - intros v Hv.
    repeat (apply elem_of_cons in Hv as [->|Hv]; [cbn; lia|]).
    apply elem_of_nil in Hv. contradiction.
  - split; [right; cbn; set_solver | apply lookup_empty].
  - cbn. set_solver.
Defined.

(** X15.  A spool can be lost on the way.  When the endpoint is not bound
    and cannot be bound, [send_all_vectors_via_zmq] with
    [remove_after_send] still returns normally and still empties the file:
    no message has reached a queue, one line per frame is on [std::cerr],
    and the frames are gone. *)
Theorem spool_is_emptied_though_nothing_was_sent (host : byte_order)
    (path zmq_endpoint : string) (frames : list (list byte)) (w : world) :
  w_files w !! path = Some (spool_bytes frames) ->
  frames <> [] ->
  (forall v, v ∈ frames -> Z.of_nat (length v) <= 2 ^ 30) ->
  w_sockets w !! zmq_endpoint = None ->
  zmq_endpoint ∈ w_unbindable w ->
  path ∉ w_unwritable w ->
  exists w',
    send_all_vectors_via_zmq host path zmq_endpoint true w = (Some (Returned tt), w') /\
    w_sockets w' = w_sockets w /\
    w_files w' !! path = Some [] /\
    length (w_stderr w') = (length (w_stderr w) + length frames)%nat.
Proof.
  intros Hf Hne Hlen Hq Hu Hw. unfold send_all_vectors_via_zmq.
  rewrite (read_all_of_spool host path frames w Hf Hlen).
  destruct frames as [|v l]; [congruence|]. cbv iota.
  assert (E : v :: l <> []) by discriminate.
  set (frames := v :: l) in *.
  set (w0 := get_mutex_for_path path w).
  assert (H0 : w_sockets w0 = w_sockets w /\ w_unbindable w0 = w_unbindable w /\
               w_unwritable w0 = w_unwritable w /\ w_stderr w0 = w_stderr w).
  { unfold w0, get_mutex_for_path. case_decide; repeat split; reflexivity. }
  destruct H0 as (Hs0 & Hb0 & Hu0 & He0).
  destruct (send_items_lost zmq_endpoint frames w0) as (w1 & -> & Hs1 & Hf1 & Hu1 & Hl1).
  { rewrite Hs0. exact Hq. }
  { rewrite Hb0. exact Hu. }
  eexists. split; [reflexivity|].
  destruct (truncate_file_rest path w1) as [-> ->].
  rewrite truncate_file_files by (rewrite Hu1, Hu0; exact Hw).
  rewrite Hs1, Hs0, Hl1, He0. repeat split.
Qed.

Lemma spool_is_emptied_though_nothing_was_sent_witness :
  let w := set_files (<["/ro/keep.bin"%string := spool_bytes [[x01]; [x02; x03]]]> ∅)
             (2 ^ 40) readonly_world in
  exists w',
    send_all_vectors_via_zmq LittleEndian "/ro/keep.bin" "tcp://*:5556" true w
      = (Some (Returned tt), w') /\
    w_sockets w' = w_sockets w /\
    w_files w' !! "/ro/keep.bin"%string = Some [] /\
    length (w_stderr w') = (length (w_stderr w) + length [[x01]; [x02; x03]])%nat.
Proof.
  intros w.
  apply (spool_is_emptied_though_nothing_was_sent LittleEndian "/ro/keep.bin"
           "tcp://*:5556" [[x01]; [x02; x03]] w).
  - vm_compute. reflexivity.
  - discriminate.
  - intros v Hv.
    repeat (apply elem_of_cons in Hv as [->|Hv]; [cbn; lia|]).
    apply elem_of_nil in Hv. contradiction.
  - apply lookup_empty.
  - cbn. set_solver.
  - cbn. set_solver.
Defined.

Lemma truncate_file_network path w :
  w_sockets (truncate_file path w) = w_sockets w /\
  w_unbindable (truncate_file path w) = w_unbindable w /\
  w_send_fault (truncate_file path w) = w_send_fault w /\
  w_stderr (truncate_file path w) = w_stderr w.
Proof.
  unfold truncate_file, get_mutex_for_path. repeat case_decide; repeat split; reflexivity.
Qed.

Lemma send_all_TFHE_on_missing_file host (ciphertext params : Type)
    (export_ct : params -> ciphertext -> list byte)
    (import_ct : params -> list byte -> ciphertext * list byte)
    path zmq_endpoint (p : option params) remove_after_send w :
  w_files w !! path = None ->
  send_all_TFHE_vectors_via_zmq host export_ct import_ct path zmq_endpoint p
    remove_after_send w
  = (Some (Returned tt),
     if remove_after_send then truncate_file path (get_mutex_for_path path w)
     else get_mutex_for_path path w).
Proof.
  intros Hf. unfold send_all_TFHE_vectors_via_zmq, FileTFHEVectorReader_new, fopen_rb.
  rewrite get_mutex_for_path_files, Hf. cbn [fmap option_fmap option_map ftr_f default length].
  cbn [send_all_TFHE_loop]. unfold FileTFHEVectorReader_next. cbn [ftr_f].
  destruct remove_after_send; reflexivity.
Qed.

(** X16.  The two overloads differ on a missing file.  The byte overload of
    [send_all_vectors_via_zmq] throws "cannot open file" and changes
    nothing.  The TFHE overload returns normally and sends nothing; with
    [remove_after_send] it creates the file, empty, where the path can be
    written. *)
Theorem send_all_on_missing_file (host : byte_order) (ciphertext params : Type)
    (export_ct : params -> ciphertext -> list byte)
    (import_ct : params -> list byte -> ciphertext * list byte)
    (path zmq_endpoint : string) (p : option params) (remove_after_send : bool)
    (w : world) :
  w_files w !! path = None ->
  send_all_vectors_via_zmq host path zmq_endpoint remove_after_send w
    = (Some (Threw (runtime_error ("FileVectorReader: cannot open file: " +:+ path))), w) /\
  exists w',
    send_all_TFHE_vectors_via_zmq host export_ct import_ct path zmq_endpoint p
      remove_after_send w = (Some (Returned tt), w') /\
    w_sockets w' = w_sockets w /\ w_stderr w' = w_stderr w /\
    w_files w' !! path
      = if remove_after_send && negb (bool_decide (path ∈ w_unwritable w))
        then Some [] else None.
Proof.
  intros Hf. split.
  - unfold send_all_vectors_via_zmq, read_all_vectors_from_file, FileVectorReader_new,
      ifstream_open. rewrite Hf. reflexivity.
  - rewrite send_all_TFHE_on_missing_file by exact Hf.
    eexists. split; [reflexivity|].
    assert (H0 : w_sockets (get_mutex_for_path path w) = w_sockets w /\
                 w_stderr (get_mutex_for_path path w) = w_stderr w /\
                 w_unwritable (get_mutex_for_path path w) = w_unwritable w).
    { unfold get_mutex_for_path. case_decide; repeat split; reflexivity. }
    destruct H0 as (Hs & He & Hu).
    destruct remove_after_send; cbn [andb].
    + destruct (truncate_file_network path (get_mutex_for_path path w)) as (-> & _ & _ & ->).
      split; [exact Hs|]. split; [exact He|].
      case_bool_decide as Hw; cbn [negb].
      * unfold truncate_file. rewrite get_mutex_for_path_twice.
        case_decide as Hw'; [|rewrite Hu in Hw'; contradiction].
        rewrite get_mutex_for_path_files. exact Hf.
      * apply truncate_file_files. rewrite Hu. exact Hw.
    + split; [exact Hs|]. split; [exact He|]. rewrite get_mutex_for_path_files. exact Hf.
Qed.

Lemma send_all_on_missing_file_witness :
  send_all_vectors_via_zmq LittleEndian "nothing.bin" "tcp://*:5557" true quiet_world
    = (Some (Threw (runtime_error ("FileVectorReader: cannot open file: " +:+ "nothing.bin"))),
       quiet_world) /\
  exists w',
    send_all_TFHE_vectors_via_zmq LittleEndian toy_export toy_import "nothing.bin"
      "tcp://*:5557" (Some tt) true quiet_world = (Some (Returned tt), w') /\
    w_sockets w' = w_sockets quiet_world /\ w_stderr w' = w_stderr quiet_world /\
    w_files w' !! "nothing.bin"%string
      = if true && negb (bool_decide ("nothing.bin"%string ∈ w_unwritable quiet_world))
        then Some [] else None.
Proof.
  apply (send_all_on_missing_file LittleEndian byte unit toy_export toy_import
           "nothing.bin" "tcp://*:5557" (Some tt) true quiet_world).
  apply lookup_empty.
Defined.

(** ** The client *)



(** ** Payloads and control frames *)

(** What a stream written from its start holds begins with its first
    byte [b0], until the device has refused to take even that. *)
Lemma fflush_first_byte b0 f :
  (exists rest, fo_written f = b0 :: rest) \/
  (fo_room f <= 0 /\ fo_pending f = length (fo_written f)) ->
  fo_pending (fflush f) = 0%nat /\
  ((exists rest, fo_written (fflush f) = b0 :: rest) \/
   (fo_room (fflush f) <= 0 /\ fo_written (fflush f) = [])).
Proof.
  intros K. unfold fflush.
  destruct (Z.leb_spec (Z.of_nat (fo_pending f)) (fo_room f)) as [Hok|Hfail];
    cbn [fo_pending fo_written fo_room]; (split; [reflexivity|]).
  - destruct K as [K|[Hr Hp]]; [left; exact K|right].
    split; [lia|]. destruct (fo_written f); [reflexivity | cbn in Hp; lia].
  - destruct K as [[rest K]|[Hr Hp]].
    + rewrite K.
      destruct (length (b0 :: rest) - fo_pending f + Z.to_nat (fo_room f))%nat;
        [right; split; [lia | reflexivity] | left; eexists; reflexivity].
    + right. split; [lia|].
      replace (Z.to_nat (fo_room f)) with 0%nat by lia.
      rewrite Hp, Nat.sub_diag. reflexivity.
Qed.

Lemma fflush_written_idle f :
  fo_pending f = 0%nat -> fo_written (fflush f) = fo_written f.
Proof.
  intros Hp. unfold fflush. rewrite Hp.
  destruct (_ <=? _); cbn [fo_written]; [reflexivity|].
  rewrite Nat.sub_0_r. apply firstn_all2. lia.
Qed.

Lemma fwrite_first_byte b0 f bs :
  (exists rest, fo_written f = b0 :: rest) \/
  (fo_room f <= 0 /\ fo_pending f = length (fo_written f)) ->
  (exists rest, fo_written (snd (fwrite f bs)) = b0 :: rest) \/
  (fo_room (snd (fwrite f bs)) <= 0 /\
   fo_pending (snd (fwrite f bs)) = length (fo_written (snd (fwrite f bs)))).
Proof.
  intros K.
  set (f' := {| fo_written := fo_written f ++ bs;
                fo_pending := (fo_pending f + length bs)%nat;
                fo_room := fo_room f; fo_error := fo_error f |}).
  assert (K' : (exists rest, fo_written f' = b0 :: rest) \/
               (fo_room f' <= 0 /\ fo_pending f' = length (fo_written f'))).
  { destruct K as [[rest K]|[Hr Hp]]; [left|right]; cbn [f' fo_written fo_room fo_pending].
    - rewrite K. eexists. reflexivity.
    - split; [exact Hr|]. rewrite length_app, Hp. reflexivity. }
  assert (Hsync : (exists rest, fo_written (fflush f') = b0 :: rest) \/
                  (fo_room (fflush f') <= 0 /\
                   fo_pending (fflush f') = length (fo_written (fflush f')))).
  { destruct (fflush_first_byte b0 f' K') as [Hp [Hs|[Hr Hw]]]; [left; exact Hs|right].
    rewrite Hp, Hw. split; [exact Hr | reflexivity]. }
  unfold fwrite. fold f'.
  destruct (_ <=? BUFSIZ); [exact K'|].
  destruct (_ <=? fo_room f); exact Hsync.
Qed.

Lemma export_all_first_byte (ciphertext params : Type)
    (export_ct : params -> ciphertext -> list byte) b0 p v : forall tmp,
  (exists rest, fo_written tmp = b0 :: rest) \/
  (fo_room tmp <= 0 /\ fo_pending tmp = length (fo_written tmp)) ->
  (exists rest, fo_written (export_all export_ct p v tmp) = b0 :: rest) \/
  (fo_room (export_all export_ct p v tmp) <= 0 /\
   fo_pending (export_all export_ct p v tmp)
   = length (fo_written (export_all export_ct p v tmp))).
Proof.
  induction v as [|c v IH]; intros tmp K; cbn [export_all]; [exact K|].
  apply IH, fwrite_first_byte, K.
Qed.

Lemma byte_at_3_small n : 0 <= n < 254 * 2 ^ 24 -> 0 <= byte_at 3 n < 254.
Proof.
  intros Hn. unfold byte_at. change 255 with (Z.ones 8).
  rewrite Z.land_ones, Z.shiftr_div_pow2 by lia. change (8 * 3) with 24.
  assert (0 <= n / 2 ^ 24 < 254).
  { split; [apply Z.div_pos; lia | apply Z.div_lt_upper_bound; lia]. }
  rewrite Z.mod_small by lia. assumption.
Qed.

Lemma byte_of_Z_not z b : 0 <= z < 256 -> z <> Z_of_byte b -> Byte.eqb (byte_of_Z z) b = false.
Proof.
  intros Hz Hne. destruct (Byte.eqb (byte_of_Z z) b) eqn:E; [|reflexivity].
  apply Byte.byte_dec_bl in E. apply (f_equal Z_of_byte) in E.
  rewrite Z_of_byte_of_Z in E by assumption. contradiction.
Qed.

(** X18.  A serialized ciphertext vector is never taken for a control frame.
    The buffer starts with the count, most significant byte first, so for
    fewer than 254 * 2^24 ciphertexts its first byte is neither 0xFE nor
    0xFF: the receiver stores it, with or without [expect_eof_frame]. *)
Theorem serialized_vector_is_a_data_message (host : byte_order)
    (ciphertext params : Type) (export_ct : params -> ciphertext -> list byte)
    (v : list ciphertext) (p : option params) (w : world) (buf : list byte)
    (expect_eof_frame : bool) :
  serialize_TFHECiphertextVec_to_buffer host export_ct v p w = (true, buf) ->
  Z.of_nat (length v) < 254 * 2 ^ 24 ->
  data_message expect_eof_frame buf = true.
Proof.
  unfold serialize_TFHECiphertextVec_to_buffer, tmpfile, fwrite_item.
  destruct p as [p|]; [|discriminate].
  destruct (w_tmpfile_ok w); [|discriminate].
  intros E Hn.
  assert (Hsz : to_uint32 (Z.of_nat (length v)) = Z.of_nat (length v)).
  { unfold to_uint32. apply Z.mod_small. lia. }
  rewrite Hsz, store_htonl in E.
  set (n := Z.of_nat (length v)) in *.
  set (b0 := byte_of_Z (byte_at 3 n)).
  (* the count is in the buffer of the stream *)
  assert (Hbe : fwrite {| fo_written := []; fo_pending := 0%nat; fo_room := w_free w;
                          fo_error := false |} (be_bytes n)
                = (4, {| fo_written := be_bytes n; fo_pending := 4%nat;
                         fo_room := w_free w; fo_error := false |})).
  { unfold fwrite. cbn [fo_pending fo_written fo_room fo_error app Nat.add].
    rewrite be_bytes_length. pose proof BUFSIZ_ge_4.
    destruct (Z.leb_spec (Z.of_nat 4) BUFSIZ); [reflexivity | lia]. }
  rewrite Hbe, be_bytes_length in E.
  change (4 =? Z.of_nat 4) with true in E. cbv iota in E.
  change (1 =? 1) with true in E. cbn [negb] in E.
  set (tmp1 := {| fo_written := be_bytes n; fo_pending := 4%nat; fo_room := w_free w;
                  fo_error := false |}) in E.
  set (tmp2 := export_all export_ct p (take (Z.to_nat n) v) tmp1) in E.
  assert (K2 : (exists rest, fo_written tmp2 = b0 :: rest) \/
               (fo_room tmp2 <= 0 /\ fo_pending tmp2 = length (fo_written tmp2))).
  { apply export_all_first_byte. left. eexists. reflexivity. }
  destruct (fflush_first_byte b0 tmp2 K2) as [Hp3 K3].
  set (tmp3 := fflush tmp2) in *.
  (* what is read back is a prefix of what the file holds *)
  try (destruct (ftell tmp3 <? 0); [discriminate|]).
  assert (Hdrop : drop (fi_pos (rewind tmp3)) (fi_data (rewind tmp3)) = fo_written tmp3 \/
                  drop (fi_pos (rewind tmp3)) (fi_data (rewind tmp3)) = []).
  { unfold rewind. rewrite (fflush_written_idle tmp3 Hp3).
    destruct (_ <=? _); cbn [f_open fi_pos fi_data];
      [left; apply drop_0 | right; apply drop_all]. }
  destruct (fread (rewind tmp3) (length (repeat x00 (Z.to_nat (ftell tmp3)))))
    as [bs tmp4] eqn:Hread.
  assert (Hbs : bs = [] \/ exists rest, bs = b0 :: rest).
  { assert (Hk : exists k, bs = take k (drop (fi_pos (rewind tmp3)) (fi_data (rewind tmp3)))).
    { unfold fread in Hread. destruct (_ <=? _)%nat in Hread; injection Hread as <- _.
      - eexists. reflexivity.
      - eexists. symmetry. apply firstn_all. }
    destruct Hk as [k ->].
    destruct Hdrop as [->| ->]; [|left; apply take_nil].
    destruct K3 as [[rest ->]|[_ ->]]; [|left; apply take_nil].
    destruct k; [left; reflexivity | right; eexists; reflexivity]. }
  destruct (Z.eqb_spec (Z.of_nat (length bs))
              (Z.of_nat (length (repeat x00 (Z.to_nat (ftell tmp3)))))) as [Hlen|];
    [|discriminate].
  injection E as <-.
  rewrite drop_ge, app_nil_r by lia.
  destruct Hbs as [->|[rest ->]]; [destruct expect_eof_frame; reflexivity|].
  unfold data_message, b0. cbn [leading_byte_is].
  pose proof (byte_at_3_small n) as Hb.
  rewrite !byte_of_Z_not by (change (Z_of_byte xfe) with 254;
                             change (Z_of_byte xff) with 255; lia).
  destruct expect_eof_frame; reflexivity.
Qed.

Lemma serialized_vector_is_a_data_message_witness :
  data_message true
    (snd (serialize_TFHECiphertextVec_to_buffer LittleEndian toy_export [xfe; xff] (Some tt)
            quiet_world)) = true.
Proof.
  apply (serialized_vector_is_a_data_message LittleEndian byte unit toy_export [xfe; xff]
           (Some tt) quiet_world).
  - vm_compute. reflexivity.
  - vm_compute. reflexivity.
Defined.

(** ** From the client's spool to the server's *)

Lemma send_all_of_spool host path zmq_endpoint frames w :
  w_files w !! path = Some (spool_bytes frames) ->
  frames <> [] ->
  (forall v, v ∈ frames -> Z.of_nat (length v) <= 2 ^ 30) ->
  endpoint_works zmq_endpoint w ->
  send_all_vectors_via_zmq host path zmq_endpoint true w
  = (Some (Returned tt),
     truncate_file path (queued zmq_endpoint frames (get_mutex_for_path path w))).
Proof.
  intros Hf Hne Hlen He. unfold send_all_vectors_via_zmq.
  rewrite (read_all_of_spool host path frames w Hf Hlen).
  destruct frames as [|v l]; [congruence|]. cbv iota.
  rewrite send_items_ok; [reflexivity|discriminate|].
  unfold endpoint_works, get_mutex_for_path. case_decide; apply He.
Qed.

Lemma persisted_data msgs :
  (forall m, m ∈ msgs -> data_message true m = true) ->
  persisted (map Some msgs) = msgs /\
  (forall m, Some m ∈ map Some msgs -> true && leading_byte_is xff m = false).
Proof.
  induction msgs as [|m msgs IH]; intros Hd.
  - split; [reflexivity|]. intros m Hm. apply elem_of_nil in Hm. contradiction.
  - destruct IH as [IH1 IH2]; [intros x Hx; apply Hd; right; exact Hx|].
    pose proof (Hd m (list_elem_of_here _ _)) as Hm.
    apply andb_true_iff in Hm as [Hfe Hff]. apply negb_true_iff in Hfe, Hff.
    split.
    + cbn [map persisted]. rewrite Hfe, IH1. reflexivity.
    + intros x Hx. cbn [map] in Hx. apply elem_of_cons in Hx as [[= ->]|Hx].
      * exact Hff.
      * apply IH2, Hx.
Qed.

Lemma receive_sof_data_eof host path n msgs post w :
  0 <= n <= SIZE_MAX ->
  n = 0 \/ Z.of_nat (length msgs) <= n ->
  Z.of_nat (length msgs) <= SIZE_MAX ->
  (forall m, m ∈ msgs -> data_message true m = true) ->
  path ∉ w_unwritable w ->
  (forall m, m ∈ msgs -> Z.of_nat (length m) < 2 ^ 32) ->
  frames_size msgs <= w_free w ->
  receive_loop host path n true (Some [xfe] :: map Some msgs ++ Some [xff] :: post) 0 w
  = (RecvReturned (Z.of_nat (length msgs)), stored path msgs w).
Proof.
  intros Hn Hle Hsz Hd Hw Hlen Hroom.
  rewrite receive_loop_skip_sof.
  destruct (persisted_data msgs Hd) as [Hp Hff].
  assert (Hcase : (n = 0 \/ Z.of_nat (length msgs) < n) \/ Z.of_nat (length msgs) = n /\ 0 < n)
    by lia.
  destruct Hcase as [Hlt|[Heq Hpos]].
  - rewrite (receive_loop_stores host path n true (map Some msgs)); rewrite ?Hp;
      try assumption; try lia.
    rewrite receive_loop_eof_leading, Z.add_0_l. reflexivity.
  - destruct msgs as [|m0 msgs0] using rev_ind; [cbn in Heq; lia|]. clear IHmsgs0.
    rewrite map_app. cbn [map]. rewrite <- app_assoc. cbn [app].
    rewrite length_app in Heq. cbn [length] in Heq.
    destruct (persisted_data msgs0) as [Hp0 Hff0].
    { intros x Hx. apply Hd. apply elem_of_app. left. exact Hx. }
    rewrite (receive_loop_reaches_bound host path n true (map Some msgs0)
               (Some [xff] :: post) m0 w); rewrite ?Hp0; try assumption; try lia.
    + rewrite length_app. cbn [length]. rewrite Heq. reflexivity.
    + apply Hd. apply elem_of_app. right. left.
Qed.

(** X19.  End to end in the TRANSMIT_KREYVIUM mode.  A client that starts
    with an empty socket pool sends the SOF marker
    ([initialize_zmq_connection], called by its constructor) and then its
    latest spool ([transmit_latest_data]): the file that
    [get_latest_file_in_directory] selects in "../data_kreyvium/", when it
    selects one and that file holds one frame or more.  The queue then
    holds SOF, the payloads of the spool in order, and EOF, and the
    client's file is empty.  A server that receives this queue into a new
    file, with no bound or with a bound of at least the number of
    payloads, returns that number, and its spool then holds the bytes the
    client's spool held, provided no payload starts with 0xFE or 0xFF. *)
Theorem kreyvium_spool_reaches_the_server (host : byte_order) (ciphertext params : Type)
    (export_ct : params -> ciphertext -> list byte)
    (import_ct : params -> list byte -> ciphertext * list byte)
    (listing : string -> option (list directory_entry)) (tfhe_params : option params)
    (cpath spath zmq_endpoint_receiver : string) (n : Z)
    (frames : list (list byte)) (wc ws : world) :
  get_latest_file_in_directory "../data_kreyvium/" (listing "../data_kreyvium/") = cpath ->
  cpath <> ""%string ->
  w_files wc !! cpath = Some (spool_bytes frames) ->
  frames <> [] ->
  (forall v, v ∈ frames -> Z.of_nat (length v) <= 2 ^ 30) ->
  w_sockets wc !! zmq_endpoint_sender_HHE = None ->
  zmq_endpoint_sender_HHE ∉ w_unbindable wc ->
  w_send_fault wc !! zmq_endpoint_sender_HHE = None ->
  cpath ∉ w_unwritable wc ->
  0 <= n <= SIZE_MAX ->
  n = 0 \/ Z.of_nat (length frames) <= n ->
  Z.of_nat (length frames) <= SIZE_MAX ->
  (forall v, v ∈ frames -> data_message true v = true) ->
  w_files ws !! spath = None ->
  spath ∉ w_unwritable ws ->
  frames_size frames <= w_free ws ->
  exists wc1 wc2 ws',
    initialize_zmq_connection HHE wc = (Returned tt, wc1) /\
    transmit_latest_data host export_ct import_ct HHE listing tfhe_params wc1
      = (Some (Returned tt), wc2) /\
    w_sockets wc2 !! zmq_endpoint_sender_HHE = Some ([xfe] :: frames ++ [[xff]]) /\
    w_files wc2 !! cpath = Some [] /\
    zmq_receive_and_store host spath zmq_endpoint_receiver n true
      (map Some ([xfe] :: frames ++ [[xff]])) ws
      = (RecvReturned (Z.of_nat (length frames)), ws') /\
    w_files ws' !! spath = Some (spool_bytes frames).
Proof.
  intros Hlatest _ Hf Hne Hlen Hq Hb Hsf Hcw Hn Hle Hsz Hd Hnew Hsw Hroom.
  set (ep := zmq_endpoint_sender_HHE) in *.
  assert (Hwork : endpoint_works ep wc) by (split; [right; exact Hb | exact Hsf]).
  (* the SOF marker *)
  set (wc1 := queued ep [[xfe]] wc).
  assert (H1 : initialize_zmq_connection HHE wc = (Returned tt, wc1)).
  { unfold initialize_zmq_connection.
    cbn [get_encryption_variant String.eqb Ascii.eqb Bool.eqb].
    unfold send_sof_marker, send_vector_via_zmq. fold ep.
    rewrite send_to_endpoint_ok by exact Hwork. reflexivity. }
  assert (Hwork1 : endpoint_works ep wc1) by (apply queued_works; exact Hwork).
  assert (Hf1 : w_files wc1 !! cpath = Some (spool_bytes frames)) by exact Hf.
  (* the spool and the EOF marker *)
  set (wc2a := truncate_file cpath (queued ep frames (get_mutex_for_path cpath wc1))).
  assert (Hwork2 : endpoint_works ep wc2a /\
                   w_sockets wc2a !! ep = Some ([[xfe]] ++ frames)).
  { unfold wc2a.
    destruct (truncate_file_network cpath (queued ep frames (get_mutex_for_path cpath wc1)))
      as (Hso & Hu & Hs & _).
    unfold endpoint_works. rewrite Hso, Hu, Hs.
    assert (H0 : w_sockets (get_mutex_for_path cpath wc1) = w_sockets wc1 /\
                 w_send_fault (get_mutex_for_path cpath wc1) = w_send_fault wc1)
      by (unfold get_mutex_for_path; case_decide; split; reflexivity).
    destruct H0 as [Hs0 Hf0].
    unfold queued at 1 2 3 4. cbn [set_sockets w_sockets w_unbindable w_send_fault].
    rewrite !lookup_insert_eq, Hs0, Hf0.
    unfold wc1, queued. cbn [set_sockets w_sockets w_send_fault].
    rewrite lookup_insert_eq, Hq. cbn [default id app].
    split; [split; [left; eexists; reflexivity | exact Hsf] | reflexivity]. }
  destruct Hwork2 as [Hwork2 Hq2].
  set (wc2 := queued ep [[xff]] wc2a).
  assert (H2 : transmit_latest_data host export_ct import_ct HHE listing tfhe_params wc1
               = (Some (Returned tt), wc2)).
  { unfold transmit_latest_data.
    cbn [get_encryption_variant String.eqb Ascii.eqb Bool.eqb].
    rewrite Hlatest. fold ep.
    rewrite (send_all_of_spool host cpath ep frames wc1 Hf1 Hne Hlen Hwork1). fold wc2a.
    unfold send_vector_via_zmq. rewrite send_to_endpoint_ok by exact Hwork2. reflexivity. }
  (* the server *)
  assert (Hsw1 : spath ∉ w_unwritable (get_mutex_for_path spath ws))
    by (unfold get_mutex_for_path; case_decide; assumption).
  assert (Hroom1 : frames_size frames <= w_free (get_mutex_for_path spath ws))
    by (unfold get_mutex_for_path; case_decide; assumption).
  exists wc1, wc2, (stored spath frames (get_mutex_for_path spath ws)).
  split; [exact H1|]. split; [exact H2|]. split; [|split; [|split]].
  - unfold wc2, queued. cbn [set_sockets w_sockets].
    rewrite lookup_insert_eq, Hq2. cbn [default id app]. reflexivity.
  - unfold wc2, queued. cbn [set_sockets w_files]. unfold wc2a.
    apply truncate_file_files. cbn [queued set_sockets w_unwritable].
    unfold get_mutex_for_path. case_decide; exact Hcw.
  - unfold zmq_receive_and_store. cbn [map]. rewrite map_app. cbn [map].
    apply receive_sof_data_eof; try assumption.
    intros m Hm. specialize (Hlen m Hm). lia.
  - destruct frames as [|v l]; [congruence|]. cbn [stored].
    unfold spool_gains. cbn [set_files w_files].
    rewrite lookup_insert_eq, get_mutex_for_path_files, Hnew. reflexivity.
Qed.
Lemma kreyvium_spool_reaches_the_server_witness :
  let listing := fun _ : string =>
    Some [ {| de_filename := "20250101_120000_HHE_data_kreyvium.bin";
              de_is_regular_file := true |};
           {| de_filename := "20250102_090000_HHE_data_kreyvium.bin";
              de_is_regular_file := true |};
           {| de_filename := "notes.txt"; de_is_regular_file := true |} ] in
  let cpath := "../data_kreyvium/20250102_090000_HHE_data_kreyvium.bin"%string in
  let spath := "../data_kreyvium/20250103_080000_HHE_data_kreyvium.bin"%string in
  let frames := [[x01]; [x02; x03]] in
  let wc :=
    set_files
      (<[cpath := spool_bytes frames]>
         (<["../data_kreyvium/20250101_120000_HHE_data_kreyvium.bin"%string
            := spool_bytes [[x09]]]> ∅))
      (2 ^ 40) quiet_world in
  exists wc1 wc2 ws',
    initialize_zmq_connection HHE wc = (Returned tt, wc1) /\
    transmit_latest_data LittleEndian toy_export toy_import HHE listing (Some tt) wc1
      = (Some (Returned tt), wc2) /\
    w_sockets wc2 !! zmq_endpoint_sender_HHE = Some ([xfe] :: frames ++ [[xff]]) /\
    w_files wc2 !! cpath = Some [] /\
    zmq_receive_and_store LittleEndian spath "tcp://localhost:5556" 0 true
      (map Some ([xfe] :: frames ++ [[xff]])) quiet_world
      = (RecvReturned (Z.of_nat (length frames)), ws') /\
    w_files ws' !! spath = Some (spool_bytes frames).
Proof.
  intros listing cpath spath frames wc.
  apply (kreyvium_spool_reaches_the_server LittleEndian byte unit toy_export toy_import
           listing (Some tt) cpath spath "tcp://localhost:5556" 0 frames wc
           quiet_world).
  - vm_compute. reflexivity.
  - discriminate.
  - apply lookup_insert_eq.
  - discriminate.
  - intros v Hv.
    repeat (apply elem_of_cons in Hv as [->|Hv]; [cbn; lia|]).
    apply elem_of_nil in Hv. contradiction.
  - apply lookup_empty.
  - cbn. set_solver.
  - apply lookup_empty.
  - cbn. set_solver.
  - vm_compute. split; discriminate.
  - left. reflexivity.
  - vm_compute. discriminate.
  - intros v Hv.
    repeat (apply elem_of_cons in Hv as [->|Hv]; [reflexivity|]).
    apply elem_of_nil in Hv. contradiction.
  - apply lookup_empty.
  - cbn. set_solver.
  - vm_compute. discriminate.
Defined.

(** ** Which file [get_latest_file_in_directory] selects *)

Lemma latest_loop_keeps directory_path entries : forall latest_file latest_timestamp,
  (forall e t, e ∈ entries -> stamped e t -> String.ltb latest_timestamp t = false) ->
  latest_loop directory_path entries latest_file latest_timestamp = latest_file.
Proof.
  induction entries as [|entry entries IH]; intros lf lt Hle; [reflexivity|].
  assert (Hrest : forall e t, e ∈ entries -> stamped e t -> String.ltb lt t = false)
    by (intros e t He; apply Hle; right; exact He).
  cbn [latest_loop].
  destruct (de_is_regular_file entry) eqn:Hreg; [|apply IH, Hrest].
  destruct (timestamp_regex (de_filename entry)) as [stamp|] eqn:Hstamp; [|apply IH, Hrest].
  rewrite (Hle entry stamp) by (try left; split; assumption).
  apply IH, Hrest.
Qed.

Lemma latest_loop_first_greatest directory_path pre e post t :
  stamped e t ->
  (forall e' t', e' ∈ pre -> stamped e' t' -> String.ltb t' t = true) ->
  (forall e' t', e' ∈ post -> stamped e' t' -> String.ltb t t' = false) ->
  forall latest_file latest_timestamp,
  String.ltb latest_timestamp t = true ->
  latest_loop directory_path (pre ++ e :: post) latest_file latest_timestamp
  = entry_path directory_path (de_filename e).
Proof.
  intros [Hreg Hstamp] Hpre Hpost.
  induction pre as [|entry pre IH]; intros lf lt Hlt.
  - cbn [app latest_loop]. rewrite Hreg, Hstamp, Hlt.
    apply latest_loop_keeps, Hpost.
  - assert (Hrest : forall e' t', e' ∈ pre -> stamped e' t' -> String.ltb t' t = true)
      by (intros e' t' He'; apply Hpre; right; exact He').
    cbn [app latest_loop].
    destruct (de_is_regular_file entry) eqn:Hreg'; [|apply IH; assumption].
    destruct (timestamp_regex (de_filename entry)) as [stamp|] eqn:Hstamp';
      [|apply IH; assumption].
    destruct (String.ltb lt stamp); apply IH; try assumption.
    apply (Hpre entry stamp); [left|split; assumption].
Qed.

Lemma entry_path_nonempty directory_path filename :
  entry_path directory_path filename <> ""%string.
Proof.
  unfold entry_path. destruct directory_path as [|c s].
  - cbn. discriminate.
  - destruct (ends_with_separator (String c s)); cbn; discriminate.
Qed.

(** X20.  Ties go to the first file.  The stamps are compared with a strict
    [>], so [get_latest_file_in_directory] returns the first file, in the
    order the directory is iterated, among those with the greatest stamp:
    an entry whose stamp is above every stamp before it and not below any
    stamp after it is the one returned. *)
Theorem latest_file_is_the_first_with_the_greatest_stamp (directory_path : string)
    (pre post : list directory_entry) (e : directory_entry) (t : string) :
  stamped e t ->
  (forall e' t', e' ∈ pre -> stamped e' t' -> String.ltb t' t = true) ->
  (forall e' t', e' ∈ post -> stamped e' t' -> String.ltb t t' = false) ->
  get_latest_file_in_directory directory_path (Some (pre ++ e :: post))
  = entry_path directory_path (de_filename e).
Proof.
  intros Hs Hpre Hpost. cbn [get_latest_file_in_directory].
  apply (latest_loop_first_greatest directory_path pre e post t Hs Hpre Hpost).
  apply (timestamp_regex_nonempty (de_filename e)), Hs.
Qed.

Lemma latest_file_is_the_first_with_the_greatest_stamp_witness :
  get_latest_file_in_directory "spool"
    (Some ([ {| de_filename := "20240101_000000_a.bin"; de_is_regular_file := true |} ]
           ++ {| de_filename := "20250101_120000_b.bin"; de_is_regular_file := true |}
           :: [ {| de_filename := "20250101_120000_c.bin"; de_is_regular_file := true |};
                {| de_filename := "20260101_000000"; de_is_regular_file := false |} ]))
  = entry_path "spool"
      (de_filename {| de_filename := "20250101_120000_b.bin"; de_is_regular_file := true |}).
Proof.
  apply (latest_file_is_the_first_with_the_greatest_stamp "spool" _ _ _ "20250101_120000").
  - split; reflexivity.
  - intros e' t' He' [Hr Ht].
    repeat (apply elem_of_cons in He' as [->|He'];
            [vm_compute in Ht; injection Ht as <-; reflexivity|]).
    apply elem_of_nil in He'. contradiction.
  - intros e' t' He' [Hr Ht].
    apply elem_of_cons in He' as [->|He'];
      [vm_compute in Ht; injection Ht as <-; reflexivity|].
    apply elem_of_cons in He' as [->|He']; [discriminate Hr|].
    apply elem_of_nil in He'. contradiction.
Defined.

(** X21.  The empty result means "nothing found", and only that:
    [get_latest_file_in_directory] returns the empty string exactly when
    the directory cannot be listed or holds no regular file whose name
    starts with a stamp.  A path it returns is never empty, whatever the
    directory path is. *)
Theorem latest_file_is_empty_iff_nothing_is_stamped (directory_path : string)
    (listing : option (list directory_entry)) :
  get_latest_file_in_directory directory_path listing = ""%string
  <-> (listing = None \/
       exists entries, listing = Some entries /\
         forall e t, e ∈ entries -> ~ stamped e t).
Proof.
  destruct listing as [entries|]; cbn [get_latest_file_in_directory].
  2:{ split; [left|]; reflexivity. }
  split.
  - intros Hempty. right. exists entries. split; [reflexivity|].
    intros e0 t0 He0 Hs0.
    destruct (latest_loop_inv directory_path entries "" "") as (t & _ & Hmax & Hsel).
    destruct Hsel as [[_ ->]|(e & He & Hs & Hsel)].
    + pose proof (Hmax e0 t0 He0 Hs0) as Hc.
      rewrite (timestamp_regex_nonempty _ _ (proj2 Hs0)) in Hc. discriminate.
    + rewrite Hsel in Hempty. exact (entry_path_nonempty _ _ Hempty).
  - intros [Hnone|(entries' & [= <-] & Hno)]; [discriminate|].
    apply latest_loop_keeps. intros e t He Hs. destruct (Hno e t He Hs).
Qed.
